(** * VOLK kernels: [volk_32fc_s32f_deinterleave_real_16i] and
  [volk_32fc_x2_dot_prod_32fc]

  A shallow embedding of the kernel variants of the two headers
  [volk/volk_32fc_s32f_deinterleave_real_16i.h] and
  [volk/volk_32fc_x2_dot_prod_32fc.h].

  - [unsigned int] values are integers in [Z] with the wrap-around modulo
    [2^32] written out where the code computes with them;
  - a [float] is a binary32 value of the Standard Library's [SpecFloat]
    ([prec = 24], [emax = 128]); the kernels are written once over the
    interface [FloatOps], with binary32 as the instance of the code and
    [Z] as the instance of exact arithmetic;
  - buffers are lists indexed by float (or element) offset; a load or a
    store outside a buffer is undefined behaviour in C and makes the
    kernel return [None];
  - every access to caller memory is appended to a trace, so that the
    memory footprint of a kernel is a property of its result;
  - SIMD registers are lists of lanes, lowest lane first, and every
    intrinsic is a function on lanes;
  - a call is made at a [Placement], the byte addresses of the first
    elements of the caller's buffers.  An aligned load or store
    ([_mm_load_ps], [_mm256_load_ps], [_mm_store_si128]) at an address that
    is not a multiple of its width faults: the kernel returns [None].
    Where no placement is written the call is at [aligned], on buffers at
    multiples of 32 bytes, as the aligned variants require of their
    caller. *)

From Stdlib Require Import ZArith List Lia Bool QArith Qabs.
From Stdlib Require Import Floats.SpecFloat.
Import ListNotations.
Local Open Scope Z_scope.



(* ===================================================================== *)
(** * Machine integers *)
(* ===================================================================== *)

(** [unsigned int]: 32 bits, arithmetic modulo [2^32]. *)
Definition u32 (z : Z) : Z := z mod 2 ^ 32.
Definition u32_mul (a b : Z) : Z := u32 (a * b).
Definition u32_sub (a b : Z) : Z := u32 (a - b).
Definition u32_div (a b : Z) : Z := a / b.
Definition u32_and (a b : Z) : Z := Z.land a b.
Definition u32_shr (a k : Z) : Z := Z.shiftr a k.
Definition is_u32 (z : Z) : Prop := 0 <= z < 2 ^ 32.

(** [int16_t] and [int32_t] ranges. *)
Definition INT16_MIN : Z := - 2 ^ 15.
Definition INT16_MAX : Z := 2 ^ 15 - 1.
Definition INT32_MIN : Z := - 2 ^ 31.
Definition INT32_MAX : Z := 2 ^ 31 - 1.

(** Narrowing an integer to 16 bits keeps its low 16 bits (two's
  complement). *)
Definition wrap16 (z : Z) : Z := (z + 2 ^ 15) mod 2 ^ 16 - 2 ^ 15.

(** Signed saturation to 16 bits, as [packssdw] does on every lane. *)
Definition sat16 (z : Z) : Z := Z.max INT16_MIN (Z.min INT16_MAX z).

(* ===================================================================== *)
(** * Buffers *)
(* ===================================================================== *)

Definition zth {A} (l : list A) (i : Z) : option A :=
  if i <? 0 then None else nth_error l (Z.to_nat i).

Fixpoint list_set {A} (l : list A) (n : nat) (v : A) : list A :=
  match l, n with
  | [], _ => []
  | _ :: t, O => v :: t
  | h :: t, S n' => h :: list_set t n' v
  end.

Definition zupd {A} (l : list A) (i : Z) (v : A) : list A :=
  if i <? 0 then l else list_set l (Z.to_nat i) v.

Definition zlen {A} (l : list A) : Z := Z.of_nat (length l).

(* ===================================================================== *)
(** * A state and error monad for kernels *)
(* ===================================================================== *)

Section Monad.
Context {St : Type}.

Definition M (A : Type) : Type := St -> option (A * St).

Definition ret {A} (a : A) : M A := fun s => Some (a, s).

Definition bind {A B} (c : M A) (f : A -> M B) : M B :=
  fun s => match c s with
           | Some (a, s') => f a s'
           | None => None
           end.

Definition fail {A} : M A := fun _ => None.

(** [for (i = lo; i < hi; i++) body]: [k] is the number of iterations
  left, [l] the local variables the body updates. *)
Fixpoint for_range {L} (k : nat) (i : Z) (body : Z -> L -> M L) (l : L)
  : M L :=
  match k with
  | O => ret l
  | S k' => bind (body i l) (fun l' => for_range k' (i + 1) body l')
  end.

Definition for_loop {L} (lo hi : Z) (body : Z -> L -> M L) (l : L) : M L :=
  for_range (Z.to_nat (hi - lo)) lo body l.
End Monad.

Declare Scope kernel_scope.
Delimit Scope kernel_scope with kernel.
Notation "x <- c ;; k" := (bind c (fun x => k))
  (at level 61, c at next level, right associativity) : kernel_scope.
Notation "' p <- c ;; k" := (bind c (fun x => let 'p := x in k))
  (at level 61, p pattern, c at next level, right associativity)
  : kernel_scope.
Notation "c ;; k" := (bind c (fun _ => k))
  (at level 61, right associativity) : kernel_scope.
Local Open Scope kernel_scope.

(* ===================================================================== *)
(** * Floating point *)
(* ===================================================================== *)

(** The operations the kernels use on [float].  [ffmadd a b c] and
  [ffmsub a b c] are the fused [a*b + c] and [a*b - c] (one rounding). *)
Class FloatOps (F : Type) : Type := {
  fzero : F;
  fadd : F -> F -> F;
  fsub : F -> F -> F;
  fmul : F -> F -> F;
  ffmadd : F -> F -> F -> F;
  ffmsub : F -> F -> F -> F;
(** [rintf] *)
  frint : F -> F;
(** the C conversion [(int16_t) x] *)
  f2i16 : F -> Z;
(** one lane of [cvtps2dq] *)
  f2i32 : F -> Z
}.

Module B32.
Definition prec : Z := 24.
Definition emax : Z := 128.

Definition float : Type := spec_float.

Definition of_Z (z : Z) : float := binary_normalize prec emax z 0 false.

Definition add : float -> float -> float := SFadd prec emax.
Definition sub : float -> float -> float := SFsub prec emax.
Definition mul : float -> float -> float := SFmul prec emax.

(** Fused multiply-add: the product of two finite numbers is exact as the
  unnormalised [(-1)^s * (mx * my) * 2^(ex + ey)], and [SFadd] aligns,
  adds exactly and rounds once.  [SFadd] returns a number added to a zero
  as it is: then the one rounding is that of the product. *)
Definition exact_mul (x y : float) : float :=
  match x, y with
  | S754_finite sx mx ex, S754_finite sy my ey =>
      S754_finite (xorb sx sy) (mx * my) (ex + ey)
  | _, _ => mul x y
  end.

Definition fused (op : float -> float -> float) (a b c : float) : float :=
  match exact_mul a b, c with
  | S754_finite _ _ _, S754_zero _ => mul a b
  | p, _ => op p c
  end.

Definition fmadd : float -> float -> float -> float := fused add.
Definition fmsub : float -> float -> float -> float := fused sub.

(** [rne_shift m k]: [m / 2^k] rounded to the nearest integer, ties to
  the even one. *)
Definition rne_shift (m k : Z) : Z :=
  let q := m / 2 ^ k in
  let r := m mod 2 ^ k in
  let h := 2 ^ (k - 1) in
  if r <? h then q
  else if h <? r then q + 1
  else if Z.even q then q else q + 1.

(** The float of the integer [(-1)^s * z], [0 <= z]: the mantissa is
  shifted left until it has [prec] digits, which is the binary32
  representation of every integer below [2^prec]. *)
Definition of_int (s : bool) (z : Z) : float :=
  match z with
  | Zpos p =>
      let '(m, e) := shl_align p 0 (Zpos (digits2_pos p) - prec) in
      S754_finite s m e
  | _ => S754_zero s
  end.

(** Modelled from the spec: [rintf] is the C library's, not code of this
  repository; the spec gives round-to-nearest with ties to even, the
  default rounding mode.  The result is the float of that integer, with
  the sign of the argument. *)
Definition rint (x : float) : float :=
  match x with
  | S754_finite s m e =>
      if 0 <=? e then x else of_int s (rne_shift (Zpos m) (- e))
  | _ => x
  end.

(** The integer a float denotes once its fraction is dropped (truncation
  toward zero); [None] for infinities and NaN. *)
Definition trunc (x : float) : option Z :=
  match x with
  | S754_zero _ => Some 0
  | S754_finite s m e =>
      Some (cond_Zopp s (if 0 <=? e then Zpos m * 2 ^ e
                         else Zpos m / 2 ^ (- e)))
  | _ => None
  end.

(** The integer nearest to a float, ties to even; [None] for infinities
  and NaN. *)
Definition nearest (x : float) : option Z :=
  match x with
  | S754_zero _ => Some 0
  | S754_finite s m e =>
      Some (cond_Zopp s (if 0 <=? e then Zpos m * 2 ^ e
                         else rne_shift (Zpos m) (- e)))
  | _ => None
  end.

(** A conversion to [int32_t] on x86 yields the "integer indefinite"
  value [0x80000000] when the source is NaN, infinite or out of
  range. *)
Definition to_i32 (oz : option Z) : Z :=
  match oz with
  | Some z => if (INT32_MIN <=? z) && (z <=? INT32_MAX) then z
              else INT32_MIN
  | None => INT32_MIN
  end.

(** Modelled from the spec: C leaves [(int16_t) x] undefined when the
  value is out of range; the spec states that the reference "truncates
  via narrowing conversion, which wraps on overflow".  This is what the
  x86 code of the cast does: [cvttss2si] to 32 bits, of which the low 16
  bits are kept. *)
Definition cast_i16 (x : float) : Z := wrap16 (to_i32 (trunc x)).

(** One lane of [cvtps2dq]: round to nearest even (the default MXCSR
  rounding mode), to 32 bits. *)
Definition cvt_i32 (x : float) : Z := to_i32 (nearest x).
End B32.

#[export] Instance b32_ops : FloatOps B32.float := {
  fzero := S754_zero false;
  fadd := B32.add;
  fsub := B32.sub;
  fmul := B32.mul;
  ffmadd := B32.fmadd;
  ffmsub := B32.fmsub;
  frint := B32.rint;
  f2i16 := B32.cast_i16;
  f2i32 := B32.cvt_i32
}.

(** Exact arithmetic: the integers, where nothing is rounded. *)
#[export] Instance Z_ops : FloatOps Z := {
  fzero := 0;
  fadd := Z.add;
  fsub := Z.sub;
  fmul := Z.mul;
  ffmadd := fun a b c => a * b + c;
  ffmsub := fun a b c => a * b - c;
  frint := fun x => x;
  f2i16 := wrap16;
  f2i32 := fun x => x
}.

(* ===================================================================== *)
(** * SIMD registers and intrinsics *)
(* ===================================================================== *)

Section Simd.
Context {F : Type} {FO : FloatOps F}.

(** A register of floats is the list of its lanes, lane 0 first. *)
Definition lane (v : list F) (k : nat) : F := nth k v fzero.

Fixpoint vmap2 {A B C} (f : A -> B -> C) (a : list A) (b : list B)
  : list C :=
  match a, b with
  | x :: a', y :: b' => f x y :: vmap2 f a' b'
  | _, _ => []
  end.

Definition lo128 {A} (v : list A) : list A := firstn 4 v.
Definition hi128 {A} (v : list A) : list A := skipn 4 v.

(** [_MM_SHUFFLE(z, y, x, w)] *)
Definition _MM_SHUFFLE (z y x w : Z) : Z :=
  Z.lor (Z.lor (Z.lor (Z.shiftl z 6) (Z.shiftl y 4)) (Z.shiftl x 2)) w.

(** The [k]-th 2-bit field of a shuffle control. *)
Definition sel (imm : Z) (k : Z) : nat :=
  Z.to_nat (Z.land (Z.shiftr imm (2 * k)) 3).

Definition _mm_set_ps1 (x : F) : list F := [x; x; x; x].
Definition _mm256_set1_ps (x : F) : list F := [x; x; x; x; x; x; x; x].
Definition _mm_setzero_ps : list F := _mm_set_ps1 fzero.
Definition _mm256_setzero_ps : list F := _mm256_set1_ps fzero.

Definition _mm_shuffle_ps (a b : list F) (imm : Z) : list F :=
  [lane a (sel imm 0); lane a (sel imm 1);
   lane b (sel imm 2); lane b (sel imm 3)].

(** The 256-bit shuffle works on each 128-bit half separately. *)
Definition _mm256_shuffle_ps (a b : list F) (imm : Z) : list F :=
  _mm_shuffle_ps (lo128 a) (lo128 b) imm
    ++ _mm_shuffle_ps (hi128 a) (hi128 b) imm.

Definition _mm_mul_ps : list F -> list F -> list F := vmap2 fmul.
Definition _mm_add_ps : list F -> list F -> list F := vmap2 fadd.
Definition _mm256_mul_ps : list F -> list F -> list F := vmap2 fmul.
Definition _mm256_add_ps : list F -> list F -> list F := vmap2 fadd.

Definition _mm_moveldup_ps (y : list F) : list F :=
  [lane y 0; lane y 0; lane y 2; lane y 2].
Definition _mm_movehdup_ps (y : list F) : list F :=
  [lane y 1; lane y 1; lane y 3; lane y 3].
Definition _mm256_moveldup_ps (y : list F) : list F :=
  _mm_moveldup_ps (lo128 y) ++ _mm_moveldup_ps (hi128 y).
Definition _mm256_movehdup_ps (y : list F) : list F :=
  _mm_movehdup_ps (lo128 y) ++ _mm_movehdup_ps (hi128 y).

(** Subtract in the even lanes, add in the odd ones. *)
Fixpoint addsub (even : bool) (a b : list F) : list F :=
  match a, b with
  | x :: a', y :: b' =>
      (if even then fsub x y else fadd x y) :: addsub (negb even) a' b'
  | _, _ => []
  end.
Definition _mm_addsub_ps : list F -> list F -> list F := addsub true.
Definition _mm256_addsub_ps : list F -> list F -> list F := addsub true.

(** [a*b - c] in the even lanes, [a*b + c] in the odd ones, fused. *)
Fixpoint fmaddsub (even : bool) (a b c : list F) : list F :=
  match a, b, c with
  | x :: a', y :: b', z :: c' =>
      (if even then ffmsub x y z else ffmadd x y z)
        :: fmaddsub (negb even) a' b' c'
  | _, _, _ => []
  end.
Definition _mm256_fmaddsub_ps : list F -> list F -> list F -> list F :=
  fmaddsub true.

(** Integer registers.  After [packssdw] a 256-bit register is read as 16
  lanes of 16 bits; a 32-bit lane [j] is the pair of 16-bit lanes [2j]
  and [2j + 1]. *)
Definition _mm256_set_epi32 (e7 e6 e5 e4 e3 e2 e1 e0 : Z) : list Z :=
  [e0; e1; e2; e3; e4; e5; e6; e7].

Definition _mm256_cvtps_epi32 (v : list F) : list Z := map f2i32 v.

Definition _mm256_packs_epi32 (a b : list Z) : list Z :=
  map sat16 (lo128 a ++ lo128 b) ++ map sat16 (hi128 a ++ hi128 b).

Definition dword (a : list Z) (j : nat) : list Z :=
  [nth (2 * j) a 0; nth (2 * j + 1) a 0].

Definition _mm256_permutevar8x32_epi32 (a idx : list Z) : list Z :=
  flat_map (fun i => dword a (Z.to_nat (Z.land i 7))) idx.

Definition _mm256_extracti128_si256 (a : list Z) (imm : Z) : list Z :=
  if imm =? 0 then firstn 8 a else skipn 8 a.

(** NEON: [vmlaq_f32 a b c] is [a + b*c] and [vmlsq_f32 a b c] is
  [a - b*c], lane by lane, the product rounded before it is added. *)
Definition vdupq_n_f32 (x : F) : list F := [x; x; x; x].
Definition vmulq_f32 : list F -> list F -> list F := vmap2 fmul.
Definition vaddq_f32 : list F -> list F -> list F := vmap2 fadd.
Definition vsubq_f32 : list F -> list F -> list F := vmap2 fsub.
Definition vmlaq_f32 (a b c : list F) : list F :=
  vmap2 fadd a (vmap2 fmul b c).
Definition vmlsq_f32 (a b c : list F) : list F :=
  vmap2 fsub a (vmap2 fmul b c).
End Simd.

(* ===================================================================== *)
(** * [volk_32fc_s32f_deinterleave_real_16i] *)
(* ===================================================================== *)

Module Deinterleave.

(** An access to caller memory: a float of [complexVector] read, or an
  element of [iBuffer] written. *)
Inductive event : Type :=
  | Rd (i : Z)
  | Wr (j : Z).

Record mem : Type := Mem {
    ibuf : list Z;
    trace : list event
  }.

(** Where the caller's buffers lie: the byte addresses of
  [complexVector[0]] and of [iBuffer[0]].  A [float] takes four bytes and
  an [int16_t] two. *)
Class Placement : Type := {
    complexVector_addr : Z;
    iBuffer_addr : Z
  }.

Section Kernels.
Context {F : Type} {FO : FloatOps F} {PL : Placement}.

(** [complexVector], as its [2 * num_points] floats. *)
Variable complexVector : list F.

Definition loadf (p : Z) : M (St := mem) F :=
  fun m => match zth complexVector p with
           | Some v => Some (v, Mem (ibuf m) (trace m ++ [Rd p]))
           | None => None
           end.

Definition store16 (p : Z) (v : Z) : M (St := mem) unit :=
  fun m => if (0 <=? p) && (p <? zlen (ibuf m))
           then Some (tt, Mem (zupd (ibuf m) p v) (trace m ++ [Wr p]))
           else None.

Definition _mm_loadu_ps (p : Z) : M (list F) :=
  x0 <- loadf p ;; x1 <- loadf (p + 1) ;;
  x2 <- loadf (p + 2) ;; x3 <- loadf (p + 3) ;;
  ret [x0; x1; x2; x3].

Definition _mm256_loadu_ps (p : Z) : M (list F) :=
  l <- _mm_loadu_ps p ;; h <- _mm_loadu_ps (p + 4) ;; ret (l ++ h).

(** The aligned loads fault unless the address of the float at offset [p]
  is a multiple of 16, or of 32, bytes. *)
Definition _mm_load_ps (p : Z) : M (list F) :=
  if (complexVector_addr + 4 * p) mod 16 =? 0 then _mm_loadu_ps p
  else fail.

Definition _mm256_load_ps (p : Z) : M (list F) :=
  if (complexVector_addr + 4 * p) mod 32 =? 0 then _mm256_loadu_ps p
  else fail.

Fixpoint store16s (p : Z) (vs : list Z) : M (St := mem) unit :=
  match vs with
  | [] => ret tt
  | v :: vs' => store16 p v ;; store16s (p + 1) vs'
  end.

Definition _mm_storeu_si128 (p : Z) (b : list Z) : M unit := store16s p b.

(** The aligned store faults unless the address of the element at offset
  [p] is a multiple of 16 bytes. *)
Definition _mm_store_si128 (p : Z) (b : list Z) : M unit :=
  if (iBuffer_addr + 2 * p) mod 16 =? 0 then _mm_storeu_si128 p b
  else fail.

(** The scalar statement of every variant: load the real part, scale,
  [rintf], convert to [int16_t], store, and advance the input
  pointer twice and the output pointer once. *)
Definition scalar_body (scalar : F) (number : Z) (l : Z * Z)
  : M (Z * Z) :=
  let '(complexVectorPtr, iBufferPtr) := l in
  x <- loadf complexVectorPtr ;;
  store16 iBufferPtr (f2i16 (frint (fmul x scalar))) ;;
  ret (complexVectorPtr + 1 + 1, iBufferPtr + 1).

Definition volk_32fc_s32f_deinterleave_real_16i_generic
  (scalar : F) (num_points : Z) : M unit :=
  let complexVectorPtr := 0 in
  let iBufferPtr := 0 in
  for_loop 0 num_points (scalar_body scalar)
    (complexVectorPtr, iBufferPtr) ;;
  ret tt.

Definition sse_body (vScalar : list F) (number : Z) (l : Z * Z)
  : M (Z * Z) :=
  let '(complexVectorPtr, iBufferPtr) := l in
  cplxValue1 <- _mm_load_ps complexVectorPtr ;;
  let complexVectorPtr := complexVectorPtr + 4 in
  cplxValue2 <- _mm_load_ps complexVectorPtr ;;
  let complexVectorPtr := complexVectorPtr + 4 in
  let iValue :=
    _mm_shuffle_ps cplxValue1 cplxValue2 (_MM_SHUFFLE 2 0 2 0) in
  let iValue := _mm_mul_ps iValue vScalar in
  let floatBuffer := iValue in
  store16 iBufferPtr (f2i16 (frint (lane floatBuffer 0))) ;;
  store16 (iBufferPtr + 1) (f2i16 (frint (lane floatBuffer 1))) ;;
  store16 (iBufferPtr + 2) (f2i16 (frint (lane floatBuffer 2))) ;;
  store16 (iBufferPtr + 3) (f2i16 (frint (lane floatBuffer 3))) ;;
  ret (complexVectorPtr, iBufferPtr + 4).

Definition volk_32fc_s32f_deinterleave_real_16i_a_sse
  (scalar : F) (num_points : Z) : M unit :=
  let quarterPoints := u32_div num_points 4 in
  let vScalar := _mm_set_ps1 scalar in
  '(complexVectorPtr, _) <-
    for_loop 0 quarterPoints (sse_body vScalar) (0, 0) ;;
  let number := u32_mul quarterPoints 4 in
  let iBufferPtr := number in
  for_loop number num_points (scalar_body scalar)
    (complexVectorPtr, iBufferPtr) ;;
  ret tt.

Definition avx2_body (load : Z -> M (St := mem) (list F))
  (store : Z -> list Z -> M (St := mem) unit) (vScalar : list F)
  (idx : list Z) (number : Z) (l : Z * Z) : M (Z * Z) :=
  let '(complexVectorPtr, iBufferPtr) := l in
  cplxValue1 <- load complexVectorPtr ;;
  let complexVectorPtr := complexVectorPtr + 8 in
  cplxValue2 <- load complexVectorPtr ;;
  let complexVectorPtr := complexVectorPtr + 8 in
  let iValue :=
    _mm256_shuffle_ps cplxValue1 cplxValue2 (_MM_SHUFFLE 2 0 2 0) in
  let iValue := _mm256_mul_ps iValue vScalar in
  let a := _mm256_cvtps_epi32 iValue in
  let a := _mm256_packs_epi32 a a in
  let a := _mm256_permutevar8x32_epi32 a idx in
  let b := _mm256_extracti128_si256 a 0 in
  store iBufferPtr b ;;
  ret (complexVectorPtr, iBufferPtr + 8).

Definition volk_32fc_s32f_deinterleave_real_16i_a_avx2
  (scalar : F) (num_points : Z) : M unit :=
  let eighthPoints := u32_div num_points 8 in
  let vScalar := _mm256_set1_ps scalar in
  let idx := _mm256_set_epi32 3 3 3 3 5 1 4 0 in
  '(complexVectorPtr, _) <-
    for_loop 0 eighthPoints
      (avx2_body _mm256_load_ps _mm_store_si128 vScalar idx) (0, 0) ;;
  let number := u32_mul eighthPoints 8 in
  let iBufferPtr := number in
  for_loop number num_points (scalar_body scalar)
    (complexVectorPtr, iBufferPtr) ;;
  ret tt.

Definition volk_32fc_s32f_deinterleave_real_16i_u_avx2
  (scalar : F) (num_points : Z) : M unit :=
  let eighthPoints := u32_div num_points 8 in
  let vScalar := _mm256_set1_ps scalar in
  let idx := _mm256_set_epi32 3 3 3 3 5 1 4 0 in
  '(complexVectorPtr, _) <-
    for_loop 0 eighthPoints
      (avx2_body _mm256_loadu_ps _mm_storeu_si128 vScalar idx) (0, 0) ;;
  let number := u32_mul eighthPoints 8 in
  let iBufferPtr := number in
  for_loop number num_points (scalar_body scalar)
    (complexVectorPtr, iBufferPtr) ;;
  ret tt.
End Kernels.

(** A call: [iBuffer] holds [iBuffer0] on entry and nothing has been
  accessed yet. *)
Definition run (k : M (St := mem) unit) (iBuffer0 : list Z) : option mem :=
  match k (Mem iBuffer0 []) with
  | Some (_, m) => Some m
  | None => None
  end.

(** The four variants of the header. *)
Inductive variant : Type := generic | a_sse | a_avx2 | u_avx2.

Definition kernel {F} {FO : FloatOps F} {PL : Placement} (v : variant)
  (complexVector : list F) (scalar : F) (num_points : Z)
  : M (St := mem) unit :=
  match v with
  | generic =>
      volk_32fc_s32f_deinterleave_real_16i_generic complexVector scalar
        num_points
  | a_sse =>
      volk_32fc_s32f_deinterleave_real_16i_a_sse complexVector scalar
        num_points
  | a_avx2 =>
      volk_32fc_s32f_deinterleave_real_16i_a_avx2 complexVector scalar
        num_points
  | u_avx2 =>
      volk_32fc_s32f_deinterleave_real_16i_u_avx2 complexVector scalar
        num_points
  end.

(** Buffers at multiples of 32 bytes: the placement of a call for which
  none is written. *)
#[global] Instance aligned : Placement := {|
  complexVector_addr := 0;
  iBuffer_addr := 0
|}.

(** The placement of a call on [complexVector + k] and [iBuffer + k]:
  [k] complex samples and [k] output elements further. *)
Definition advanced (PL : Placement) (k : Z) : Placement := {|
  complexVector_addr := complexVector_addr + 8 * k;
  iBuffer_addr := iBuffer_addr + 2 * k
|}.

(** What a variant requires of the placement of its call. *)
Definition aligned_for (v : variant) (PL : Placement) : Prop :=
  match v with
  | generic | u_avx2 => True
  | a_sse => complexVector_addr mod 16 = 0
  | a_avx2 => complexVector_addr mod 32 = 0 /\ iBuffer_addr mod 16 = 0
  end.

End Deinterleave.

(* ===================================================================== *)
(** * [volk_32fc_x2_dot_prod_32fc] *)
(* ===================================================================== *)

Module DotProd.

Inductive buffer : Type := Input | Taps.

(** An access to caller memory: a float of [input] or [taps] read, or
  one of the two floats of [*result] read or written. *)
Inductive event : Type :=
  | Ld (b : buffer) (i : Z)
  | LdRes (k : Z)
  | StRes (k : Z).

(** Where the caller's buffers lie: the byte addresses of [input[0]] and
  of [taps[0]].  An [lv_32fc_t] takes eight bytes, a [float] four. *)
Class Placement : Type := {
    input_addr : Z;
    taps_addr : Z
  }.

Section Kernels.
Context {F : Type} {FO : FloatOps F} {PL : Placement}.

(** Modelled from the spec: [lv_32fc_t] and its operators come from
  [volk/volk_complex.h], which is not among the sources; the spec
  gives the pair (real, imaginary) of two floats and the product
  [(a+bi)(c+di) = (ac-bd) + (ad+bc)i]. *)
Definition lv_32fc_t : Type := (F * F)%type.
Definition lv_cmake (re im : F) : lv_32fc_t := (re, im).
Definition czero : lv_32fc_t := lv_cmake fzero fzero.
Definition cadd (x y : lv_32fc_t) : lv_32fc_t :=
  lv_cmake (fadd (fst x) (fst y)) (fadd (snd x) (snd y)).
Definition cmul (x y : lv_32fc_t) : lv_32fc_t :=
  let '(a, b) := x in
  let '(c, d) := y in
  lv_cmake (fsub (fmul a c) (fmul b d)) (fadd (fmul a d) (fmul b c)).

Record mem : Type := Mem {
    result : lv_32fc_t;
    trace : list event
  }.

(** [input] and [taps], as floats. *)
Variables input taps : list F.

Definition buf (b : buffer) : list F :=
  match b with Input => input | Taps => taps end.

Definition addr (b : buffer) : Z :=
  match b with Input => input_addr | Taps => taps_addr end.

Definition loadf (b : buffer) (p : Z) : M (St := mem) F :=
  fun m => match zth (buf b) p with
           | Some v => Some (v, Mem (result m) (trace m ++ [Ld b p]))
           | None => None
           end.

(** The complex sample [b[i]]. *)
Definition loadc (b : buffer) (i : Z) : M (St := mem) lv_32fc_t :=
  re <- loadf b (2 * i) ;; im <- loadf b (2 * i + 1) ;;
  ret (lv_cmake re im).

(** [((float* )result)[k] = v] *)
Definition store_res (k : Z) (v : F) : M (St := mem) unit :=
  fun m =>
    let '(re, im) := result m in
    if k =? 0 then Some (tt, Mem (v, im) (trace m ++ [StRes 0]))
    else if k =? 1 then Some (tt, Mem (re, v) (trace m ++ [StRes 1]))
    else None.

Definition load_res (k : Z) : M (St := mem) F :=
  fun m =>
    let '(re, im) := result m in
    if k =? 0 then Some (re, Mem (result m) (trace m ++ [LdRes 0]))
    else if k =? 1 then Some (im, Mem (result m) (trace m ++ [LdRes 1]))
    else None.

(** [*result = c] *)
Definition store_result (c : lv_32fc_t) : M (St := mem) unit :=
  store_res 0 (fst c) ;; store_res 1 (snd c).

(** [*result] *)
Definition load_result : M (St := mem) lv_32fc_t :=
  re <- load_res 0 ;; im <- load_res 1 ;; ret (lv_cmake re im).

Definition _mm_loadu_ps (b : buffer) (p : Z) : M (St := mem) (list F) :=
  x0 <- loadf b p ;; x1 <- loadf b (p + 1) ;;
  x2 <- loadf b (p + 2) ;; x3 <- loadf b (p + 3) ;;
  ret [x0; x1; x2; x3].

Definition _mm256_loadu_ps (b : buffer) (p : Z)
  : M (St := mem) (list F) :=
  l <- _mm_loadu_ps b p ;; h <- _mm_loadu_ps b (p + 4) ;; ret (l ++ h).

(** The aligned loads fault unless the address of the float at offset [p]
  of the buffer is a multiple of 16, or of 32, bytes. *)
Definition _mm_load_ps (b : buffer) (p : Z) : M (St := mem) (list F) :=
  if (addr b + 4 * p) mod 16 =? 0 then _mm_loadu_ps b p else fail.

Definition _mm256_load_ps (b : buffer) (p : Z)
  : M (St := mem) (list F) :=
  if (addr b + 4 * p) mod 32 =? 0 then _mm256_loadu_ps b p else fail.

(** A register stored to a local array of [lv_32fc_t]: element [j] is
  the pair of lanes [2j] and [2j + 1]. *)
Definition cplx_of (v : list F) (j : nat) : lv_32fc_t :=
  lv_cmake (lane v (2 * j)) (lane v (2 * j + 1)).

(** [vld2q_f32]: eight floats, de-interleaved by two. *)
Definition vld2q_f32 (b : buffer) (p : Z)
  : M (St := mem) (list F * list F) :=
  v <- _mm256_loadu_ps b p ;;
  ret ([lane v 0; lane v 2; lane v 4; lane v 6],
       [lane v 1; lane v 3; lane v 5; lane v 7]).

(** [vld4q_f32]: sixteen floats, de-interleaved by four. *)
Definition vld4q_f32 (b : buffer) (p : Z)
  : M (St := mem) (list F * list F * list F * list F) :=
  l <- _mm256_loadu_ps b p ;; h <- _mm256_loadu_ps b (p + 8) ;;
  let v := l ++ h in
  ret ([lane v 0; lane v 4; lane v 8; lane v 12],
       [lane v 1; lane v 5; lane v 9; lane v 13],
       [lane v 2; lane v 6; lane v 10; lane v 14],
       [lane v 3; lane v 7; lane v 11; lane v 15]).

(** [vst2q_f32] to a local array of [lv_32fc_t]: element [j] is the
  pair of the lanes [j] of the two registers. *)
Definition vst2q (acc : list F * list F) (j : nat) : lv_32fc_t :=
  lv_cmake (lane (fst acc) j) (lane (snd acc) j).

(* ----------------------------------------------------------------- *)
(** ** generic *)

Definition generic_body (i : Z) (l : Z * Z * (F * F) * (F * F))
  : M (St := mem) (Z * Z * (F * F) * (F * F)) :=
  let '(in_, tp, (sum0_0, sum0_1), (sum1_0, sum1_1)) := l in
  a <- loadf Input in_ ;; b <- loadf Taps tp ;;
  c <- loadf Input (in_ + 1) ;; d <- loadf Taps (tp + 1) ;;
  let sum0_0 := fadd sum0_0 (fsub (fmul a b) (fmul c d)) in
  a <- loadf Input in_ ;; b <- loadf Taps (tp + 1) ;;
  c <- loadf Input (in_ + 1) ;; d <- loadf Taps tp ;;
  let sum0_1 := fadd sum0_1 (fadd (fmul a b) (fmul c d)) in
  a <- loadf Input (in_ + 2) ;; b <- loadf Taps (tp + 2) ;;
  c <- loadf Input (in_ + 3) ;; d <- loadf Taps (tp + 3) ;;
  let sum1_0 := fadd sum1_0 (fsub (fmul a b) (fmul c d)) in
  a <- loadf Input (in_ + 2) ;; b <- loadf Taps (tp + 3) ;;
  c <- loadf Input (in_ + 3) ;; d <- loadf Taps (tp + 2) ;;
  let sum1_1 := fadd sum1_1 (fadd (fmul a b) (fmul c d)) in
  ret (in_ + 4, tp + 4, (sum0_0, sum0_1), (sum1_0, sum1_1)).

(** [*result += input[i] * taps[i]] *)
Definition result_add_product (i : Z) : M (St := mem) unit :=
  x <- loadc Input i ;; y <- loadc Taps i ;;
  r <- load_result ;;
  store_result (cadd r (cmul x y)).

Definition volk_32fc_x2_dot_prod_32fc_generic (num_points : Z)
  : M (St := mem) unit :=
  let n_2_ccomplex_blocks := u32_div num_points 2 in
  '(_, _, (sum0_0, sum0_1), (sum1_0, sum1_1)) <-
    for_loop 0 n_2_ccomplex_blocks generic_body
      (0, 0, (fzero, fzero), (fzero, fzero)) ;;
  store_res 0 (fadd sum0_0 sum1_0) ;;
  store_res 1 (fadd sum0_1 sum1_1) ;;
  if u32_and num_points 1 =? 0 then ret tt
  else result_add_product (u32_sub num_points 1).

(* ----------------------------------------------------------------- *)
(** ** SSE3 *)

Definition sse3_body (load : buffer -> Z -> M (St := mem) (list F))
  (number : Z) (l : Z * Z * list F)
  : M (St := mem) (Z * Z * list F) :=
  let '(a, b, dotProdVal) := l in
  x <- load Input (2 * a) ;;
  y <- load Taps (2 * b) ;;
  let yl := _mm_moveldup_ps y in
  let yh := _mm_movehdup_ps y in
  let tmp1 := _mm_mul_ps x yl in
  let x := _mm_shuffle_ps x x 177 in
  let tmp2 := _mm_mul_ps x yh in
  let z := _mm_addsub_ps tmp1 tmp2 in
  let dotProdVal := _mm_add_ps dotProdVal z in
  ret (a + 2, b + 2, dotProdVal).

(** What the two SSE3 variants share after their main loop: the register
    is stored to [dotProductVector], its two elements are added to the local
    [dotProduct], the last sample is added when [num_points] is odd, and
    [dotProduct] is stored to [*result]. *)
Definition sse3_finish (num_points isodd : Z) (dotProdVal : list F)
  : M (St := mem) unit :=
  let dotProduct := czero in
  let dotProductVector := cplx_of dotProdVal in
  let dotProduct :=
    cadd dotProduct (cadd (dotProductVector 0%nat)
                          (dotProductVector 1%nat)) in
  dotProduct <-
    (if isodd =? 0 then ret dotProduct
     else
       x <- loadc Input (u32_sub num_points 1) ;;
       y <- loadc Taps (u32_sub num_points 1) ;;
       ret (cadd dotProduct (cmul x y))) ;;
  store_result dotProduct.

Definition volk_32fc_x2_dot_prod_32fc_u_sse3 (num_points : Z)
  : M (St := mem) unit :=
  let halfPoints := u32_div num_points 2 in
  let isodd := u32_and num_points 1 in
  '(_, _, dotProdVal) <-
    for_loop 0 halfPoints (sse3_body _mm_loadu_ps)
      (0, 0, _mm_setzero_ps) ;;
  sse3_finish num_points isodd dotProdVal.

Definition volk_32fc_x2_dot_prod_32fc_a_sse3 (num_points : Z)
  : M (St := mem) unit :=
  let num_bytes := u32_mul num_points 8 in
  let isodd := u32_and num_points 1 in
  let halfPoints := u32_shr num_bytes 4 in
  '(_, _, dotProdVal) <-
    for_loop 0 halfPoints (sse3_body _mm_load_ps)
      (0, 0, _mm_setzero_ps) ;;
  sse3_finish num_points isodd dotProdVal.

(* ----------------------------------------------------------------- *)
(** ** AVX *)

Definition avx_body (load : buffer -> Z -> M (St := mem) (list F))
  (number : Z) (l : Z * Z * list F)
  : M (St := mem) (Z * Z * list F) :=
  let '(a, b, dotProdVal) := l in
  x <- load Input (2 * a) ;;
  y <- load Taps (2 * b) ;;
  let yl := _mm256_moveldup_ps y in
  let yh := _mm256_movehdup_ps y in
  let tmp1 := _mm256_mul_ps x yl in
  let x := _mm256_shuffle_ps x x 177 in
  let tmp2 := _mm256_mul_ps x yh in
  let z := _mm256_addsub_ps tmp1 tmp2 in
  let dotProdVal := _mm256_add_ps dotProdVal z in
  ret (a + 4, b + 4, dotProdVal).

Definition avx_fma_body (load : buffer -> Z -> M (St := mem) (list F))
  (number : Z) (l : Z * Z * list F)
  : M (St := mem) (Z * Z * list F) :=
  let '(a, b, dotProdVal) := l in
  x <- load Input (2 * a) ;;
  y <- load Taps (2 * b) ;;
  let yl := _mm256_moveldup_ps y in
  let yh := _mm256_movehdup_ps y in
  let tmp1 := x in
  let x := _mm256_shuffle_ps x x 177 in
  let tmp2 := _mm256_mul_ps x yh in
  let z := _mm256_fmaddsub_ps tmp1 yl tmp2 in
  let dotProdVal := _mm256_add_ps dotProdVal z in
  ret (a + 4, b + 4, dotProdVal).

(** [dotProduct += input[i] * taps[i]] on the local [dotProduct]. *)
Definition avx_tail_body (i : Z) (dotProduct : lv_32fc_t)
  : M (St := mem) lv_32fc_t :=
  x <- loadc Input i ;; y <- loadc Taps i ;;
  ret (cadd dotProduct (cmul x y)).

(** What the four AVX variants share after their main loop. *)
Definition avx_finish (num_points isodd : Z) (dotProdVal : list F)
  : M (St := mem) unit :=
  let dotProduct := czero in
  let dotProductVector := cplx_of dotProdVal in
  let dotProduct :=
    cadd dotProduct
      (cadd (cadd (cadd (dotProductVector 0%nat)
                        (dotProductVector 1%nat))
                  (dotProductVector 2%nat))
            (dotProductVector 3%nat)) in
  dotProduct <-
    for_loop (u32_sub num_points isodd) num_points avx_tail_body
      dotProduct ;;
  store_result dotProduct.

Definition volk_32fc_x2_dot_prod_32fc_u_avx (num_points : Z)
  : M (St := mem) unit :=
  let isodd := u32_and num_points 3 in
  let quarterPoints := u32_div num_points 4 in
  '(_, _, dotProdVal) <-
    for_loop 0 quarterPoints (avx_body _mm256_loadu_ps)
      (0, 0, _mm256_setzero_ps) ;;
  avx_finish num_points isodd dotProdVal.

Definition volk_32fc_x2_dot_prod_32fc_u_avx_fma (num_points : Z)
  : M (St := mem) unit :=
  let isodd := u32_and num_points 3 in
  let quarterPoints := u32_div num_points 4 in
  '(_, _, dotProdVal) <-
    for_loop 0 quarterPoints (avx_fma_body _mm256_loadu_ps)
      (0, 0, _mm256_setzero_ps) ;;
  avx_finish num_points isodd dotProdVal.

Definition volk_32fc_x2_dot_prod_32fc_a_avx (num_points : Z)
  : M (St := mem) unit :=
  let isodd := u32_and num_points 3 in
  let quarterPoints := u32_div num_points 4 in
  '(_, _, dotProdVal) <-
    for_loop 0 quarterPoints (avx_body _mm256_load_ps)
      (0, 0, _mm256_setzero_ps) ;;
  avx_finish num_points isodd dotProdVal.

Definition volk_32fc_x2_dot_prod_32fc_a_avx_fma (num_points : Z)
  : M (St := mem) unit :=
  let isodd := u32_and num_points 3 in
  let quarterPoints := u32_div num_points 4 in
  '(_, _, dotProdVal) <-
    for_loop 0 quarterPoints (avx_fma_body _mm256_load_ps)
      (0, 0, _mm256_setzero_ps) ;;
  avx_finish num_points isodd dotProdVal.

(* ----------------------------------------------------------------- *)
(** ** NEON.  [a_ptr] runs over [taps] and [b_ptr] over [input];
  [__VOLK_PREFETCH] is a hint and accesses nothing. *)

(** [*result += ( *a_ptr++) * ( *b_ptr++)] *)
Definition neon_tail_body (number : Z) (l : Z * Z)
  : M (St := mem) (Z * Z) :=
  let '(a_ptr, b_ptr) := l in
  x <- loadc Taps a_ptr ;; y <- loadc Input b_ptr ;;
  r <- load_result ;;
  store_result (cadd r (cmul x y)) ;;
  ret (a_ptr + 1, b_ptr + 1).

(** What the four NEON variants share after their main loop: the
  register pair is stored to [accum_result], summed into [*result],
  and the tail is added to [*result]. *)
Definition neon_finish (first num_points a_ptr b_ptr : Z)
  (accumulator : list F * list F) : M (St := mem) unit :=
  let accum_result := vst2q accumulator in
  store_result
    (cadd (cadd (cadd (accum_result 0%nat) (accum_result 1%nat))
                (accum_result 2%nat))
          (accum_result 3%nat)) ;;
  for_loop first num_points neon_tail_body (a_ptr, b_ptr) ;;
  ret tt.

Definition neon_body (number : Z) (l : Z * Z * (list F * list F))
  : M (St := mem) (Z * Z * (list F * list F)) :=
  let '(a_ptr, b_ptr, (accumulator_0, accumulator_1)) := l in
  '(a_val_0, a_val_1) <- vld2q_f32 Taps (2 * a_ptr) ;;
  '(b_val_0, b_val_1) <- vld2q_f32 Input (2 * b_ptr) ;;
  let tmp_real_0 := vmulq_f32 a_val_0 b_val_0 in
  let tmp_real_1 := vmulq_f32 a_val_1 b_val_1 in
  let tmp_imag_0 := vmulq_f32 a_val_0 b_val_1 in
  let tmp_imag_1 := vmulq_f32 a_val_1 b_val_0 in
  let c_val_0 := vsubq_f32 tmp_real_0 tmp_real_1 in
  let c_val_1 := vaddq_f32 tmp_imag_0 tmp_imag_1 in
  let accumulator_0 := vaddq_f32 accumulator_0 c_val_0 in
  let accumulator_1 := vaddq_f32 accumulator_1 c_val_1 in
  ret (a_ptr + 4, b_ptr + 4, (accumulator_0, accumulator_1)).

Definition volk_32fc_x2_dot_prod_32fc_neon (num_points : Z)
  : M (St := mem) unit :=
  let quarter_points := u32_div num_points 4 in
  '(a_ptr, b_ptr, accumulator) <-
    for_loop 0 quarter_points neon_body
      (0, 0, (vdupq_n_f32 fzero, vdupq_n_f32 fzero)) ;;
  neon_finish (u32_mul quarter_points 4) num_points a_ptr b_ptr
    accumulator.

Definition neon_opttests_body (number : Z)
  (l : Z * Z * (list F * list F))
  : M (St := mem) (Z * Z * (list F * list F)) :=
  let '(a_ptr, b_ptr, (accumulator_0, accumulator_1)) := l in
  '(a_val_0, a_val_1) <- vld2q_f32 Taps (2 * a_ptr) ;;
  '(b_val_0, b_val_1) <- vld2q_f32 Input (2 * b_ptr) ;;
  let tmp_imag_1 := vmulq_f32 a_val_1 b_val_0 in
  let tmp_imag_0 := vmulq_f32 a_val_0 b_val_0 in
  let tmp_imag_1 := vmlaq_f32 tmp_imag_1 a_val_0 b_val_1 in
  let tmp_imag_0 := vmlsq_f32 tmp_imag_0 a_val_1 b_val_1 in
  let accumulator_0 := vaddq_f32 accumulator_0 tmp_imag_0 in
  let accumulator_1 := vaddq_f32 accumulator_1 tmp_imag_1 in
  ret (a_ptr + 4, b_ptr + 4, (accumulator_0, accumulator_1)).

Definition volk_32fc_x2_dot_prod_32fc_neon_opttests (num_points : Z)
  : M (St := mem) unit :=
  let quarter_points := u32_div num_points 4 in
  '(a_ptr, b_ptr, accumulator) <-
    for_loop 0 quarter_points neon_opttests_body
      (0, 0, (vdupq_n_f32 fzero, vdupq_n_f32 fzero)) ;;
  neon_finish (u32_mul quarter_points 4) num_points a_ptr b_ptr
    accumulator.

Definition neon_optfma_body (number : Z)
  (l : Z * Z * (list F * list F) * (list F * list F))
  : M (St := mem) (Z * Z * (list F * list F) * (list F * list F)) :=
  let '(a_ptr, b_ptr, (accumulator1_0, accumulator1_1),
        (accumulator2_0, accumulator2_1)) := l in
  '(a_val_0, a_val_1) <- vld2q_f32 Taps (2 * a_ptr) ;;
  '(b_val_0, b_val_1) <- vld2q_f32 Input (2 * b_ptr) ;;
  let accumulator1_0 := vmlaq_f32 accumulator1_0 a_val_0 b_val_0 in
  let accumulator1_1 := vmlaq_f32 accumulator1_1 a_val_0 b_val_1 in
  let accumulator2_0 := vmlsq_f32 accumulator2_0 a_val_1 b_val_1 in
  let accumulator2_1 := vmlaq_f32 accumulator2_1 a_val_1 b_val_0 in
  ret (a_ptr + 4, b_ptr + 4, (accumulator1_0, accumulator1_1),
       (accumulator2_0, accumulator2_1)).

Definition volk_32fc_x2_dot_prod_32fc_neon_optfma (num_points : Z)
  : M (St := mem) unit :=
  let quarter_points := u32_div num_points 4 in
  let z := vdupq_n_f32 fzero in
  '(a_ptr, b_ptr, (accumulator1_0, accumulator1_1),
    (accumulator2_0, accumulator2_1)) <-
    for_loop 0 quarter_points neon_optfma_body
      (0, 0, (z, z), (z, z)) ;;
  let accumulator1_0 := vaddq_f32 accumulator1_0 accumulator2_0 in
  let accumulator1_1 := vaddq_f32 accumulator1_1 accumulator2_1 in
  neon_finish (u32_mul quarter_points 4) num_points a_ptr b_ptr
    (accumulator1_0, accumulator1_1).

Definition x4 : Type := (list F * list F * list F * list F)%type.

Definition neon_optfmaunroll_body (number : Z) (l : Z * Z * x4 * x4)
  : M (St := mem) (Z * Z * x4 * x4) :=
  let '(a_ptr, b_ptr,
        (accumulator1_0, accumulator1_1, accumulator1_2, accumulator1_3),
        (accumulator2_0, accumulator2_1, accumulator2_2, accumulator2_3))
    := l in
  '(a_val_0, a_val_1, a_val_2, a_val_3) <-
    vld4q_f32 Taps (2 * a_ptr) ;;
  '(b_val_0, b_val_1, b_val_2, b_val_3) <-
    vld4q_f32 Input (2 * b_ptr) ;;
  let accumulator1_0 := vmlaq_f32 accumulator1_0 a_val_0 b_val_0 in
  let accumulator1_1 := vmlaq_f32 accumulator1_1 a_val_0 b_val_1 in
  let accumulator1_2 := vmlaq_f32 accumulator1_2 a_val_2 b_val_2 in
  let accumulator1_3 := vmlaq_f32 accumulator1_3 a_val_2 b_val_3 in
  let accumulator2_0 := vmlsq_f32 accumulator2_0 a_val_1 b_val_1 in
  let accumulator2_1 := vmlaq_f32 accumulator2_1 a_val_1 b_val_0 in
  let accumulator2_2 := vmlsq_f32 accumulator2_2 a_val_3 b_val_3 in
  let accumulator2_3 := vmlaq_f32 accumulator2_3 a_val_3 b_val_2 in
  ret (a_ptr + 8, b_ptr + 8,
       (accumulator1_0, accumulator1_1, accumulator1_2, accumulator1_3),
       (accumulator2_0, accumulator2_1, accumulator2_2, accumulator2_3)).

Definition volk_32fc_x2_dot_prod_32fc_neon_optfmaunroll
  (num_points : Z) : M (St := mem) unit :=
  let quarter_points := u32_div num_points 8 in
  let z := vdupq_n_f32 fzero in
  '(a_ptr, b_ptr,
    (accumulator1_0, accumulator1_1, accumulator1_2, accumulator1_3),
    (accumulator2_0, accumulator2_1, accumulator2_2, accumulator2_3)) <-
    for_loop 0 quarter_points neon_optfmaunroll_body
      (0, 0, (z, z, z, z), (z, z, z, z)) ;;
  let accumulator1_0 := vaddq_f32 accumulator1_0 accumulator1_2 in
  let accumulator1_1 := vaddq_f32 accumulator1_1 accumulator1_3 in
  let accumulator2_0 := vaddq_f32 accumulator2_0 accumulator2_2 in
  let accumulator2_1 := vaddq_f32 accumulator2_1 accumulator2_3 in
  let reduced_accumulator_0 :=
    vaddq_f32 accumulator1_0 accumulator2_0 in
  let reduced_accumulator_1 :=
    vaddq_f32 accumulator1_1 accumulator2_1 in
  neon_finish (u32_mul quarter_points 8) num_points a_ptr b_ptr
    (reduced_accumulator_0, reduced_accumulator_1).

(** A call: [*result] holds [r0] on entry and nothing has been
  accessed yet. *)
Definition run (k : M (St := mem) unit) (r0 : lv_32fc_t) : option mem :=
  match k (Mem r0 []) with
  | Some (_, m) => Some m
  | None => None
  end.
End Kernels.

(** The eleven variants of the header. *)
Inductive variant : Type :=
  | generic | u_sse3 | u_avx | u_avx_fma | a_sse3
  | neon | neon_opttests | neon_optfma | neon_optfmaunroll
  | a_avx | a_avx_fma.

Definition kernel {F} {FO : FloatOps F} {PL : Placement} (v : variant)
  (input taps : list F) (num_points : Z) : M (St := mem) unit :=
  match v with
  | generic => volk_32fc_x2_dot_prod_32fc_generic input taps num_points
  | u_sse3 => volk_32fc_x2_dot_prod_32fc_u_sse3 input taps num_points
  | u_avx => volk_32fc_x2_dot_prod_32fc_u_avx input taps num_points
  | u_avx_fma => volk_32fc_x2_dot_prod_32fc_u_avx_fma input taps num_points
  | a_sse3 => volk_32fc_x2_dot_prod_32fc_a_sse3 input taps num_points
  | neon => volk_32fc_x2_dot_prod_32fc_neon input taps num_points
  | neon_opttests =>
      volk_32fc_x2_dot_prod_32fc_neon_opttests input taps num_points
  | neon_optfma =>
      volk_32fc_x2_dot_prod_32fc_neon_optfma input taps num_points
  | neon_optfmaunroll =>
      volk_32fc_x2_dot_prod_32fc_neon_optfmaunroll input taps num_points
  | a_avx => volk_32fc_x2_dot_prod_32fc_a_avx input taps num_points
  | a_avx_fma => volk_32fc_x2_dot_prod_32fc_a_avx_fma input taps num_points
  end.

Definition variants : list variant :=
  [generic; u_sse3; u_avx; u_avx_fma; a_sse3; neon; neon_opttests;
   neon_optfma; neon_optfmaunroll; a_avx; a_avx_fma].

(** Buffers at multiples of 32 bytes: the placement of a call for which
  none is written. *)
#[global] Instance aligned : Placement := {|
  input_addr := 0;
  taps_addr := 0
|}.

(** The placement of a call on [input + k] and [taps + k]: [k] complex
  samples further. *)
Definition advanced (PL : Placement) (k : Z) : Placement := {|
  input_addr := input_addr + 8 * k;
  taps_addr := taps_addr + 8 * k
|}.

(** What a variant requires of the placement of its call. *)
Definition aligned_for (v : variant) (PL : Placement) : Prop :=
  match v with
  | a_sse3 => input_addr mod 16 = 0 /\ taps_addr mod 16 = 0
  | a_avx | a_avx_fma => input_addr mod 32 = 0 /\ taps_addr mod 32 = 0
  | _ => True
  end.

End DotProd.

(* ===================================================================== *)
(** * Facts about buffers and the monad *)
(* ===================================================================== *)

Definition znth {A} (d : A) (l : list A) (i : Z) : A := nth (Z.to_nat i) l d.

(** [zseq lo k] is [lo; lo + 1; ...; lo + k - 1]. *)
Fixpoint zseq (lo : Z) (k : nat) : list Z :=
  match k with
  | O => []
  | S k' => lo :: zseq (lo + 1) k'
  end.

Section BufferFacts.
Context {A : Type}.
Implicit Types (l : list A) (i j : Z).

Lemma zth_Some l i v : zth l i = Some v -> 0 <= i < zlen l.
Proof.
  unfold zth, zlen. destruct (Z.ltb_spec i 0); [discriminate|].
  intros H1. assert (Hn : nth_error l (Z.to_nat i) <> None) by congruence.
  apply nth_error_Some in Hn. lia.
Qed.

Lemma zth_znth d l i : 0 <= i < zlen l -> zth l i = Some (znth d l i).
Proof.
  unfold zth, zlen, znth. intros H.
  destruct (Z.ltb_spec i 0); [lia|].
  apply nth_error_nth'. lia.
Qed.

Lemma zth_out l i : zlen l <= i -> zth l i = None.
Proof.
  unfold zth, zlen. intros H. destruct (Z.ltb_spec i 0); [reflexivity|].
  apply nth_error_None. lia.
Qed.

Lemma zth_neg l i : i < 0 -> zth l i = None.
Proof. unfold zth. intros H. destruct (Z.ltb_spec i 0); [reflexivity|lia]. Qed.

Lemma length_list_set l n v : length (list_set l n v) = length l.
Proof.
  revert n. induction l as [|h t IH]; intros [|n]; simpl; auto.
Qed.

Lemma nth_error_list_set_eq l n v :
  (n < length l)%nat -> nth_error (list_set l n v) n = Some v.
Proof.
  revert n. induction l as [|h t IH]; intros [|n]; simpl; try lia; auto.
  intros H. apply IH. lia.
Qed.

Lemma nth_error_list_set_neq l n n' v :
  n <> n' -> nth_error (list_set l n v) n' = nth_error l n'.
Proof.
  revert n n'.
  induction l as [|h t IH]; intros [|n] [|n'] H; simpl; auto;
    congruence.
Qed.

Lemma zlen_zupd l i v : zlen (zupd l i v) = zlen l.
Proof.
  unfold zlen, zupd. destruct (i <? 0); [reflexivity|].
  now rewrite length_list_set.
Qed.

Lemma zth_zupd_eq l i v : 0 <= i < zlen l -> zth (zupd l i v) i = Some v.
Proof.
  unfold zth, zupd, zlen. intros H. destruct (Z.ltb_spec i 0); [lia|].
  apply nth_error_list_set_eq. lia.
Qed.

Lemma zth_zupd_neq l i j v : i <> j -> zth (zupd l i v) j = zth l j.
Proof.
  unfold zth, zupd. intros H.
  destruct (Z.ltb_spec j 0); [reflexivity|].
  destruct (Z.ltb_spec i 0); [reflexivity|].
  apply nth_error_list_set_neq. lia.
Qed.

(** Two buffers with the same content at every offset are equal. *)
Lemma zth_ext l1 l2 : (forall i, zth l1 i = zth l2 i) -> l1 = l2.
Proof.
  intros H. apply nth_error_ext. intros n.
  specialize (H (Z.of_nat n)). unfold zth in H.
  destruct (Z.ltb_spec (Z.of_nat n) 0); [lia|].
  now rewrite Nat2Z.id in H.
Qed.

Lemma zseq_snoc lo k : zseq lo (S k) = zseq lo k ++ [lo + Z.of_nat k].
Proof.
  revert lo. induction k as [|k IH]; intros lo.
  - simpl. now rewrite Z.add_0_r.
  - change (zseq lo (S (S k))) with (lo :: zseq (lo + 1) (S k)).
    rewrite IH.
    replace (lo + 1 + Z.of_nat k) with (lo + Z.of_nat (S k)) by lia.
    reflexivity.
Qed.

Lemma zseq_app lo k1 k2 :
  zseq lo (k1 + k2) = zseq lo k1 ++ zseq (lo + Z.of_nat k1) k2.
Proof.
  revert lo. induction k1 as [|k1 IH]; intros lo.
  - simpl. now rewrite Z.add_0_r.
  - change (zseq lo (S k1 + k2)) with (lo :: zseq (lo + 1) (k1 + k2)).
    rewrite IH.
    replace (lo + 1 + Z.of_nat k1) with (lo + Z.of_nat (S k1)) by lia.
    reflexivity.
Qed.


Lemma in_zseq lo k x : In x (zseq lo k) <-> lo <= x < lo + Z.of_nat k.
Proof.
  revert lo. induction k as [|k IH]; intros lo; simpl.
  - lia.
  - rewrite IH. lia.
Qed.
End BufferFacts.

Section MonadFacts.
Context {St : Type}.

Lemma bind_bind {A B C} (c : M (St := St) A) (f : A -> M B)
  (g : B -> M C) s :
  bind (bind c f) g s = bind c (fun x => bind (f x) g) s.
Proof. unfold bind. destruct (c s) as [[a s']|]; reflexivity. Qed.

Lemma bind_ret {A B} (a : A) (f : A -> M (St := St) B) s :
  bind (ret a) f s = f a s.
Proof. reflexivity. Qed.

(** [wp c Q s]: from the state [s] the computation [c] runs to
  completion, and its value and final state satisfy [Q]. *)
Definition wp {A} (c : M (St := St) A) (Q : A -> St -> Prop) (s : St)
  : Prop :=
  match c s with
  | Some (a, s') => Q a s'
  | None => False
  end.

Lemma wp_ret {A} (a : A) (Q : A -> St -> Prop) s : Q a s -> wp (ret a) Q s.
Proof. intros H. exact H. Qed.

Lemma wp_bind {A B} (c : M A) (f : A -> M B) (Q : B -> St -> Prop) s :
  wp c (fun a s' => wp (f a) Q s') s -> wp (bind c f) Q s.
Proof.
  unfold wp, bind. destruct (c s) as [[a s']|]; intros H; exact H.
Qed.

Lemma wp_conseq {A} (c : M A) (Q Q' : A -> St -> Prop) s :
  wp c Q s -> (forall a s', Q a s' -> Q' a s') -> wp c Q' s.
Proof.
  unfold wp. destruct (c s) as [[a s']|]; intros H HQ; [auto|exact H].
Qed.

Lemma wp_run {A} (c : M A) (Q : A -> St -> Prop) s :
  wp c Q s -> exists a s', c s = Some (a, s') /\ Q a s'.
Proof.
  unfold wp. destruct (c s) as [[a s']|]; intros H; [eauto|contradiction].
Qed.

Lemma wp_of_run {A} (c : M A) (Q : A -> St -> Prop) s a s' :
  c s = Some (a, s') -> Q a s' -> wp c Q s.
Proof. unfold wp. intros ->. auto. Qed.

(** The loop rule: an invariant that holds on entry and that every
  iteration re-establishes (running to completion) holds on exit, and
  the loop runs to completion. *)
Lemma wp_for_range {L} (Inv : nat -> L -> St -> Prop) k i
  (body : Z -> L -> M L) l s :
  Inv O l s ->
  (forall j l s, (j < k)%nat -> Inv j l s ->
     wp (body (i + Z.of_nat j) l) (Inv (S j)) s) ->
  wp (for_range k i body l) (Inv k) s.
Proof.
  revert Inv i l s. induction k as [|k IH]; intros Inv i l s H0 Hstep.
  - exact H0.
  - cbn [for_range]. apply wp_bind.
    apply wp_conseq with (Q := Inv 1%nat).
    + specialize (Hstep O l s ltac:(lia) H0).
      now rewrite Z.add_0_r in Hstep.
    + intros l1 s1 H1.
      apply (IH (fun j => Inv (S j))); [assumption|].
      intros j l' s' Hj HI.
      replace (i + 1 + Z.of_nat j) with (i + Z.of_nat (S j)) by lia.
      apply Hstep; [lia|assumption].
Qed.

Lemma wp_for_loop {L} (Inv : nat -> L -> St -> Prop) lo hi
  (body : Z -> L -> M L) l s :
  Inv O l s ->
  (forall j l s, (j < Z.to_nat (hi - lo))%nat -> Inv j l s ->
     wp (body (lo + Z.of_nat j) l) (Inv (S j)) s) ->
  wp (for_loop lo hi body l) (Inv (Z.to_nat (hi - lo))) s.
Proof. apply wp_for_range. Qed.

(** Two bodies that agree on the local variables a loop goes through give
  the same loop. *)
Lemma for_range_agree {L} (I : L -> Prop) (f g : Z -> L -> M (St := St) L) :
  (forall i l s, I l -> f i l s = g i l s) ->
  (forall i l s l' s', I l -> g i l s = Some (l', s') -> I l') ->
  forall k i l s, I l -> for_range k i f l s = for_range k i g l s.
Proof.
  intros Hfg Hpres. induction k as [|k IH]; intros i l s HI;
    cbn [for_range]; [reflexivity|].
  unfold bind. rewrite Hfg by assumption.
  destruct (g i l s) as [[l' s']|] eqn:Hg; [|reflexivity].
  apply IH. eapply Hpres; eassumption.
Qed.

(** A loop whose bounds leave nothing to do. *)
Lemma for_loop_none {L} lo hi (body : Z -> L -> M (St := St) L) l s :
  hi <= lo -> for_loop lo hi body l s = Some (l, s).
Proof.
  intros H. unfold for_loop.
  replace (Z.to_nat (hi - lo)) with O by lia. reflexivity.
Qed.
End MonadFacts.

(* ===================================================================== *)
(** * Facts about binary32 rounding and conversion *)
(* ===================================================================== *)

Module B32Facts.
Import B32.

Lemma pos_iter_xO (m d : positive) :
  Zpos (Pos.iter xO m d) = Zpos m * 2 ^ Zpos d.
Proof.
  revert m. induction d using Pos.peano_ind; intros m.
  - simpl. lia.
  - rewrite Pos.iter_succ, Pos2Z.inj_succ, Z.pow_succ_r by lia.
    rewrite Pos2Z.inj_xO, IHd. lia.
Qed.

Lemma shl_align_exact mx ex ex' m e :
  shl_align mx ex ex' = (m, e) ->
  e <= ex /\ Zpos mx = Zpos m / 2 ^ (ex - e) /\ Zpos m mod 2 ^ (ex - e) = 0.
Proof.
  unfold shl_align. destruct (ex' - ex) as [|d|d] eqn:Hd; intros [= <- <-].
  - rewrite Z.sub_diag. simpl. rewrite Z.div_1_r, Z.mod_1_r. lia.
  - rewrite Z.sub_diag. simpl. rewrite Z.div_1_r, Z.mod_1_r. lia.
  - rewrite pos_iter_xO. replace (ex - ex') with (Zpos d) by lia.
    rewrite Z.div_mul, Z.mod_mul by lia. lia.
Qed.

Lemma trunc_of_int s z : 0 <= z -> trunc (of_int s z) = Some (cond_Zopp s z).
Proof.
  intros Hz. destruct z as [|p|p]; [destruct s; reflexivity| |lia].
  unfold of_int.
  destruct (shl_align p 0 (Zpos (digits2_pos p) - prec)) as [m e] eqn:Ha.
  apply shl_align_exact in Ha. destruct Ha as (He & Hm & Hr).
  unfold trunc. destruct (Z.leb_spec 0 e).
  - assert (e = 0) by lia. subst e.
    rewrite Z.sub_diag, Z.pow_0_r, Z.div_1_r in Hm.
    now rewrite Z.pow_0_r, Z.mul_1_r, Hm.
  - rewrite Z.sub_0_l in Hm. now rewrite Hm.
Qed.

(** [rintf] then truncation is rounding to the nearest integer. *)
Lemma trunc_rint x : trunc (rint x) = nearest x.
Proof.
  destruct x as [s|s| |s m e]; try reflexivity.
  unfold rint, nearest. destruct (Z.leb_spec 0 e) as [He|He].
  - unfold trunc. destruct (Z.leb_spec 0 e); [reflexivity|lia].
  - apply trunc_of_int. unfold rne_shift.
    assert (0 <= Zpos m / 2 ^ (- e)) by (apply Z.div_pos; lia).
    destruct (_ <? _); [lia|]. destruct (_ <? _); [lia|].
    destruct (Z.even _); lia.
Qed.

(** [z] is [m / 2^k] rounded to the nearest integer, ties to even. *)
Definition is_rne (m k z : Z) : Prop :=
  2 * Z.abs (z * 2 ^ k - m) <= 2 ^ k
  /\ (2 * Z.abs (z * 2 ^ k - m) = 2 ^ k -> Z.even z = true).

Lemma rne_shift_spec m k : 0 < k -> is_rne m k (rne_shift m k).
Proof.
  intros Hk. unfold is_rne, rne_shift.
  assert (Hp : 2 ^ k = 2 * 2 ^ (k - 1)).
  { rewrite <- Z.pow_succ_r by lia. f_equal. lia. }
  assert (Hh : 0 < 2 ^ (k - 1)) by (apply Z.pow_pos_nonneg; lia).
  pose proof (Z.div_mod m (2 ^ k) ltac:(lia)) as Hdm.
  pose proof (Z.mod_pos_bound m (2 ^ k) ltac:(lia)) as Hb.
  set (q := m / 2 ^ k) in *. set (r := m mod 2 ^ k) in *.
  set (h := 2 ^ (k - 1)) in *. rewrite Hp in *.
  destruct (Z.ltb_spec r h); [split; [nia|nia]|].
  destruct (Z.ltb_spec h r); [split; [nia|nia]|].
  assert (r = h) by lia. subst r.
  destruct (Z.even q) eqn:Hq; split; try nia; intros _.
  - exact Hq.
  - rewrite Z.even_add, Hq. reflexivity.
Qed.

Lemma cast_i16_rint x : cast_i16 (rint x) = wrap16 (cvt_i32 x).
Proof. unfold cast_i16, cvt_i32. now rewrite trunc_rint. Qed.

Lemma wrap16_id z : INT16_MIN <= z <= INT16_MAX -> wrap16 z = z.
Proof.
  unfold INT16_MIN, INT16_MAX, wrap16. intros H.
  rewrite Z.mod_small; lia.
Qed.

Lemma sat16_id z : INT16_MIN <= z <= INT16_MAX -> sat16 z = z.
Proof. unfold sat16. lia. Qed.

Lemma sat16_range z : INT16_MIN <= sat16 z <= INT16_MAX.
Proof. unfold sat16, INT16_MIN, INT16_MAX. lia. Qed.

Lemma wrap16_range z : INT16_MIN <= wrap16 z <= INT16_MAX.
Proof.
  unfold wrap16, INT16_MIN, INT16_MAX.
  pose proof (Z.mod_pos_bound (z + 2 ^ 15) (2 ^ 16) ltac:(lia)). lia.
Qed.

(** ** Commutativity of the binary32 product and sum, and [0 + x] *)

Lemma mul_comm x y : mul x y = mul y x.
Proof.
  unfold mul.
  destruct x as [sx|sx| |sx mx ex], y as [sy|sy| |sy my ey];
    cbn [SFmul]; rewrite ?(xorb_comm sy sx); try reflexivity.
  now rewrite (Pos.mul_comm my mx), (Z.add_comm ey ex).
Qed.

Lemma add_comm x y : add x y = add y x.
Proof.
  unfold add.
  destruct x as [sx|sx| |sx mx ex], y as [sy|sy| |sy my ey];
    cbn [SFadd]; try reflexivity;
    try (destruct sx, sy; reflexivity).
  now rewrite (Z.min_comm ey ex), Z.add_comm.
Qed.

(** Adding to [+0] changes nothing but the sign of a negative zero. *)
Definition pos_zero (x : float) : float :=
  match x with
  | S754_zero true => S754_zero false
  | _ => x
  end.

Lemma add_zero_l x : add (S754_zero false) x = pos_zero x.
Proof. destruct x as [[|]|[|]| |s m e]; reflexivity. Qed.
End B32Facts.

(* ===================================================================== *)
(** * The deinterleave kernels: what every variant stores and accesses *)
(* ===================================================================== *)

Ltac list_lia :=
  repeat match goal with
    | |- ?a ++ _ = ?a ++ _ => apply (f_equal (app a))
    | |- _ :: _ = _ :: _ => apply f_equal2; [lia|]
    | |- [] = [] => reflexivity
    end.

Module DeinterleaveFacts.
Import Deinterleave.

(** The float offsets read and the element offsets written, in order. *)
Definition rd_idx (t : list event) : list Z :=
  flat_map (fun e => match e with Rd i => [i] | Wr _ => [] end) t.
Definition wr_idx (t : list event) : list Z :=
  flat_map (fun e => match e with Wr j => [j] | Rd _ => [] end) t.

Lemma rd_idx_app t1 t2 : rd_idx (t1 ++ t2) = rd_idx t1 ++ rd_idx t2.
Proof. apply flat_map_app. Qed.
Lemma wr_idx_app t1 t2 : wr_idx (t1 ++ t2) = wr_idx t1 ++ wr_idx t2.
Proof. apply flat_map_app. Qed.

Lemma rd_idx_rd t p : rd_idx (t ++ [Rd p]) = rd_idx t ++ [p].
Proof. now rewrite rd_idx_app. Qed.
Lemma rd_idx_wr t p : rd_idx (t ++ [Wr p]) = rd_idx t.
Proof. rewrite rd_idx_app. apply app_nil_r. Qed.
Lemma wr_idx_rd t p : wr_idx (t ++ [Rd p]) = wr_idx t.
Proof. rewrite wr_idx_app. apply app_nil_r. Qed.
Lemma wr_idx_wr t p : wr_idx (t ++ [Wr p]) = wr_idx t ++ [p].
Proof. now rewrite wr_idx_app. Qed.

Ltac trace_norm :=
  repeat first [ rewrite rd_idx_rd | rewrite rd_idx_wr
               | rewrite wr_idx_rd | rewrite wr_idx_wr ];
  rewrite <- ?app_assoc; cbn [app].

Section Facts.
Context {F : Type} {FO : FloatOps F}.
Variable cv : list F.
Variable scalar : F.
Variable ibuf0 : list Z.

(** What the scalar statement stores for sample [i], and what the AVX2
  block stores for it. *)
Definition quant_scalar (i : Z) : Z :=
  f2i16 (frint (fmul (znth fzero cv (2 * i)) scalar)).
Definition quant_packed (i : Z) : Z :=
  sat16 (f2i32 (fmul (znth fzero cv (2 * i)) scalar)).

(** The state of a call once the first [j] samples are done: [q] gives
  the element stored for each of them, [rds] the floats read. *)
Record dstate (q : Z -> Z) (j : Z) (rds : list Z) (m : mem) : Prop := {
    ds_len : zlen (ibuf m) = zlen ibuf0;
    ds_done : forall i, 0 <= i < j -> zth (ibuf m) i = Some (q i);
    ds_rest : forall i, j <= i -> zth (ibuf m) i = zth ibuf0 i;
    ds_wr : wr_idx (trace m) = zseq 0 (Z.to_nat j);
    ds_rd : rd_idx (trace m) = rds
  }.

Lemma wp_loadf p (Q : F -> mem -> Prop) b t :
  0 <= p < zlen cv ->
  Q (znth fzero cv p) (Mem b (t ++ [Rd p])) ->
  wp (loadf cv p) Q (Mem b t).
Proof.
  intros H HQ. unfold wp, loadf.
  now rewrite (zth_znth fzero) by assumption.
Qed.

Lemma wp_store16 p v (Q : unit -> mem -> Prop) b t :
  0 <= p < zlen b ->
  Q tt (Mem (zupd b p v) (t ++ [Wr p])) ->
  wp (store16 p v) Q (Mem b t).
Proof.
  intros H HQ. unfold wp, store16. cbn [ibuf trace].
  destruct (Z.leb_spec 0 p); [|lia].
  destruct (Z.ltb_spec p (zlen b)); [|lia]. exact HQ.
Qed.

(** At [aligned] an aligned access at an offset that is a multiple of its
  width is the unaligned access. *)
Lemma wp_mm_load_ps p (Q : list F -> mem -> Prop) m :
  p mod 4 = 0 -> wp (_mm_loadu_ps cv p) Q m -> wp (_mm_load_ps cv p) Q m.
Proof.
  intros Hp. unfold _mm_load_ps. cbn [complexVector_addr aligned].
  destruct (Z.eqb_spec ((0 + 4 * p) mod 16) 0) as [_|Hne]; [trivial|].
  exfalso. apply Hne. Z.to_euclidean_division_equations; lia.
Qed.

Lemma wp_mm256_load_ps p (Q : list F -> mem -> Prop) m :
  p mod 8 = 0 ->
  wp (_mm256_loadu_ps cv p) Q m -> wp (_mm256_load_ps cv p) Q m.
Proof.
  intros Hp. unfold _mm256_load_ps. cbn [complexVector_addr aligned].
  destruct (Z.eqb_spec ((0 + 4 * p) mod 32) 0) as [_|Hne]; [trivial|].
  exfalso. apply Hne. Z.to_euclidean_division_equations; lia.
Qed.

Lemma wp_mm_store_si128 p b (Q : unit -> mem -> Prop) m :
  p mod 8 = 0 ->
  wp (_mm_storeu_si128 p b) Q m -> wp (_mm_store_si128 p b) Q m.
Proof.
  intros Hp. unfold _mm_store_si128. cbn [iBuffer_addr aligned].
  destruct (Z.eqb_spec ((0 + 2 * p) mod 16) 0) as [_|Hne]; [trivial|].
  exfalso. apply Hne. Z.to_euclidean_division_equations; lia.
Qed.

Ltac align := Z.to_euclidean_division_equations; lia.

Ltac wp_step :=
  lazymatch goal with
  | |- wp (bind _ _) _ _ => apply wp_bind
  | |- wp (ret _) _ _ => apply wp_ret
  | |- wp (loadf _ _) _ _ => apply wp_loadf; [lia|]
  | |- wp (store16 _ _) _ _ =>
      apply wp_store16; [rewrite ?zlen_zupd; lia|]
  | |- wp (_mm_load_ps _ _) _ _ => apply wp_mm_load_ps; [align|]
  | |- wp (_mm256_load_ps _ _) _ _ => apply wp_mm256_load_ps; [align|]
  | |- wp (_mm_store_si128 _ _) _ _ => apply wp_mm_store_si128; [align|]
  | |- wp (_mm_loadu_ps _ _) _ _ => unfold _mm_loadu_ps
  | |- wp (_mm256_loadu_ps _ _) _ _ => unfold _mm256_loadu_ps
  | |- wp (_mm_storeu_si128 _ _) _ _ => unfold _mm_storeu_si128
  | |- wp (store16s _ _) _ _ => cbn [store16s]
  end; cbv beta iota zeta.

Ltac zth_solve Hdone Hrest :=
  repeat (rewrite zth_zupd_neq by lia);
  first [ apply Hdone; lia
        | apply Hrest; lia
        | rewrite zth_zupd_eq by (rewrite ?zlen_zupd; lia) ].

Lemma dstate_init q : dstate q 0 [] (Mem ibuf0 []).
Proof. split; simpl; auto. intros; lia. Qed.

Lemma quant_scalar_at i p :
  p = 2 * i ->
  f2i16 (frint (fmul (znth fzero cv p) scalar)) = quant_scalar i.
Proof. intros ->. reflexivity. Qed.

Lemma quant_packed_at i p :
  p = 2 * i ->
  sat16 (f2i32 (fmul (znth fzero cv p) scalar)) = quant_packed i.
Proof. intros ->. reflexivity. Qed.

Lemma scalar_body_step q j rds m number :
  0 <= j < zlen ibuf0 -> 2 * j < zlen cv ->
  q j = quant_scalar j ->
  dstate q j rds m ->
  wp (scalar_body cv scalar number (2 * j, j))
    (fun l m' => l = (2 * (j + 1), j + 1)
                 /\ dstate q (j + 1) (rds ++ [2 * j]) m') m.
Proof.
  intros Hj Hcv Hq [Hlen Hdone Hrest Hwr Hrd]. destruct m as [b t].
  cbn [ibuf trace] in *.
  unfold scalar_body. repeat wp_step. split.
  - f_equal; lia.
  - split; cbn [ibuf trace].
    + now rewrite zlen_zupd.
    + intros i Hi. assert (Hc : i < j \/ i = j) by lia.
      destruct Hc as [Hc| ->]; zth_solve Hdone Hrest.
      now rewrite Hq.
    + intros i Hi. zth_solve Hdone Hrest.
    + trace_norm. rewrite Hwr.
      replace (Z.to_nat (j + 1)) with (Z.to_nat j + 1)%nat by lia.
      rewrite zseq_app. cbn [zseq app]. list_lia.
    + trace_norm. now rewrite Hrd.
Qed.

(** The lanes of the SSE block: the shuffle keeps the real parts. *)
Lemma sse_lanes (x0 x1 x2 x3 x4 x5 x6 x7 : F) :
  _mm_mul_ps
    (_mm_shuffle_ps [x0; x1; x2; x3] [x4; x5; x6; x7]
       (_MM_SHUFFLE 2 0 2 0))
    (_mm_set_ps1 scalar)
  = [fmul x0 scalar; fmul x2 scalar; fmul x4 scalar; fmul x6 scalar].
Proof. reflexivity. Qed.

(** The lanes of the AVX2 block: shuffle, scale, convert, pack with
  saturation, and the permutation that undoes the interleaving of the
  two 128-bit halves. *)
Lemma avx2_lanes (x0 x1 x2 x3 x4 x5 x6 x7 : F)
  (y0 y1 y2 y3 y4 y5 y6 y7 : F) :
  _mm256_extracti128_si256
    (_mm256_permutevar8x32_epi32
       (_mm256_packs_epi32
          (_mm256_cvtps_epi32
             (_mm256_mul_ps
                (_mm256_shuffle_ps
                   ([x0; x1; x2; x3] ++ [x4; x5; x6; x7])
                   ([y0; y1; y2; y3] ++ [y4; y5; y6; y7])
                   (_MM_SHUFFLE 2 0 2 0))
                (_mm256_set1_ps scalar)))
          (_mm256_cvtps_epi32
             (_mm256_mul_ps
                (_mm256_shuffle_ps
                   ([x0; x1; x2; x3] ++ [x4; x5; x6; x7])
                   ([y0; y1; y2; y3] ++ [y4; y5; y6; y7])
                   (_MM_SHUFFLE 2 0 2 0))
                (_mm256_set1_ps scalar))))
       (_mm256_set_epi32 3 3 3 3 5 1 4 0)) 0
  = map (fun x => sat16 (f2i32 (fmul x scalar)))
      [x0; x2; x4; x6; y0; y2; y4; y6].
Proof. reflexivity. Qed.

Lemma sse_body_step q j rds m number :
  j mod 4 = 0 ->
  0 <= j -> j + 4 <= zlen ibuf0 -> 2 * (j + 4) <= zlen cv ->
  (forall i, j <= i < j + 4 -> q i = quant_scalar i) ->
  dstate q j rds m ->
  wp (sse_body cv (_mm_set_ps1 scalar) number (2 * j, j))
    (fun l m' => l = (2 * (j + 4), j + 4)
                 /\ dstate q (j + 4) (rds ++ zseq (2 * j) 8) m') m.
Proof.
  intros Hal Hj Hout Hin Hq [Hlen Hdone Hrest Hwr Hrd]. destruct m as [b t].
  cbn [ibuf trace] in *.
  unfold sse_body. repeat wp_step.
  rewrite sse_lanes. cbn [lane nth]. repeat wp_step.
  split.
  - f_equal; lia.
  - split; cbn [ibuf trace].
    + now rewrite !zlen_zupd.
    + intros i Hi.
      assert (Hc : i < j \/ i = j \/ i = j + 1 \/ i = j + 2 \/ i = j + 3)
        by lia.
      destruct Hc as [Hc|[->|[->|[->| ->]]]]; zth_solve Hdone Hrest;
        rewrite Hq by lia; f_equal; apply quant_scalar_at; lia.
    + intros i Hi. zth_solve Hdone Hrest.
    + trace_norm. rewrite Hwr.
      replace (Z.to_nat (j + 4)) with (Z.to_nat j + 4)%nat by lia.
      rewrite zseq_app. cbn [zseq app]. list_lia.
    + trace_norm. rewrite Hrd. cbn [zseq app]. list_lia.
Qed.

Lemma avx2_body_step q j rds m number :
  j mod 8 = 0 ->
  0 <= j -> j + 8 <= zlen ibuf0 -> 2 * (j + 8) <= zlen cv ->
  (forall i, j <= i < j + 8 -> q i = quant_packed i) ->
  dstate q j rds m ->
  wp (avx2_body (_mm256_load_ps cv) _mm_store_si128
        (_mm256_set1_ps scalar) (_mm256_set_epi32 3 3 3 3 5 1 4 0)
        number (2 * j, j))
    (fun l m' => l = (2 * (j + 8), j + 8)
                 /\ dstate q (j + 8) (rds ++ zseq (2 * j) 16) m') m.
Proof.
  intros Hal Hj Hout Hin Hq [Hlen Hdone Hrest Hwr Hrd].
  destruct m as [b t]. cbn [ibuf trace] in *.
  unfold avx2_body. repeat wp_step.
  rewrite avx2_lanes. cbn [map]. repeat wp_step.
  split.
  - f_equal; lia.
  - split; cbn [ibuf trace].
    + now rewrite !zlen_zupd.
    + intros i Hi.
      assert (Hc : i < j \/ i = j \/ i = j + 1 \/ i = j + 1 + 1
                   \/ i = j + 1 + 1 + 1 \/ i = j + 1 + 1 + 1 + 1
                   \/ i = j + 1 + 1 + 1 + 1 + 1
                   \/ i = j + 1 + 1 + 1 + 1 + 1 + 1
                   \/ i = j + 1 + 1 + 1 + 1 + 1 + 1 + 1)
        by lia.
      (destruct Hc as [Hc|[->|[->|[->|[->|[->|[->|[->| ->]]]]]]]];
        zth_solve Hdone Hrest;
        rewrite Hq by lia; f_equal; apply quant_packed_at; lia).
    + intros i Hi. zth_solve Hdone Hrest.
    + trace_norm. rewrite Hwr.
      replace (Z.to_nat (j + 8)) with (Z.to_nat j + 8)%nat by lia.
      rewrite zseq_app. cbn [zseq app]. list_lia.
    + trace_norm. rewrite Hrd. cbn [zseq app]. list_lia.
Qed.

(** At [aligned] the block of the aligned AVX2 variant is the block of the
  unaligned one. *)
Lemma avx2_body_aligned vScalar idx number j m :
  j mod 8 = 0 ->
  avx2_body (_mm256_load_ps cv) _mm_store_si128 vScalar idx number
    (2 * j, j) m
  = avx2_body (_mm256_loadu_ps cv) _mm_storeu_si128 vScalar idx number
      (2 * j, j) m.
Proof.
  intros Hal. unfold avx2_body, _mm256_load_ps, _mm_store_si128.
  cbn [complexVector_addr iBuffer_addr aligned].
  replace ((0 + 4 * (2 * j)) mod 32 =? 0) with true
    by (symmetry; apply Z.eqb_eq; align).
  replace ((0 + 4 * (2 * j + 8)) mod 32 =? 0) with true
    by (symmetry; apply Z.eqb_eq; align).
  replace ((0 + 2 * j) mod 16 =? 0) with true
    by (symmetry; apply Z.eqb_eq; align).
  reflexivity.
Qed.

Lemma scalar_loop q j0 k rds m lo :
  0 <= j0 -> j0 + Z.of_nat k <= zlen ibuf0 ->
  2 * (j0 + Z.of_nat k) <= zlen cv ->
  (forall i, j0 <= i < j0 + Z.of_nat k -> q i = quant_scalar i) ->
  dstate q j0 rds m ->
  wp (for_range k lo (scalar_body cv scalar) (2 * j0, j0))
    (fun _ m' => dstate q (j0 + Z.of_nat k)
                   (rds ++ map (Z.mul 2) (zseq j0 k)) m') m.
Proof.
  intros Hj0 Hout Hin Hq Hst.
  eapply wp_conseq.
  - apply (wp_for_range
      (fun t (l : Z * Z) m' =>
         l = (2 * (j0 + Z.of_nat t), j0 + Z.of_nat t)
         /\ dstate q (j0 + Z.of_nat t)
              (rds ++ map (Z.mul 2) (zseq j0 t)) m')).
    + split.
      * now rewrite Z.add_0_r.
      * cbn [zseq map]. now rewrite Z.add_0_r, app_nil_r.
    + intros t l1 m1 Ht [-> Hd].
      eapply wp_conseq.
      * eapply scalar_body_step; [| | | exact Hd];
          [lia | lia | apply Hq; lia].
      * cbv beta. intros l2 m2 [-> Hd2].
        replace (j0 + Z.of_nat (S t)) with (j0 + Z.of_nat t + 1) by lia.
        split; [reflexivity|].
        rewrite zseq_snoc, map_app, app_assoc. exact Hd2.
  - cbv beta. intros l' m' [_ Hd]. exact Hd.
Qed.

(** A main loop over blocks of [B] samples, each block reading its [2B]
  floats in order and storing what [q] says. *)
Lemma block_loop (B : Z) (body : Z -> Z * Z -> M (Z * Z)) q k :
  0 < B ->
  (forall j rds m number,
     j mod B = 0 ->
     0 <= j -> j + B <= B * Z.of_nat k -> dstate q j rds m ->
     wp (body number (2 * j, j))
       (fun l m' => l = (2 * (j + B), j + B)
                    /\ dstate q (j + B)
                         (rds ++ zseq (2 * j) (Z.to_nat (2 * B))) m')
       m) ->
  wp (for_range k 0 body (0, 0))
    (fun l m' => l = (2 * (B * Z.of_nat k), B * Z.of_nat k)
                 /\ dstate q (B * Z.of_nat k)
                      (zseq 0 (Z.to_nat (2 * (B * Z.of_nat k)))) m')
    (Mem ibuf0 []).
Proof.
  intros HB Hstep.
  apply (wp_for_range
    (fun t (l : Z * Z) m' =>
       l = (2 * (B * Z.of_nat t), B * Z.of_nat t)
       /\ dstate q (B * Z.of_nat t)
            (zseq 0 (Z.to_nat (2 * (B * Z.of_nat t)))) m')).
  - split.
    + f_equal; lia.
    + replace (B * Z.of_nat 0) with 0 by lia. apply dstate_init.
  - intros t l1 m1 Ht [-> Hd].
    eapply wp_conseq.
    + eapply Hstep; [| | | exact Hd]; [|nia|nia].
      rewrite Z.mul_comm. apply Z.mod_mul. lia.
    + cbv beta. intros l2 m2 [-> Hd2].
      replace (B * Z.of_nat (S t)) with (B * Z.of_nat t + B) by lia.
      split; [reflexivity|].
      replace (Z.to_nat (2 * (B * Z.of_nat t + B)))
        with (Z.to_nat (2 * (B * Z.of_nat t)) + Z.to_nat (2 * B))%nat
        by nia.
      rewrite zseq_app.
      replace (0 + Z.of_nat (Z.to_nat (2 * (B * Z.of_nat t))))
        with (2 * (B * Z.of_nat t)) by nia.
      exact Hd2.
Qed.

Lemma run_wp (k : M unit) (P : mem -> Prop) :
  wp k (fun _ m => P m) (Mem ibuf0 []) ->
  exists m, run k ibuf0 = Some m /\ P m.
Proof.
  intros H. apply wp_run in H. destruct H as (a & m & Hk & HP).
  exists m. unfold run. now rewrite Hk.
Qed.

(** The floats a variant with blocks of [B] samples reads: all of the
  full blocks, then the real parts of the remaining samples. *)
Definition reads_blocked (B n : Z) : list Z :=
  zseq 0 (Z.to_nat (2 * (B * (n / B))))
    ++ map (Z.mul 2) (zseq (B * (n / B)) (Z.to_nat (n mod B))).

(** What the AVX2 variants store for sample [i]. *)
Definition quant_avx2 (n i : Z) : Z :=
  if i <? 8 * (n / 8) then quant_packed i else quant_scalar i.

Theorem generic_spec n :
  0 <= n -> n <= zlen ibuf0 -> 2 * n <= zlen cv ->
  exists m,
    run (volk_32fc_s32f_deinterleave_real_16i_generic cv scalar n) ibuf0
    = Some m
    /\ dstate quant_scalar n (map (Z.mul 2) (zseq 0 (Z.to_nat n))) m.
Proof.
  intros Hn Hout Hin. apply run_wp.
  unfold volk_32fc_s32f_deinterleave_real_16i_generic, for_loop.
  apply wp_bind. rewrite Z.sub_0_r.
  eapply wp_conseq.
  - eapply (scalar_loop quant_scalar 0 (Z.to_nat n));
      [| | | | apply dstate_init]; [lia | lia | lia | reflexivity].
  - cbv beta. intros _ m Hd. apply wp_ret.
    replace (0 + Z.of_nat (Z.to_nat n)) with n in Hd by lia. exact Hd.
Qed.

(** A blocked variant: the main loop over [n / B] blocks, then the
  scalar loop from [B * (n / B)] to [n]. *)
Lemma blocked_spec (B : Z) (body : Z -> Z * Z -> M (Z * Z)) q n :
  0 < B -> 0 <= n < 2 ^ 32 -> n <= zlen ibuf0 -> 2 * n <= zlen cv ->
  (forall j rds m number,
     j mod B = 0 ->
     0 <= j -> j + B <= B * (n / B) -> dstate q j rds m ->
     wp (body number (2 * j, j))
       (fun l m' => l = (2 * (j + B), j + B)
                    /\ dstate q (j + B)
                         (rds ++ zseq (2 * j) (Z.to_nat (2 * B))) m')
       m) ->
  (forall i, B * (n / B) <= i < n -> q i = quant_scalar i) ->
  exists m,
    run ('(complexVectorPtr, _) <-
           for_loop 0 (u32_div n B) body (0, 0) ;;
         for_loop (u32_mul (u32_div n B) B) n (scalar_body cv scalar)
           (complexVectorPtr, u32_mul (u32_div n B) B) ;;
         ret tt) ibuf0
    = Some m
    /\ dstate q n (reads_blocked B n) m.
Proof.
  intros HB Hn Hout Hin Hstep Hq. apply run_wp.
  assert (Hdiv : 0 <= n / B) by (apply Z.div_pos; lia).
  assert (Hmul : B * (n / B) <= n) by (apply Z.mul_div_le; lia).
  assert (Hmod : n = B * (n / B) + n mod B) by (apply Z.div_mod; lia).
  assert (Hu : u32_mul (u32_div n B) B = B * (n / B)).
  { unfold u32_mul, u32_div, u32. rewrite Z.mod_small; lia. }
  rewrite Hu. unfold u32_div, for_loop. rewrite Z.sub_0_r.
  apply wp_bind. eapply wp_conseq.
  - apply (block_loop B body q (Z.to_nat (n / B)) HB).
    intros j rds m number Hal Hj Hjk Hd.
    apply Hstep; [exact Hal | lia | lia | exact Hd].
  - cbv beta. rewrite Z2Nat.id by lia. intros l m [-> Hd].
    cbv beta iota. apply wp_bind. eapply wp_conseq.
    + eapply (scalar_loop q (B * (n / B)) (Z.to_nat (n - B * (n / B))));
        [| | | | exact Hd]; [lia | lia | lia |].
      intros i Hi. apply Hq. lia.
    + cbv beta. intros _ m' Hd'. apply wp_ret.
      replace (B * (n / B) + Z.of_nat (Z.to_nat (n - B * (n / B))))
        with n in Hd' by lia.
      replace (n - B * (n / B)) with (n mod B) in Hd' by lia.
      exact Hd'.
Qed.

Theorem a_sse_spec n :
  0 <= n < 2 ^ 32 -> n <= zlen ibuf0 -> 2 * n <= zlen cv ->
  exists m,
    run (volk_32fc_s32f_deinterleave_real_16i_a_sse cv scalar n) ibuf0
    = Some m
    /\ dstate quant_scalar n (reads_blocked 4 n) m.
Proof.
  intros Hn Hout Hin.
  apply (blocked_spec 4 (sse_body cv (_mm_set_ps1 scalar)) quant_scalar n);
    try assumption; try lia; try reflexivity.
  intros j rds m number Hal Hj Hjk Hd.
  assert (4 * (n / 4) <= n) by (apply Z.mul_div_le; lia).
  apply sse_body_step; [exact Hal | lia | lia | lia | reflexivity | exact Hd].
Qed.

Lemma quant_avx2_main n i :
  i < 8 * (n / 8) -> quant_avx2 n i = quant_packed i.
Proof.
  intros H. unfold quant_avx2.
  destruct (Z.ltb_spec i (8 * (n / 8))); [reflexivity|lia].
Qed.

Lemma quant_avx2_tail n i :
  8 * (n / 8) <= i -> quant_avx2 n i = quant_scalar i.
Proof.
  intros H. unfold quant_avx2.
  destruct (Z.ltb_spec i (8 * (n / 8))); [lia|reflexivity].
Qed.

Theorem a_avx2_spec n :
  0 <= n < 2 ^ 32 -> n <= zlen ibuf0 -> 2 * n <= zlen cv ->
  exists m,
    run (volk_32fc_s32f_deinterleave_real_16i_a_avx2 cv scalar n) ibuf0
    = Some m
    /\ dstate (quant_avx2 n) n (reads_blocked 8 n) m.
Proof.
  intros Hn Hout Hin.
  apply (blocked_spec 8
           (avx2_body (_mm256_load_ps cv) _mm_store_si128
              (_mm256_set1_ps scalar) (_mm256_set_epi32 3 3 3 3 5 1 4 0))
           (quant_avx2 n) n);
    try assumption; try lia.
  - intros j rds m number Hal Hj Hjk Hd.
    assert (8 * (n / 8) <= n) by (apply Z.mul_div_le; lia).
    apply avx2_body_step; [exact Hal | lia | lia | lia | | exact Hd].
    intros i Hi. apply quant_avx2_main. lia.
  - intros i Hi. apply quant_avx2_tail. lia.
Qed.

Theorem u_avx2_spec n :
  0 <= n < 2 ^ 32 -> n <= zlen ibuf0 -> 2 * n <= zlen cv ->
  exists m,
    run (volk_32fc_s32f_deinterleave_real_16i_u_avx2 cv scalar n) ibuf0
    = Some m
    /\ dstate (quant_avx2 n) n (reads_blocked 8 n) m.
Proof.
  intros Hn Hout Hin.
  apply (blocked_spec 8
           (avx2_body (_mm256_loadu_ps cv) _mm_storeu_si128
              (_mm256_set1_ps scalar) (_mm256_set_epi32 3 3 3 3 5 1 4 0))
           (quant_avx2 n) n);
    try assumption; try lia.
  - intros j rds m number Hal Hj Hjk Hd.
    assert (8 * (n / 8) <= n) by (apply Z.mul_div_le; lia).
    unfold wp. rewrite <- avx2_body_aligned by exact Hal.
    apply avx2_body_step; [exact Hal | lia | lia | lia | | exact Hd].
    intros i Hi. apply quant_avx2_main. lia.
  - intros i Hi. apply quant_avx2_tail. lia.
Qed.
End Facts.
End DeinterleaveFacts.

(* ===================================================================== *)
(** * The deinterleave kernels: the claims *)
(* ===================================================================== *)

Module DeinterleaveClaims.
Import Deinterleave DeinterleaveFacts B32Facts.

Section AnyFloat.
Context {F : Type} {FO : FloatOps F}.
Variable cv : list F.
Variable scalar : F.
Variable ibuf0 : list Z.

(** What a variant stores for sample [i], and the floats it reads. *)
Definition quant (v : variant) (n : Z) : Z -> Z :=
  match v with
  | generic | a_sse => quant_scalar cv scalar
  | a_avx2 | u_avx2 => quant_avx2 cv scalar n
  end.

Definition reads (v : variant) (n : Z) : list Z :=
  match v with
  | generic => map (Z.mul 2) (zseq 0 (Z.to_nat n))
  | a_sse => reads_blocked 4 n
  | a_avx2 | u_avx2 => reads_blocked 8 n
  end.


Lemma variant_spec v n :
  0 <= n < 2 ^ 32 -> n <= zlen ibuf0 -> 2 * n <= zlen cv ->
  exists m,
    run (kernel v cv scalar n) ibuf0 = Some m
    /\ dstate ibuf0 (quant v n) n (reads v n) m.
Proof.
  intros Hn Hout Hin. destruct v; cbn [kernel quant reads].
  - apply generic_spec; lia.
  - apply a_sse_spec; assumption.
  - apply a_avx2_spec; assumption.
  - apply u_avx2_spec; assumption.
Qed.




End AnyFloat.

(** The output of a call depends on the input through its real parts
    only. *)
Lemma quant_real_only {F} {FO : FloatOps F} (cv1 cv2 : list F) scalar v n i :
  0 <= i < n -> 2 * n <= zlen cv1 -> 2 * n <= zlen cv2 ->
  zth cv1 (2 * i) = zth cv2 (2 * i) ->
  quant cv1 scalar v n i = quant cv2 scalar v n i.
Proof.
  intros Hi H1 H2 He.
  assert (He' : znth fzero cv1 (2 * i) = znth fzero cv2 (2 * i)).
  { rewrite (zth_znth fzero cv1), (zth_znth fzero cv2) in He by lia.
    congruence. }
  destruct v; cbn [quant]; unfold quant_avx2, quant_scalar, quant_packed;
    now rewrite He'.
Qed.


(** ** Concrete inputs *)

(** The complex sample with the integers [re] and [im] as its parts. *)
Definition sample (re im : Z) : list B32.float := [B32.of_Z re; B32.of_Z im].
Definition samples (l : list (Z * Z)) : list B32.float :=
  flat_map (fun c => sample (fst c) (snd c)) l.

Definition one : B32.float := B32.of_Z 1.
Definition half : B32.float := binary_normalize B32.prec B32.emax 1 (-1) false.

(** Eight samples whose real part, 40000, is beyond [INT16_MAX], and three
    more. *)
Definition loud : list B32.float :=
  samples [(40000, 1); (40000, 2); (40000, 3); (40000, 4);
           (40000, 5); (40000, 6); (40000, 7); (40000, 8);
           (3, 9); (-5, 10); (7, 11)].
Definition loud' : list B32.float :=
  samples [(40000, 0); (40000, 0); (40000, 0); (40000, 0);
           (40000, 0); (40000, 0); (40000, 0); (40000, 0);
           (3, 0); (-5, 0); (7, 0)].
Definition blank : list Z := [0; 0; 0; 0; 0; 0; 0; 0; 0; 0; 0; 0].

(** C1 (what the code does at the failing input): on eight samples with
    real part 40000 and scale 1 the generic variant stores the low 16 bits,
    -25536, the AVX2 variants store the saturated 32767; a ninth sample is
    handled by the scalar tail of every variant and stored alike. *)
Lemma deinterleave_avx2_saturates_generic_wraps :
  option_map ibuf (run (kernel generic loud one 9) blank)
  = Some [-25536; -25536; -25536; -25536; -25536; -25536; -25536; -25536;
          3; 0; 0; 0]
  /\ option_map ibuf (run (kernel a_sse loud one 9) blank)
     = Some [-25536; -25536; -25536; -25536; -25536; -25536; -25536; -25536;
             3; 0; 0; 0]
  /\ option_map ibuf (run (kernel a_avx2 loud one 9) blank)
     = Some [32767; 32767; 32767; 32767; 32767; 32767; 32767; 32767;
             3; 0; 0; 0]
  /\ option_map ibuf (run (kernel u_avx2 loud one 9) blank)
     = Some [32767; 32767; 32767; 32767; 32767; 32767; 32767; 32767;
             3; 0; 0; 0].
Proof. vm_compute. repeat split. Qed.

(** Where the scaled and rounded value fits 16 bits, the packed store of
    the AVX2 variants and the scalar store agree. *)
Lemma quant_packed_in_range (cv : list B32.float) scalar i :
  INT16_MIN <= B32.cvt_i32 (B32.mul (znth fzero cv (2 * i)) scalar)
            <= INT16_MAX ->
  quant_packed cv scalar i = quant_scalar cv scalar i.
Proof.
  intros H. unfold quant_packed, quant_scalar. cbn [f2i16 f2i32 frint fmul b32_ops].
  rewrite cast_i16_rint, wrap16_id, sat16_id by assumption. reflexivity.
Qed.

(** C6: for every [i < num_points] the generic variant stores in
    [iBuffer[i]] the real part of [complexVector[i]] times [scalar]
    (a binary32 product), rounded by [rintf] and converted to [int16_t];
    that value is the low 16 bits of the integer nearest to the product,
    and for a product [mnt * 2^e] with a fraction ([e < 0]) that integer [z]
    is within one half of it and even when exactly one half away. *)
Theorem generic_stores_rounded_scaled_real
  (complexVector : list B32.float) (scalar : B32.float) (num_points : Z)
  (iBuffer0 : list Z) :
  0 <= num_points -> num_points <= zlen iBuffer0 ->
  2 * num_points <= zlen complexVector ->
  exists m,
    run (volk_32fc_s32f_deinterleave_real_16i_generic complexVector scalar
           num_points) iBuffer0 = Some m
    /\ forall i, 0 <= i < num_points ->
       exists re,
         zth complexVector (2 * i) = Some re
         /\ zth (ibuf m) i = Some (f2i16 (frint (fmul re scalar)))
         /\ f2i16 (frint (fmul re scalar))
            = wrap16 (B32.to_i32 (B32.nearest (fmul re scalar)))
         /\ forall s mnt e,
              fmul re scalar = S754_finite s mnt e ->
              exists z,
                B32.nearest (fmul re scalar) = Some (cond_Zopp s z)
                /\ (0 <= e -> z = Zpos mnt * 2 ^ e)
                /\ (e < 0 -> is_rne (Zpos mnt) (- e) z).
Proof.
  intros Hn Hout Hin.
  destruct (generic_spec complexVector scalar iBuffer0 num_points Hn Hout Hin)
    as (m & Hrun & [Hlen Hdone Hrest Hwr Hrd]).
  exists m. split; [exact Hrun|]. intros i Hi.
  exists (znth fzero complexVector (2 * i)). split; [|split; [|split]].
  - apply zth_znth. lia.
  - apply Hdone. lia.
  - cbn [f2i16 frint b32_ops]. rewrite cast_i16_rint. reflexivity.
  - intros s mnt e He. rewrite He. cbn [B32.nearest].
    destruct (Z.leb_spec 0 e).
    + eexists. split; [reflexivity|]. split; [reflexivity|lia].
    + eexists. split; [reflexivity|]. split; [lia|].
      intros _. apply rne_shift_spec. lia.
Qed.

Lemma generic_stores_rounded_scaled_real_witness :
  exists m,
    run (volk_32fc_s32f_deinterleave_real_16i_generic loud half 11) blank
    = Some m
    /\ forall i, 0 <= i < 11 ->
       exists re,
         zth loud (2 * i) = Some re
         /\ zth (ibuf m) i = Some (f2i16 (frint (fmul re half)))
         /\ f2i16 (frint (fmul re half))
            = wrap16 (B32.to_i32 (B32.nearest (fmul re half)))
         /\ forall s mnt e,
              fmul re half = S754_finite s mnt e ->
              exists z,
                B32.nearest (fmul re half) = Some (cond_Zopp s z)
                /\ (0 <= e -> z = Zpos mnt * 2 ^ e)
                /\ (e < 0 -> is_rne (Zpos mnt) (- e) z).
Proof.
  apply (generic_stores_rounded_scaled_real loud half 11 blank);
    vm_compute; discriminate.
Defined.

(** With scale one half the reals 3, -5 and 7 are the ties 1.5, -2.5 and
    3.5, stored as 2, -2 and 4. *)
Example generic_ties_to_even :
  option_map ibuf
    (run (volk_32fc_s32f_deinterleave_real_16i_generic loud half 11) blank)
  = Some [20000; 20000; 20000; 20000; 20000; 20000; 20000; 20000;
          2; -2; 4; 0].
Proof. vm_compute. reflexivity. Qed.

(** C9: two calls of the same variant whose inputs have the same real
    parts (and the same scalar, length and output buffer) leave the same
    output buffer, whatever the imaginary parts are. *)
Theorem deinterleave_ignores_imaginary_parts (v : variant)
  (complexVector1 complexVector2 : list B32.float) (scalar : B32.float)
  (num_points : Z) (iBuffer0 : list Z) :
  0 <= num_points < 2 ^ 32 -> num_points <= zlen iBuffer0 ->
  2 * num_points <= zlen complexVector1 ->
  2 * num_points <= zlen complexVector2 ->
  (forall i, 0 <= i < num_points ->
     zth complexVector1 (2 * i) = zth complexVector2 (2 * i)) ->
  exists m1 m2,
    run (kernel v complexVector1 scalar num_points) iBuffer0 = Some m1
    /\ run (kernel v complexVector2 scalar num_points) iBuffer0 = Some m2
    /\ ibuf m1 = ibuf m2.
Proof.
  intros Hn Hout Hin1 Hin2 Hre.
  destruct (variant_spec complexVector1 scalar iBuffer0 v num_points Hn Hout Hin1)
    as (m1 & Hrun1 & [Hlen1 Hdone1 Hrest1 _ _]).
  destruct (variant_spec complexVector2 scalar iBuffer0 v num_points Hn Hout Hin2)
    as (m2 & Hrun2 & [Hlen2 Hdone2 Hrest2 _ _]).
  exists m1, m2. split; [exact Hrun1|]. split; [exact Hrun2|].
  apply zth_ext. intros i.
  destruct (Z.lt_ge_cases i 0) as [Hneg|Hpos].
  - now rewrite !zth_neg.
  - destruct (Z.lt_ge_cases i num_points) as [Hlt|Hge].
    + rewrite Hdone1, Hdone2 by lia.
      f_equal. apply quant_real_only; try assumption; try lia.
      apply Hre. lia.
    + now rewrite Hrest1, Hrest2.
Qed.

Lemma deinterleave_ignores_imaginary_parts_witness :
  exists m1 m2,
    run (kernel a_avx2 loud half 11) blank = Some m1
    /\ run (kernel a_avx2 loud' half 11) blank = Some m2
    /\ ibuf m1 = ibuf m2.
Proof.
  apply (deinterleave_ignores_imaginary_parts a_avx2 loud loud' half 11 blank);
    try (vm_compute; intuition discriminate).
  intros i Hi.
  assert (Hc : i = 0 \/ i = 1 \/ i = 2 \/ i = 3 \/ i = 4 \/ i = 5 \/ i = 6
               \/ i = 7 \/ i = 8 \/ i = 9 \/ i = 10) by lia.
  repeat (destruct Hc as [-> | Hc]; [reflexivity|]). subst i. reflexivity.
Defined.




End DeinterleaveClaims.

(* ===================================================================== *)
(** * The dot-product kernels: what every variant computes and stores *)
(* ===================================================================== *)

Module DotProdFacts.
Import DotProd.

(** The slots of [*result] stored, in order. *)
Definition st_idx (t : list event) : list Z :=
  flat_map (fun e => match e with StRes k => [k] | _ => [] end) t.

(** The accesses to [input] and [taps]. *)
Definition ld_events (t : list event) : list event :=
  filter (fun e => match e with Ld _ _ => true | _ => false end) t.

Lemma st_idx_app t1 t2 : st_idx (t1 ++ t2) = st_idx t1 ++ st_idx t2.
Proof. apply flat_map_app. Qed.
Lemma st_idx_ld t b p : st_idx (t ++ [Ld b p]) = st_idx t.
Proof. rewrite st_idx_app. apply app_nil_r. Qed.
Lemma st_idx_ldres t k : st_idx (t ++ [LdRes k]) = st_idx t.
Proof. rewrite st_idx_app. apply app_nil_r. Qed.
Lemma st_idx_st t k : st_idx (t ++ [StRes k]) = st_idx t ++ [k].
Proof. now rewrite st_idx_app. Qed.

Ltac st_norm :=
  repeat first [ rewrite st_idx_ld | rewrite st_idx_ldres
               | rewrite st_idx_st ];
  rewrite <- ?app_assoc; cbn [app].

Section Facts.
Context {F : Type} {FO : FloatOps F}.
Variables input taps : list F.

Local Abbreviation mem := (mem (F := F)).

(** Four consecutive floats of a buffer. *)
Definition vec4 (l : list F) (p : Z) : list F :=
  [znth fzero l p; znth fzero l (p + 1); znth fzero l (p + 2);
   znth fzero l (p + 3)].

(** The complex sample [i] of a buffer. *)
Definition cnth (l : list F) (i : Z) : lv_32fc_t :=
  lv_cmake (znth fzero l (2 * i)) (znth fzero l (2 * i + 1)).

Lemma wp_load_float b p (Q : F -> mem -> Prop) r t :
  0 <= p < zlen (buf input taps b) ->
  Q (znth fzero (buf input taps b) p) (Mem r (t ++ [Ld b p])) ->
  wp (loadf input taps b p) Q (Mem r t).
Proof.
  intros H HQ. unfold wp, loadf. cbn [result trace].
  now rewrite (zth_znth fzero) by assumption.
Qed.

Lemma wp_store_res0 v (Q : unit -> mem -> Prop) re im t :
  Q tt (Mem (v, im) (t ++ [StRes 0])) ->
  wp (store_res 0 v) Q (Mem (re, im) t).
Proof. intros HQ. exact HQ. Qed.

Lemma wp_store_res1 v (Q : unit -> mem -> Prop) re im t :
  Q tt (Mem (re, v) (t ++ [StRes 1])) ->
  wp (store_res 1 v) Q (Mem (re, im) t).
Proof. intros HQ. exact HQ. Qed.

Lemma wp_load_res0 (Q : F -> mem -> Prop) re im t :
  Q re (Mem (re, im) (t ++ [LdRes 0])) ->
  wp (load_res 0) Q (Mem (re, im) t).
Proof. intros HQ. exact HQ. Qed.

Lemma wp_load_res1 (Q : F -> mem -> Prop) re im t :
  Q im (Mem (re, im) (t ++ [LdRes 1])) ->
  wp (load_res 1) Q (Mem (re, im) t).
Proof. intros HQ. exact HQ. Qed.

Ltac wp_step :=
  lazymatch goal with
  | |- wp (bind _ _) _ _ => apply wp_bind
  | |- wp (ret _) _ _ => apply wp_ret
  | |- wp (loadf _ _ _ _) _ _ => apply wp_load_float; [cbn [buf]; lia|]
  | |- wp (loadc _ _ _ _) _ _ => unfold loadc
  | |- wp (store_res 0 _) _ _ => apply wp_store_res0
  | |- wp (store_res 1 _) _ _ => apply wp_store_res1
  | |- wp (load_res 0) _ _ => apply wp_load_res0
  | |- wp (load_res 1) _ _ => apply wp_load_res1
  | |- wp (store_result _) _ _ => unfold store_result
  | |- wp load_result _ _ => unfold load_result
  | |- wp (_mm_loadu_ps _ _ _ _) _ _ => unfold _mm_loadu_ps
  | |- wp (_mm_load_ps _ _ _ _) _ _ => unfold _mm_load_ps, _mm_loadu_ps
  | |- wp (_mm256_loadu_ps _ _ _ _) _ _ => unfold _mm256_loadu_ps
  | |- wp (_mm256_load_ps _ _ _ _) _ _ =>
      unfold _mm256_load_ps, _mm256_loadu_ps
  | |- wp (vld2q_f32 _ _ _ _) _ _ => unfold vld2q_f32
  | |- wp (vld4q_f32 _ _ _ _) _ _ => unfold vld4q_f32
  end; cbv beta iota zeta; cbn [buf fst snd lv_cmake].

(** A state that differs from [Mem r t] by loads only. *)
Definition quiet (r : lv_32fc_t) (t : list event) (m : mem) : Prop :=
  result m = r /\ st_idx (trace m) = st_idx t.

Lemma quiet_refl r t : quiet r t (Mem r t).
Proof. split; reflexivity. Qed.

(** ** Main loops

    A main loop advances two pointers by [B] per iteration and updates its
    accumulators by a function [step] of the pointer; it only loads.  [mk]
    builds the tuple of the local variables. *)
Lemma accumulate_loop {L A : Type} (mk : Z -> Z -> A -> L) (B : Z)
  (body : Z -> L -> M (St := mem) L) (step : Z -> A -> A)
  (P : nat -> A -> Prop) k acc0 r t :
  (forall j acc r' t' number, (j < k)%nat ->
     wp (body number (mk (B * Z.of_nat j) (B * Z.of_nat j) acc))
       (fun l m' => l = mk (B * Z.of_nat j + B) (B * Z.of_nat j + B)
                          (step (B * Z.of_nat j) acc)
                    /\ quiet r' t' m')
       (Mem r' t')) ->
  P O acc0 ->
  (forall j acc, (j < k)%nat -> P j acc ->
     P (S j) (step (B * Z.of_nat j) acc)) ->
  wp (for_range k 0 body (mk 0 0 acc0))
    (fun l m' => exists acc, l = mk (B * Z.of_nat k) (B * Z.of_nat k) acc
                             /\ P k acc /\ quiet r t m')
    (Mem r t).
Proof.
  intros Hbody H0 Hstep.
  apply (wp_for_range
    (fun j (l : L) m' =>
       exists acc, l = mk (B * Z.of_nat j) (B * Z.of_nat j) acc
                   /\ P j acc /\ quiet r t m')).
  - exists acc0. rewrite Z.mul_0_r. split; [reflexivity|].
    split; [exact H0|apply quiet_refl].
  - intros j l m' Hj (acc & -> & HP & Hq).
    destruct m' as [r' t']. destruct Hq as [Hr Ht]. cbn [result trace] in *.
    eapply wp_conseq; [apply (Hbody j acc r' t' (0 + Z.of_nat j) Hj)|].
    cbv beta. intros l m2 [-> [Hr2 Ht2]].
    exists (step (B * Z.of_nat j) acc). split; [|split].
    + replace (B * Z.of_nat (S j)) with (B * Z.of_nat j + B) by lia.
      reflexivity.
    + apply Hstep; assumption.
    + split; congruence.
Qed.

Definition vec8 (l : list F) (p : Z) : list F := vec4 l p ++ vec4 l (p + 4).
Definition vec16 (l : list F) (p : Z) : list F := vec8 l p ++ vec8 l (p + 8).

(** [vld2q_f32] and [vld4q_f32] on the floats loaded. *)
Definition deint2 (v : list F) : list F * list F :=
  ([lane v 0; lane v 2; lane v 4; lane v 6],
   [lane v 1; lane v 3; lane v 5; lane v 7]).
Definition deint4 (v : list F) : list F * list F * list F * list F :=
  ([lane v 0; lane v 4; lane v 8; lane v 12],
   [lane v 1; lane v 5; lane v 9; lane v 13],
   [lane v 2; lane v 6; lane v 10; lane v 14],
   [lane v 3; lane v 7; lane v 11; lane v 15]).

(** The accumulators of each main loop after one more iteration, as a
    function of the floats at offset [p] of [input] and [taps]. *)
Definition generic_sums (p : Z) (s : (F * F) * (F * F))
  : (F * F) * (F * F) :=
  let x := vec4 input p in
  let y := vec4 taps p in
  ((fadd (fst (fst s))
      (fsub (fmul (lane x 0) (lane y 0)) (fmul (lane x 1) (lane y 1))),
    fadd (snd (fst s))
      (fadd (fmul (lane x 0) (lane y 1)) (fmul (lane x 1) (lane y 0)))),
   (fadd (fst (snd s))
      (fsub (fmul (lane x 2) (lane y 2)) (fmul (lane x 3) (lane y 3))),
    fadd (snd (snd s))
      (fadd (fmul (lane x 2) (lane y 3)) (fmul (lane x 3) (lane y 2))))).

Definition sse3_lanes (a : Z) (dotProdVal : list F) : list F :=
  let x := vec4 input (2 * a) in
  let y := vec4 taps (2 * a) in
  _mm_add_ps dotProdVal
    (_mm_addsub_ps (_mm_mul_ps x (_mm_moveldup_ps y))
       (_mm_mul_ps (_mm_shuffle_ps x x 177) (_mm_movehdup_ps y))).

Definition avx_lanes (a : Z) (dotProdVal : list F) : list F :=
  let x := vec8 input (2 * a) in
  let y := vec8 taps (2 * a) in
  _mm256_add_ps dotProdVal
    (_mm256_addsub_ps (_mm256_mul_ps x (_mm256_moveldup_ps y))
       (_mm256_mul_ps (_mm256_shuffle_ps x x 177) (_mm256_movehdup_ps y))).

Definition avx_fma_lanes (a : Z) (dotProdVal : list F) : list F :=
  let x := vec8 input (2 * a) in
  let y := vec8 taps (2 * a) in
  _mm256_add_ps dotProdVal
    (_mm256_fmaddsub_ps x (_mm256_moveldup_ps y)
       (_mm256_mul_ps (_mm256_shuffle_ps x x 177) (_mm256_movehdup_ps y))).

Definition neon_lanes (p : Z) (acc : list F * list F) : list F * list F :=
  let a_val := deint2 (vec8 taps (2 * p)) in
  let b_val := deint2 (vec8 input (2 * p)) in
  (vaddq_f32 (fst acc)
     (vsubq_f32 (vmulq_f32 (fst a_val) (fst b_val))
        (vmulq_f32 (snd a_val) (snd b_val))),
   vaddq_f32 (snd acc)
     (vaddq_f32 (vmulq_f32 (fst a_val) (snd b_val))
        (vmulq_f32 (snd a_val) (fst b_val)))).

Definition neon_opttests_lanes (p : Z) (acc : list F * list F)
  : list F * list F :=
  let a_val := deint2 (vec8 taps (2 * p)) in
  let b_val := deint2 (vec8 input (2 * p)) in
  (vaddq_f32 (fst acc)
     (vmlsq_f32 (vmulq_f32 (fst a_val) (fst b_val)) (snd a_val)
        (snd b_val)),
   vaddq_f32 (snd acc)
     (vmlaq_f32 (vmulq_f32 (snd a_val) (fst b_val)) (fst a_val)
        (snd b_val))).

Definition neon_optfma_lanes (p : Z)
  (acc : (list F * list F) * (list F * list F))
  : (list F * list F) * (list F * list F) :=
  let a_val := deint2 (vec8 taps (2 * p)) in
  let b_val := deint2 (vec8 input (2 * p)) in
  ((vmlaq_f32 (fst (fst acc)) (fst a_val) (fst b_val),
    vmlaq_f32 (snd (fst acc)) (fst a_val) (snd b_val)),
   (vmlsq_f32 (fst (snd acc)) (snd a_val) (snd b_val),
    vmlaq_f32 (snd (snd acc)) (snd a_val) (fst b_val))).

Definition neon_optfmaunroll_lanes (p : Z) (acc : x4 * x4) : x4 * x4 :=
  let '(a0, a1, a2, a3) := deint4 (vec16 taps (2 * p)) in
  let '(b0, b1, b2, b3) := deint4 (vec16 input (2 * p)) in
  let '(acc1_0, acc1_1, acc1_2, acc1_3) := fst acc in
  let '(acc2_0, acc2_1, acc2_2, acc2_3) := snd acc in
  ((vmlaq_f32 acc1_0 a0 b0, vmlaq_f32 acc1_1 a0 b1,
    vmlaq_f32 acc1_2 a2 b2, vmlaq_f32 acc1_3 a2 b3),
   (vmlsq_f32 acc2_0 a1 b1, vmlaq_f32 acc2_1 a1 b0,
    vmlsq_f32 acc2_2 a3 b3, vmlaq_f32 acc2_3 a3 b2)).

Ltac finish_body :=
  split; [reflexivity | split; [reflexivity | cbn [trace]; st_norm; reflexivity]].

Lemma generic_body_step p s r t number :
  0 <= p -> p + 4 <= zlen input -> p + 4 <= zlen taps ->
  wp (generic_body input taps number (p, p, fst s, snd s))
    (fun l m' => l = (p + 4, p + 4, fst (generic_sums p s),
                      snd (generic_sums p s))
                 /\ quiet r t m')
    (Mem r t).
Proof.
  intros Hp Hin Htp. destruct s as [[s00 s01] [s10 s11]].
  unfold generic_body. cbn [fst snd]. repeat wp_step. finish_body.
Qed.

Lemma sse3_body_step a acc r t number :
  0 <= a -> 2 * a + 4 <= zlen input -> 2 * a + 4 <= zlen taps ->
  wp (sse3_body (_mm_loadu_ps input taps) number (a, a, acc))
    (fun l m' => l = (a + 2, a + 2, sse3_lanes a acc) /\ quiet r t m')
    (Mem r t).
Proof.
  intros Ha Hin Htp. unfold sse3_body. repeat wp_step. finish_body.
Qed.

Lemma avx_body_step a acc r t number :
  0 <= a -> 2 * a + 8 <= zlen input -> 2 * a + 8 <= zlen taps ->
  wp (avx_body (_mm256_loadu_ps input taps) number (a, a, acc))
    (fun l m' => l = (a + 4, a + 4, avx_lanes a acc) /\ quiet r t m')
    (Mem r t).
Proof.
  intros Ha Hin Htp. unfold avx_body. repeat wp_step. finish_body.
Qed.

Lemma avx_fma_body_step a acc r t number :
  0 <= a -> 2 * a + 8 <= zlen input -> 2 * a + 8 <= zlen taps ->
  wp (avx_fma_body (_mm256_loadu_ps input taps) number (a, a, acc))
    (fun l m' => l = (a + 4, a + 4, avx_fma_lanes a acc) /\ quiet r t m')
    (Mem r t).
Proof.
  intros Ha Hin Htp. unfold avx_fma_body. repeat wp_step. finish_body.
Qed.

Lemma neon_body_step p acc r t number :
  0 <= p -> 2 * p + 8 <= zlen input -> 2 * p + 8 <= zlen taps ->
  wp (neon_body input taps number (p, p, acc))
    (fun l m' => l = (p + 4, p + 4, neon_lanes p acc) /\ quiet r t m')
    (Mem r t).
Proof.
  intros Hp Hin Htp. destruct acc as [acc0 acc1].
  unfold neon_body. repeat wp_step. finish_body.
Qed.

Lemma neon_opttests_body_step p acc r t number :
  0 <= p -> 2 * p + 8 <= zlen input -> 2 * p + 8 <= zlen taps ->
  wp (neon_opttests_body input taps number (p, p, acc))
    (fun l m' => l = (p + 4, p + 4, neon_opttests_lanes p acc)
                 /\ quiet r t m')
    (Mem r t).
Proof.
  intros Hp Hin Htp. destruct acc as [acc0 acc1].
  unfold neon_opttests_body. repeat wp_step. finish_body.
Qed.

Lemma neon_optfma_body_step p acc r t number :
  0 <= p -> 2 * p + 8 <= zlen input -> 2 * p + 8 <= zlen taps ->
  wp (neon_optfma_body input taps number (p, p, fst acc, snd acc))
    (fun l m' => l = (p + 4, p + 4, fst (neon_optfma_lanes p acc),
                      snd (neon_optfma_lanes p acc))
                 /\ quiet r t m')
    (Mem r t).
Proof.
  intros Hp Hin Htp. destruct acc as [[a10 a11] [a20 a21]].
  unfold neon_optfma_body. cbn [fst snd]. repeat wp_step. finish_body.
Qed.

Lemma neon_optfmaunroll_body_step p acc r t number :
  0 <= p -> 2 * p + 16 <= zlen input -> 2 * p + 16 <= zlen taps ->
  wp (neon_optfmaunroll_body input taps number (p, p, fst acc, snd acc))
    (fun l m' => l = (p + 8, p + 8, fst (neon_optfmaunroll_lanes p acc),
                      snd (neon_optfmaunroll_lanes p acc))
                 /\ quiet r t m')
    (Mem r t).
Proof.
  intros Hp Hin Htp.
  destruct acc as [[[[a10 a11] a12] a13] [[[a20 a21] a22] a23]].
  unfold neon_optfmaunroll_body. cbn [fst snd]. repeat wp_step. finish_body.
Qed.

(** ** Tails *)

(** [input[i] * taps[i]], and the same product as the NEON tails compute
    it, [taps[i] * input[i]]. *)
Definition prod_it (i : Z) : lv_32fc_t := cmul (cnth input i) (cnth taps i).
Definition prod_ti (i : Z) : lv_32fc_t := cmul (cnth taps i) (cnth input i).

(** [d] after the products of the samples [lo .. lo + k - 1] have been added
    to it, one after the other. *)
Definition tail_sum (prod : Z -> lv_32fc_t) (d : lv_32fc_t) (lo : Z)
  (k : nat) : lv_32fc_t :=
  fold_left (fun d i => cadd d (prod i)) (zseq lo k) d.

Lemma tail_sum_snoc prod d lo k :
  tail_sum prod d lo (S k)
  = cadd (tail_sum prod d lo k) (prod (lo + Z.of_nat k)).
Proof. unfold tail_sum. now rewrite zseq_snoc, fold_left_app. Qed.

(** The stores of [j] assignments to [*result]. *)
Definition stores (j : nat) : list Z := concat (repeat [0; 1] j).

Lemma stores_snoc j : stores (S j) = stores j ++ [0; 1].
Proof.
  unfold stores. change (repeat [0; 1] (S j)) with ([0; 1] :: repeat [0; 1] j).
  rewrite repeat_cons, concat_app. cbn [concat app]. reflexivity.
Qed.

Lemma avx_tail_loop d lo k r t :
  0 <= lo -> 2 * (lo + Z.of_nat k) <= zlen input ->
  2 * (lo + Z.of_nat k) <= zlen taps ->
  wp (for_range k lo (avx_tail_body input taps) d)
    (fun d' m' => d' = tail_sum prod_it d lo k /\ quiet r t m')
    (Mem r t).
Proof.
  intros Hlo Hin Htp.
  apply (wp_for_range
    (fun j (d' : lv_32fc_t) m' =>
       d' = tail_sum prod_it d lo j /\ quiet r t m')).
  - split; [reflexivity|apply quiet_refl].
  - intros j d' m' Hj [-> Hq].
    destruct m' as [r' t']. destruct Hq as [Hr Ht]. cbn [result trace] in *.
    unfold avx_tail_body. repeat wp_step.
    split; [now rewrite tail_sum_snoc|].
    split; [exact Hr|]. cbn [trace]. st_norm. exact Ht.
Qed.

Lemma neon_tail_loop lo k number r t :
  0 <= lo -> 2 * (lo + Z.of_nat k) <= zlen input ->
  2 * (lo + Z.of_nat k) <= zlen taps ->
  wp (for_range k number (neon_tail_body input taps) (lo, lo))
    (fun _ m' => result m' = tail_sum prod_ti r lo k
                 /\ st_idx (trace m') = st_idx t ++ stores k)
    (Mem r t).
Proof.
  intros Hlo Hin Htp.
  eapply wp_conseq.
  - apply (wp_for_range
      (fun j (l : Z * Z) m' =>
         l = (lo + Z.of_nat j, lo + Z.of_nat j)
         /\ result m' = tail_sum prod_ti r lo j
         /\ st_idx (trace m') = st_idx t ++ stores j)).
    + rewrite Z.add_0_r. split; [reflexivity|]. split; [reflexivity|].
      cbn [trace stores repeat concat]. now rewrite app_nil_r.
    + intros j l m' Hj (-> & Hr & Ht).
      destruct m' as [[re im] t']. cbn [result trace] in *.
      unfold neon_tail_body. repeat wp_step.
      split; [f_equal; lia|]. cbn [result trace]. split.
      * rewrite tail_sum_snoc, <- Hr. reflexivity.
      * st_norm. rewrite Ht, stores_snoc, <- app_assoc. reflexivity.
  - cbv beta. intros l m' (_ & Hr & Ht). split; assumption.
Qed.

(** ** Whole kernels *)

Lemma run_of_wp (k : M (St := mem) unit) (P : mem -> Prop) r0 :
  wp k (fun _ m => P m) (Mem r0 []) ->
  exists m, run k r0 = Some m /\ P m.
Proof.
  intros H. apply wp_run in H. destruct H as (a & m & Hk & HP).
  exists m. unfold run. now rewrite Hk.
Qed.

Lemma u32_and_1 n : u32_and n 1 = n mod 2.
Proof. unfold u32_and. apply (Z.land_ones n 1). lia. Qed.

Lemma u32_and_3 n : u32_and n 3 = n mod 4.
Proof. unfold u32_and. apply (Z.land_ones n 2). lia. Qed.

Lemma u32_sub_small n k : 0 <= k <= n -> n < 2 ^ 32 -> u32_sub n k = n - k.
Proof. intros H1 H2. unfold u32_sub, u32. apply Z.mod_small. lia. Qed.

Lemma u32_mul_div n B :
  0 < B -> 0 <= n < 2 ^ 32 -> u32_mul (u32_div n B) B = B * (n / B).
Proof.
  intros HB Hn. unfold u32_mul, u32_div, u32.
  assert (0 <= n / B) by (apply Z.div_pos; lia).
  assert (B * (n / B) <= n) by (apply Z.mul_div_le; lia).
  rewrite Z.mod_small; lia.
Qed.

(** What the generic variant leaves in [*result], from its four sums. *)
Definition generic_result (n : Z) (s : (F * F) * (F * F)) : lv_32fc_t :=
  let r := (fadd (fst (fst s)) (fst (snd s)),
            fadd (snd (fst s)) (snd (snd s))) in
  if n mod 2 =? 0 then r else cadd r (prod_it (n - 1)).

Lemma generic_run (P : nat -> (F * F) * (F * F) -> Prop) n r0 :
  0 <= n < 2 ^ 32 -> 2 * n <= zlen input -> 2 * n <= zlen taps ->
  P O ((fzero, fzero), (fzero, fzero)) ->
  (forall j s, (j < Z.to_nat (n / 2))%nat -> P j s ->
     P (S j) (generic_sums (4 * Z.of_nat j) s)) ->
  exists m s,
    run (volk_32fc_x2_dot_prod_32fc_generic input taps n) r0 = Some m
    /\ P (Z.to_nat (n / 2)) s
    /\ result m = generic_result n s
    /\ st_idx (trace m) = stores (Z.to_nat (1 + n mod 2)).
Proof.
  intros Hn Hin Htp H0 Hstep.
  assert (Hdiv : 0 <= n / 2) by (apply Z.div_pos; lia).
  assert (Hmul : 2 * (n / 2) <= n) by (apply Z.mul_div_le; lia).
  pose proof (Z.div_mod n 2 ltac:(lia)) as Hdm.
  pose proof (Z.mod_pos_bound n 2 ltac:(lia)) as Hmod.
  cut (exists m, run (volk_32fc_x2_dot_prod_32fc_generic input taps n) r0
                 = Some m
                 /\ exists s, P (Z.to_nat (n / 2)) s
                              /\ result m = generic_result n s
                              /\ st_idx (trace m)
                                 = stores (Z.to_nat (1 + n mod 2))).
  { intros (m & Hr & s & H). exists m, s. tauto. }
  apply run_of_wp.
  unfold volk_32fc_x2_dot_prod_32fc_generic, for_loop, u32_div.
  rewrite Z.sub_0_r, u32_and_1. apply wp_bind.
  eapply wp_conseq.
  - apply (accumulate_loop
             (fun a b (s : (F * F) * (F * F)) => (a, b, fst s, snd s))
             4 (generic_body input taps) generic_sums P (Z.to_nat (n / 2))
             ((fzero, fzero), (fzero, fzero)) r0 []);
      [|assumption|assumption].
    intros j s r' t' number Hj.
    eapply wp_conseq; [apply generic_body_step; lia|].
    cbv beta. intros l m' H. exact H.
  - cbv beta. intros l m' (s & -> & HP & Hq).
    destruct m' as [[re im] t']. destruct Hq as [Hr Ht].
    cbn [result trace] in *. destruct s as [[s00 s01] [s10 s11]].
    cbn [fst snd]. cbv beta iota. repeat wp_step.
    unfold generic_result. cbn [fst snd].
    destruct (Z.eqb_spec (n mod 2) 0) as [He|He].
    + apply wp_ret. exists ((s00, s01), (s10, s11)).
      split; [exact HP|]. split; [reflexivity|].
      cbn [trace]. st_norm. rewrite Ht, He. reflexivity.
    + unfold result_add_product. rewrite u32_sub_small by lia.
      repeat wp_step. exists ((s00, s01), (s10, s11)).
      split; [exact HP|]. split; [reflexivity|].
      cbn [trace]. st_norm. rewrite Ht.
      replace (n mod 2) with 1 by lia. reflexivity.
Qed.

(** What the SSE3 variants leave in [*result], from the register. *)
Definition sse3_result (n : Z) (acc : list F) : lv_32fc_t :=
  let d := cadd czero (cadd (cplx_of acc 0) (cplx_of acc 1)) in
  if n mod 2 =? 0 then d else cadd d (prod_it (n - 1)).

Lemma sse3_finish_wp n acc r t :
  0 <= n < 2 ^ 32 -> 2 * n <= zlen input -> 2 * n <= zlen taps ->
  wp (sse3_finish input taps n (u32_and n 1) acc)
    (fun _ m' => result m' = sse3_result n acc
                 /\ st_idx (trace m') = st_idx t ++ stores 1)
    (Mem r t).
Proof.
  intros Hn Hin Htp. destruct r as [re im].
  pose proof (Z.div_mod n 2 ltac:(lia)) as Hdm.
  pose proof (Z.mod_pos_bound n 2 ltac:(lia)) as Hmod.
  unfold sse3_finish, sse3_result. rewrite u32_and_1. cbv zeta.
  destruct (Z.eqb_spec (n mod 2) 0) as [He|He].
  - repeat wp_step. split; [reflexivity|]. cbn [trace]. st_norm. reflexivity.
  - rewrite u32_sub_small by lia. repeat wp_step.
    split; [reflexivity|]. cbn [trace]. st_norm. reflexivity.
Qed.

Lemma sse3_run_with (P : nat -> list F -> Prop) h n r0 :
  0 <= n < 2 ^ 32 -> 0 <= h -> 2 * h <= n ->
  2 * n <= zlen input -> 2 * n <= zlen taps ->
  P O _mm_setzero_ps ->
  (forall j acc, (j < Z.to_nat h)%nat -> P j acc ->
     P (S j) (sse3_lanes (2 * Z.of_nat j) acc)) ->
  exists m,
    run ('(_, _, dotProdVal) <-
           for_loop 0 h (sse3_body (_mm_loadu_ps input taps))
             (0, 0, _mm_setzero_ps) ;;
         sse3_finish input taps n (u32_and n 1) dotProdVal) r0 = Some m
    /\ exists acc, P (Z.to_nat h) acc
                   /\ result m = sse3_result n acc
                   /\ st_idx (trace m) = stores 1.
Proof.
  intros Hn Hh Hhn Hin Htp H0 Hstep. apply run_of_wp.
  unfold for_loop. rewrite Z.sub_0_r. apply wp_bind.
  eapply wp_conseq.
  - apply (accumulate_loop (fun a b (acc : list F) => (a, b, acc)) 2
             (sse3_body (_mm_loadu_ps input taps)) sse3_lanes P
             (Z.to_nat h) _mm_setzero_ps r0 []);
      [|assumption|assumption].
    intros j acc r' t' number Hj.
    eapply wp_conseq; [apply sse3_body_step; lia|].
    cbv beta. intros l m' H. exact H.
  - cbv beta. intros l m' (acc & -> & HP & Hq).
    destruct m' as [r' t']. destruct Hq as [Hr Ht].
    cbn [result trace] in *. cbv beta iota.
    eapply wp_conseq; [apply sse3_finish_wp; assumption|].
    cbv beta. intros _ m2 [Hr2 Ht2]. exists acc.
    split; [exact HP|]. split; [exact Hr2|]. now rewrite Ht2, Ht.
Qed.

(** The loop count of the aligned SSE3 variant. *)
Lemma a_sse3_halfPoints n :
  u32_shr (u32_mul n 8) 4 = ((n * 8) mod 2 ^ 32) / 16.
Proof. unfold u32_shr, u32_mul, u32. now rewrite Z.shiftr_div_pow2 by lia. Qed.

(** What the AVX variants leave in [*result], from the register. *)
Definition avx_result (n : Z) (acc : list F) : lv_32fc_t :=
  tail_sum prod_it
    (cadd czero
       (cadd (cadd (cadd (cplx_of acc 0) (cplx_of acc 1)) (cplx_of acc 2))
          (cplx_of acc 3)))
    (n - n mod 4) (Z.to_nat (n mod 4)).

Lemma avx_finish_wp n acc r t :
  0 <= n < 2 ^ 32 -> 2 * n <= zlen input -> 2 * n <= zlen taps ->
  wp (avx_finish input taps n (u32_and n 3) acc)
    (fun _ m' => result m' = avx_result n acc
                 /\ st_idx (trace m') = st_idx t ++ stores 1)
    (Mem r t).
Proof.
  intros Hn Hin Htp.
  pose proof (Z.div_mod n 4 ltac:(lia)) as Hdm.
  pose proof (Z.mod_pos_bound n 4 ltac:(lia)) as Hmod.
  assert (0 <= n / 4) by (apply Z.div_pos; lia).
  unfold avx_finish, avx_result. rewrite u32_and_3. cbv zeta.
  rewrite u32_sub_small by lia. unfold for_loop. apply wp_bind.
  replace (n - (n - n mod 4)) with (n mod 4) by lia.
  eapply wp_conseq; [apply avx_tail_loop; lia|].
  cbv beta. intros d m' [-> [Hr Ht]]. destruct m' as [[re im] t'].
  cbn [result trace] in *. repeat wp_step.
  split; [cbn [result]; symmetry; apply surjective_pairing|].
  cbn [trace]. st_norm. now rewrite Ht.
Qed.

Lemma avx_run_with (body : Z -> Z * Z * list F -> M (St := mem) _)
  (lanes : Z -> list F -> list F) (P : nat -> list F -> Prop) n r0 :
  (forall a acc r t number,
     0 <= a -> 2 * a + 8 <= zlen input -> 2 * a + 8 <= zlen taps ->
     wp (body number (a, a, acc))
       (fun l m' => l = (a + 4, a + 4, lanes a acc) /\ quiet r t m')
       (Mem r t)) ->
  0 <= n < 2 ^ 32 -> 2 * n <= zlen input -> 2 * n <= zlen taps ->
  P O _mm256_setzero_ps ->
  (forall j acc, (j < Z.to_nat (n / 4))%nat -> P j acc ->
     P (S j) (lanes (4 * Z.of_nat j) acc)) ->
  exists m,
    run ('(_, _, dotProdVal) <-
           for_loop 0 (u32_div n 4) body (0, 0, _mm256_setzero_ps) ;;
         avx_finish input taps n (u32_and n 3) dotProdVal) r0 = Some m
    /\ exists acc, P (Z.to_nat (n / 4)) acc
                   /\ result m = avx_result n acc
                   /\ st_idx (trace m) = stores 1.
Proof.
  intros Hbody Hn Hin Htp H0 Hstep. apply run_of_wp.
  assert (0 <= n / 4) by (apply Z.div_pos; lia).
  assert (4 * (n / 4) <= n) by (apply Z.mul_div_le; lia).
  unfold for_loop, u32_div. rewrite Z.sub_0_r. apply wp_bind.
  eapply wp_conseq.
  - apply (accumulate_loop (fun a b (acc : list F) => (a, b, acc)) 4
             body lanes P (Z.to_nat (n / 4)) _mm256_setzero_ps r0 []);
      [|assumption|assumption].
    intros j acc r' t' number Hj.
    eapply wp_conseq; [apply Hbody; lia|].
    cbv beta. intros l m' Hl. exact Hl.
  - cbv beta. intros l m' (acc & -> & HP & Hq).
    destruct m' as [r' t']. destruct Hq as [Hr Ht].
    cbn [result trace] in *. cbv beta iota.
    eapply wp_conseq; [apply avx_finish_wp; assumption|].
    cbv beta. intros _ m2 [Hr2 Ht2]. exists acc.
    split; [exact HP|]. split; [exact Hr2|]. now rewrite Ht2, Ht.
Qed.

(** What the NEON variants leave in [*result], from the register pair
    reduced after the main loop over blocks of [B] samples. *)
Definition neon_result (B n : Z) (acc : list F * list F) : lv_32fc_t :=
  tail_sum prod_ti
    (cadd (cadd (cadd (vst2q acc 0) (vst2q acc 1)) (vst2q acc 2))
       (vst2q acc 3))
    (B * (n / B)) (Z.to_nat (n mod B)).

Lemma neon_finish_wp B n acc r t :
  0 < B -> 0 <= n < 2 ^ 32 -> 2 * n <= zlen input -> 2 * n <= zlen taps ->
  wp (neon_finish input taps (u32_mul (u32_div n B) B) n
        (B * (n / B)) (B * (n / B)) acc)
    (fun _ m' => result m' = neon_result B n acc
                 /\ st_idx (trace m')
                    = st_idx t ++ stores (Z.to_nat (1 + n mod B)))
    (Mem r t).
Proof.
  intros HB Hn Hin Htp. destruct r as [re im].
  pose proof (Z.div_mod n B ltac:(lia)) as Hdm.
  pose proof (Z.mod_pos_bound n B ltac:(lia)) as Hmod.
  assert (0 <= n / B) by (apply Z.div_pos; lia).
  unfold neon_finish, neon_result. rewrite u32_mul_div by lia. cbv zeta.
  repeat wp_step. rewrite <- surjective_pairing. unfold for_loop.
  replace (n - B * (n / B)) with (n mod B) by lia.
  eapply wp_conseq; [apply neon_tail_loop; lia|].
  cbv beta. intros l m' [Hr Ht]. apply wp_ret.
  split; [exact Hr|]. rewrite Ht. st_norm.
  replace (Z.to_nat (1 + n mod B)) with (S (Z.to_nat (n mod B))) by lia.
  change (stores (S (Z.to_nat (n mod B))))
    with ([0; 1] ++ stores (Z.to_nat (n mod B))).
  cbn [app]. reflexivity.
Qed.

Lemma neon_run_with {L A : Type} (mk : Z -> Z -> A -> L) (B : Z)
  (body : Z -> L -> M (St := mem) L) (lanes : Z -> A -> A)
  (reduce : A -> list F * list F) (kont : L -> M (St := mem) unit)
  (P : nat -> A -> Prop) acc0 n r0 :
  0 < B ->
  (forall a acc r t number,
     0 <= a -> 2 * a + 2 * B <= zlen input ->
     2 * a + 2 * B <= zlen taps ->
     wp (body number (mk a a acc))
       (fun l m' => l = mk (a + B) (a + B) (lanes a acc) /\ quiet r t m')
       (Mem r t)) ->
  (forall a b acc,
     kont (mk a b acc)
     = neon_finish input taps (u32_mul (u32_div n B) B) n a b (reduce acc)) ->
  0 <= n < 2 ^ 32 -> 2 * n <= zlen input -> 2 * n <= zlen taps ->
  P O acc0 ->
  (forall j acc, (j < Z.to_nat (n / B))%nat -> P j acc ->
     P (S j) (lanes (B * Z.of_nat j) acc)) ->
  exists m,
    run (l <- for_loop 0 (u32_div n B) body (mk 0 0 acc0) ;; kont l) r0
    = Some m
    /\ exists acc, P (Z.to_nat (n / B)) acc
                   /\ result m = neon_result B n (reduce acc)
                   /\ st_idx (trace m) = stores (Z.to_nat (1 + n mod B)).
Proof.
  intros HB Hbody Hkont Hn Hin Htp H0 Hstep. apply run_of_wp.
  assert (0 <= n / B) by (apply Z.div_pos; lia).
  assert (B * (n / B) <= n) by (apply Z.mul_div_le; lia).
  unfold for_loop, u32_div. rewrite Z.sub_0_r. apply wp_bind.
  eapply wp_conseq.
  - apply (accumulate_loop mk B body lanes P (Z.to_nat (n / B)) acc0 r0 []);
      [|assumption|assumption].
    intros j acc r' t' number Hj.
    eapply wp_conseq; [apply Hbody; nia|].
    cbv beta. intros l m' Hl. exact Hl.
  - cbv beta. intros l m' (acc & -> & HP & Hq).
    destruct m' as [r' t']. destruct Hq as [Hr Ht].
    cbn [result trace] in *. rewrite Hkont, Z2Nat.id by lia.
    eapply wp_conseq; [apply neon_finish_wp; assumption|].
    cbv beta. intros _ m2 [Hr2 Ht2]. exists acc.
    split; [exact HP|]. split; [exact Hr2|]. now rewrite Ht2, Ht.
Qed.

(** The register pair the two-accumulator and the unrolled NEON variants
    reduce their accumulators to. *)
Definition optfma_reduce (acc : (list F * list F) * (list F * list F))
  : list F * list F :=
  (vaddq_f32 (fst (fst acc)) (fst (snd acc)),
   vaddq_f32 (snd (fst acc)) (snd (snd acc))).

Definition optfmaunroll_reduce (acc : x4 * x4) : list F * list F :=
  let '(acc1_0, acc1_1, acc1_2, acc1_3) := fst acc in
  let '(acc2_0, acc2_1, acc2_2, acc2_3) := snd acc in
  (vaddq_f32 (vaddq_f32 acc1_0 acc1_2) (vaddq_f32 acc2_0 acc2_2),
   vaddq_f32 (vaddq_f32 acc1_1 acc1_3) (vaddq_f32 acc2_1 acc2_3)).

Definition zero4 : list F := vdupq_n_f32 fzero.

(** ** Aligned loads at aligned addresses *)

Lemma run_ext (k k' : M (St := mem) unit) (r0 : lv_32fc_t (F := F)) :
  (forall s, k s = k' s) -> run k r0 = run k' r0.
Proof. intros H. unfold run. now rewrite H. Qed.

Section Alignment.
Context {PL : Placement}.

Lemma mm_load_ps_aligned b p s :
  addr b mod 16 = 0 -> p mod 4 = 0 ->
  _mm_load_ps input taps b p s = _mm_loadu_ps input taps b p s.
Proof.
  intros Hb Hp. unfold _mm_load_ps.
  destruct (Z.eqb_spec ((addr b + 4 * p) mod 16) 0) as [_|Hne];
    [reflexivity|].
  exfalso. apply Hne. Z.to_euclidean_division_equations; lia.
Qed.

Lemma mm256_load_ps_aligned b p s :
  addr b mod 32 = 0 -> p mod 8 = 0 ->
  _mm256_load_ps input taps b p s = _mm256_loadu_ps input taps b p s.
Proof.
  intros Hb Hp. unfold _mm256_load_ps.
  destruct (Z.eqb_spec ((addr b + 4 * p) mod 32) 0) as [_|Hne];
    [reflexivity|].
  exfalso. apply Hne. Z.to_euclidean_division_equations; lia.
Qed.

(** The local variables of a main loop over blocks of [B] samples: both
  pointers have advanced by a multiple of [B]. *)
Definition at_block (B : Z) (l : Z * Z * list F) : Prop :=
  fst (fst l) mod B = 0 /\ snd (fst l) mod B = 0.

Lemma sse3_body_next load number l s l' s' :
  at_block 2 l -> sse3_body load number l s = Some (l', s') ->
  at_block 2 l'.
Proof.
  destruct l as [[a b] acc]. unfold at_block. cbn [fst snd]. intros [Ha Hb].
  unfold sse3_body, bind, ret.
  destruct (load Input (2 * a) s) as [[x s1]|]; [|discriminate].
  destruct (load Taps (2 * b) s1) as [[y s2]|]; [|discriminate].
  intros [= <- <-]. cbn [fst snd].
  split; Z.to_euclidean_division_equations; lia.
Qed.

Lemma avx_body_next load number l s l' s' :
  at_block 4 l -> avx_body load number l s = Some (l', s') ->
  at_block 4 l'.
Proof.
  destruct l as [[a b] acc]. unfold at_block. cbn [fst snd]. intros [Ha Hb].
  unfold avx_body, bind, ret.
  destruct (load Input (2 * a) s) as [[x s1]|]; [|discriminate].
  destruct (load Taps (2 * b) s1) as [[y s2]|]; [|discriminate].
  intros [= <- <-]. cbn [fst snd].
  split; Z.to_euclidean_division_equations; lia.
Qed.

Lemma avx_fma_body_next load number l s l' s' :
  at_block 4 l -> avx_fma_body load number l s = Some (l', s') ->
  at_block 4 l'.
Proof.
  destruct l as [[a b] acc]. unfold at_block. cbn [fst snd]. intros [Ha Hb].
  unfold avx_fma_body, bind, ret.
  destruct (load Input (2 * a) s) as [[x s1]|]; [|discriminate].
  destruct (load Taps (2 * b) s1) as [[y s2]|]; [|discriminate].
  intros [= <- <-]. cbn [fst snd].
  split; Z.to_euclidean_division_equations; lia.
Qed.

Lemma sse3_body_aligned number l s :
  aligned_for a_sse3 PL -> at_block 2 l ->
  sse3_body (_mm_load_ps input taps) number l s
  = sse3_body (_mm_loadu_ps input taps) number l s.
Proof.
  destruct l as [[a b] acc]. unfold at_block. cbn [fst snd aligned_for].
  intros [Hi Ht] [Ha Hb]. unfold sse3_body, bind.
  rewrite mm_load_ps_aligned
    by (try exact Hi; Z.to_euclidean_division_equations; lia).
  destruct (_mm_loadu_ps input taps Input (2 * a) s) as [[x s1]|];
    [|reflexivity].
  rewrite mm_load_ps_aligned
    by (try exact Ht; Z.to_euclidean_division_equations; lia).
  reflexivity.
Qed.

Lemma avx_body_aligned number l s :
  aligned_for a_avx PL -> at_block 4 l ->
  avx_body (_mm256_load_ps input taps) number l s
  = avx_body (_mm256_loadu_ps input taps) number l s.
Proof.
  destruct l as [[a b] acc]. unfold at_block. cbn [fst snd aligned_for].
  intros [Hi Ht] [Ha Hb]. unfold avx_body, bind.
  rewrite mm256_load_ps_aligned
    by (try exact Hi; Z.to_euclidean_division_equations; lia).
  destruct (_mm256_loadu_ps input taps Input (2 * a) s) as [[x s1]|];
    [|reflexivity].
  rewrite mm256_load_ps_aligned
    by (try exact Ht; Z.to_euclidean_division_equations; lia).
  reflexivity.
Qed.

Lemma avx_fma_body_aligned number l s :
  aligned_for a_avx_fma PL -> at_block 4 l ->
  avx_fma_body (_mm256_load_ps input taps) number l s
  = avx_fma_body (_mm256_loadu_ps input taps) number l s.
Proof.
  destruct l as [[a b] acc]. unfold at_block. cbn [fst snd aligned_for].
  intros [Hi Ht] [Ha Hb]. unfold avx_fma_body, bind.
  rewrite mm256_load_ps_aligned
    by (try exact Hi; Z.to_euclidean_division_equations; lia).
  destruct (_mm256_loadu_ps input taps Input (2 * a) s) as [[x s1]|];
    [|reflexivity].
  rewrite mm256_load_ps_aligned
    by (try exact Ht; Z.to_euclidean_division_equations; lia).
  reflexivity.
Qed.

Lemma at_block_start B acc : at_block B (0, 0, acc).
Proof. split; apply Zmod_0_l. Qed.

(** Called on buffers of the alignment it requires, an aligned variant
  runs as its loop does with unaligned loads. *)
Lemma a_sse3_unaligned n s :
  aligned_for a_sse3 PL ->
  volk_32fc_x2_dot_prod_32fc_a_sse3 input taps n s
  = ('(_, _, dotProdVal) <-
       for_loop 0 (u32_shr (u32_mul n 8) 4)
         (sse3_body (_mm_loadu_ps input taps)) (0, 0, _mm_setzero_ps) ;;
     sse3_finish input taps n (u32_and n 1) dotProdVal) s.
Proof.
  intros Hal. unfold volk_32fc_x2_dot_prod_32fc_a_sse3, for_loop, bind.
  cbv zeta.
  rewrite (for_range_agree (at_block 2) _
             (sse3_body (_mm_loadu_ps input taps))); [reflexivity| | |].
  - intros i l s0 Hl. now apply sse3_body_aligned.
  - intros i l s0 l' s' Hl. now apply sse3_body_next.
  - apply at_block_start.
Qed.

Lemma a_avx_unaligned n s :
  aligned_for a_avx PL ->
  volk_32fc_x2_dot_prod_32fc_a_avx input taps n s
  = volk_32fc_x2_dot_prod_32fc_u_avx input taps n s.
Proof.
  intros Hal.
  unfold volk_32fc_x2_dot_prod_32fc_a_avx,
    volk_32fc_x2_dot_prod_32fc_u_avx, for_loop, bind.
  cbv zeta.
  rewrite (for_range_agree (at_block 4) _
             (avx_body (_mm256_loadu_ps input taps))); [reflexivity| | |].
  - intros i l s0 Hl. now apply avx_body_aligned.
  - intros i l s0 l' s' Hl. now apply avx_body_next.
  - apply at_block_start.
Qed.

Lemma a_avx_fma_unaligned n s :
  aligned_for a_avx_fma PL ->
  volk_32fc_x2_dot_prod_32fc_a_avx_fma input taps n s
  = volk_32fc_x2_dot_prod_32fc_u_avx_fma input taps n s.
Proof.
  intros Hal.
  unfold volk_32fc_x2_dot_prod_32fc_a_avx_fma,
    volk_32fc_x2_dot_prod_32fc_u_avx_fma, for_loop, bind.
  cbv zeta.
  rewrite (for_range_agree (at_block 4) _
             (avx_fma_body (_mm256_loadu_ps input taps)));
    [reflexivity| | |].
  - intros i l s0 Hl. now apply avx_fma_body_aligned.
  - intros i l s0 l' s' Hl. now apply avx_fma_body_next.
  - apply at_block_start.
Qed.
End Alignment.

(** At [aligned] every variant has the alignment it requires. *)
Lemma aligned_for_aligned v : aligned_for v aligned.
Proof. destruct v; cbn; auto. Qed.

Lemma run_a_avx n r0 :
  run (volk_32fc_x2_dot_prod_32fc_a_avx input taps n) r0
  = run (volk_32fc_x2_dot_prod_32fc_u_avx input taps n) r0.
Proof.
  apply run_ext. intros s. apply a_avx_unaligned.
  apply (aligned_for_aligned a_avx).
Qed.

Lemma run_a_avx_fma n r0 :
  run (volk_32fc_x2_dot_prod_32fc_a_avx_fma input taps n) r0
  = run (volk_32fc_x2_dot_prod_32fc_u_avx_fma input taps n) r0.
Proof.
  apply run_ext. intros s. apply a_avx_fma_unaligned.
  apply (aligned_for_aligned a_avx_fma).
Qed.

Section Runs.
Variable n : Z.
Variable r0 : lv_32fc_t (F := F).
Hypothesis Hn : 0 <= n < 2 ^ 32.
Hypothesis Hin : 2 * n <= zlen input.
Hypothesis Htp : 2 * n <= zlen taps.

Lemma u_sse3_run (P : nat -> list F -> Prop) :
  P O _mm_setzero_ps ->
  (forall j acc, (j < Z.to_nat (n / 2))%nat -> P j acc ->
     P (S j) (sse3_lanes (2 * Z.of_nat j) acc)) ->
  exists m,
    run (volk_32fc_x2_dot_prod_32fc_u_sse3 input taps n) r0 = Some m
    /\ exists acc, P (Z.to_nat (n / 2)) acc
                   /\ result m = sse3_result n acc
                   /\ st_idx (trace m) = stores 1.
Proof.
  intros H0 Hstep.
  assert (0 <= n / 2) by (apply Z.div_pos; lia).
  assert (2 * (n / 2) <= n) by (apply Z.mul_div_le; lia).
  apply (sse3_run_with P (n / 2) n r0); assumption.
Qed.

Lemma a_sse3_run (P : nat -> list F -> Prop) :
  P O _mm_setzero_ps ->
  (forall j acc, (j < Z.to_nat (((n * 8) mod 2 ^ 32) / 16))%nat -> P j acc ->
     P (S j) (sse3_lanes (2 * Z.of_nat j) acc)) ->
  exists m,
    run (volk_32fc_x2_dot_prod_32fc_a_sse3 input taps n) r0 = Some m
    /\ exists acc, P (Z.to_nat (((n * 8) mod 2 ^ 32) / 16)) acc
                   /\ result m = sse3_result n acc
                   /\ st_idx (trace m) = stores 1.
Proof.
  intros H0 Hstep.
  rewrite (run_ext _ _ r0
             (fun s => a_sse3_unaligned n s (aligned_for_aligned a_sse3))).
  rewrite a_sse3_halfPoints.
  assert (0 <= ((n * 8) mod 2 ^ 32) / 16)
    by (apply Z.div_pos; [apply Z.mod_pos_bound|]; lia).
  assert (2 * (((n * 8) mod 2 ^ 32) / 16) <= n).
  { pose proof (Z.mod_le (n * 8) (2 ^ 32) ltac:(lia) ltac:(lia)).
    pose proof (Z.mul_div_le ((n * 8) mod 2 ^ 32) 16 ltac:(lia)). lia. }
  apply (sse3_run_with P _ n r0); assumption.
Qed.

Lemma u_avx_run (P : nat -> list F -> Prop) :
  P O _mm256_setzero_ps ->
  (forall j acc, (j < Z.to_nat (n / 4))%nat -> P j acc ->
     P (S j) (avx_lanes (4 * Z.of_nat j) acc)) ->
  exists m,
    run (volk_32fc_x2_dot_prod_32fc_u_avx input taps n) r0 = Some m
    /\ exists acc, P (Z.to_nat (n / 4)) acc
                   /\ result m = avx_result n acc
                   /\ st_idx (trace m) = stores 1.
Proof.
  intros H0 Hstep.
  apply (avx_run_with (avx_body (_mm256_loadu_ps input taps)) avx_lanes P n r0);
    try assumption.
  intros; apply avx_body_step; assumption.
Qed.

Lemma u_avx_fma_run (P : nat -> list F -> Prop) :
  P O _mm256_setzero_ps ->
  (forall j acc, (j < Z.to_nat (n / 4))%nat -> P j acc ->
     P (S j) (avx_fma_lanes (4 * Z.of_nat j) acc)) ->
  exists m,
    run (volk_32fc_x2_dot_prod_32fc_u_avx_fma input taps n) r0 = Some m
    /\ exists acc, P (Z.to_nat (n / 4)) acc
                   /\ result m = avx_result n acc
                   /\ st_idx (trace m) = stores 1.
Proof.
  intros H0 Hstep.
  apply (avx_run_with (avx_fma_body (_mm256_loadu_ps input taps))
           avx_fma_lanes P n r0); try assumption.
  intros; apply avx_fma_body_step; assumption.
Qed.

Lemma neon_run (P : nat -> list F * list F -> Prop) :
  P O (zero4, zero4) ->
  (forall j acc, (j < Z.to_nat (n / 4))%nat -> P j acc ->
     P (S j) (neon_lanes (4 * Z.of_nat j) acc)) ->
  exists m,
    run (volk_32fc_x2_dot_prod_32fc_neon input taps n) r0 = Some m
    /\ exists acc, P (Z.to_nat (n / 4)) acc
                   /\ result m = neon_result 4 n acc
                   /\ st_idx (trace m) = stores (Z.to_nat (1 + n mod 4)).
Proof.
  intros H0 Hstep.
  apply (neon_run_with (fun a b (acc : list F * list F) => (a, b, acc)) 4
           (neon_body input taps) neon_lanes (fun acc => acc)
           (fun l => let '(a_ptr, b_ptr, accumulator) := l in
                     neon_finish input taps (u32_mul (u32_div n 4) 4) n
                       a_ptr b_ptr accumulator)
           P (zero4, zero4) n r0); try assumption; try lia.
  - intros; apply neon_body_step; lia.
  - reflexivity.
Qed.

Lemma neon_opttests_run (P : nat -> list F * list F -> Prop) :
  P O (zero4, zero4) ->
  (forall j acc, (j < Z.to_nat (n / 4))%nat -> P j acc ->
     P (S j) (neon_opttests_lanes (4 * Z.of_nat j) acc)) ->
  exists m,
    run (volk_32fc_x2_dot_prod_32fc_neon_opttests input taps n) r0 = Some m
    /\ exists acc, P (Z.to_nat (n / 4)) acc
                   /\ result m = neon_result 4 n acc
                   /\ st_idx (trace m) = stores (Z.to_nat (1 + n mod 4)).
Proof.
  intros H0 Hstep.
  apply (neon_run_with (fun a b (acc : list F * list F) => (a, b, acc)) 4
           (neon_opttests_body input taps) neon_opttests_lanes
           (fun acc => acc)
           (fun l => let '(a_ptr, b_ptr, accumulator) := l in
                     neon_finish input taps (u32_mul (u32_div n 4) 4) n
                       a_ptr b_ptr accumulator)
           P (zero4, zero4) n r0); try assumption; try lia.
  - intros; apply neon_opttests_body_step; lia.
  - reflexivity.
Qed.

Lemma neon_optfma_run
  (P : nat -> (list F * list F) * (list F * list F) -> Prop) :
  P O ((zero4, zero4), (zero4, zero4)) ->
  (forall j acc, (j < Z.to_nat (n / 4))%nat -> P j acc ->
     P (S j) (neon_optfma_lanes (4 * Z.of_nat j) acc)) ->
  exists m,
    run (volk_32fc_x2_dot_prod_32fc_neon_optfma input taps n) r0 = Some m
    /\ exists acc, P (Z.to_nat (n / 4)) acc
                   /\ result m = neon_result 4 n (optfma_reduce acc)
                   /\ st_idx (trace m) = stores (Z.to_nat (1 + n mod 4)).
Proof.
  intros H0 Hstep.
  apply (neon_run_with
           (fun a b (acc : (list F * list F) * (list F * list F)) =>
              (a, b, fst acc, snd acc)) 4
           (neon_optfma_body input taps) neon_optfma_lanes optfma_reduce
           (fun l =>
              let '(a_ptr, b_ptr, (accumulator1_0, accumulator1_1),
                    (accumulator2_0, accumulator2_1)) := l in
              neon_finish input taps (u32_mul (u32_div n 4) 4) n a_ptr b_ptr
                (vaddq_f32 accumulator1_0 accumulator2_0,
                 vaddq_f32 accumulator1_1 accumulator2_1))
           P ((zero4, zero4), (zero4, zero4)) n r0);
    try assumption; try lia.
  - intros; apply neon_optfma_body_step; lia.
  - intros a b [[a10 a11] [a20 a21]]. reflexivity.
Qed.

Lemma neon_optfmaunroll_run (P : nat -> x4 * x4 -> Prop) :
  P O ((zero4, zero4, zero4, zero4), (zero4, zero4, zero4, zero4)) ->
  (forall j acc, (j < Z.to_nat (n / 8))%nat -> P j acc ->
     P (S j) (neon_optfmaunroll_lanes (8 * Z.of_nat j) acc)) ->
  exists m,
    run (volk_32fc_x2_dot_prod_32fc_neon_optfmaunroll input taps n) r0
    = Some m
    /\ exists acc, P (Z.to_nat (n / 8)) acc
                   /\ result m = neon_result 8 n (optfmaunroll_reduce acc)
                   /\ st_idx (trace m) = stores (Z.to_nat (1 + n mod 8)).
Proof.
  intros H0 Hstep.
  apply (neon_run_with
           (fun a b (acc : x4 * x4) => (a, b, fst acc, snd acc)) 8
           (neon_optfmaunroll_body input taps) neon_optfmaunroll_lanes
           optfmaunroll_reduce
           (fun l =>
              let '(a_ptr, b_ptr,
                    (accumulator1_0, accumulator1_1, accumulator1_2,
                     accumulator1_3),
                    (accumulator2_0, accumulator2_1, accumulator2_2,
                     accumulator2_3)) := l in
              neon_finish input taps (u32_mul (u32_div n 8) 8) n a_ptr b_ptr
                (vaddq_f32 (vaddq_f32 accumulator1_0 accumulator1_2)
                   (vaddq_f32 accumulator2_0 accumulator2_2),
                 vaddq_f32 (vaddq_f32 accumulator1_1 accumulator1_3)
                   (vaddq_f32 accumulator2_1 accumulator2_3)))
           P ((zero4, zero4, zero4, zero4), (zero4, zero4, zero4, zero4))
           n r0); try assumption; try lia.
  - intros; apply neon_optfmaunroll_body_step; lia.
  - intros a b [[[[a10 a11] a12] a13] [[[a20 a21] a22] a23]]. reflexivity.
Qed.
End Runs.
End Facts.
End DotProdFacts.

(* ===================================================================== *)
(** * The dot-product kernels in exact arithmetic *)
(* ===================================================================== *)

Module DotProdExact.
Import DotProd DotProdFacts.

(** ** The lanes of each main loop on explicit registers *)

Section Lanes.
Context {F : Type} {FO : FloatOps F}.
Variables (x0 x1 x2 x3 x4 x5 x6 x7 : F) (y0 y1 y2 y3 y4 y5 y6 y7 : F).
Variables (a0 a1 a2 a3 a4 a5 a6 a7 : F).

Lemma sse3_lanes_explicit :
  _mm_add_ps [a0; a1; a2; a3]
    (_mm_addsub_ps
       (_mm_mul_ps [x0; x1; x2; x3] (_mm_moveldup_ps [y0; y1; y2; y3]))
       (_mm_mul_ps (_mm_shuffle_ps [x0; x1; x2; x3] [x0; x1; x2; x3] 177)
          (_mm_movehdup_ps [y0; y1; y2; y3])))
  = [fadd a0 (fsub (fmul x0 y0) (fmul x1 y1));
     fadd a1 (fadd (fmul x1 y0) (fmul x0 y1));
     fadd a2 (fsub (fmul x2 y2) (fmul x3 y3));
     fadd a3 (fadd (fmul x3 y2) (fmul x2 y3))].
Proof. reflexivity. Qed.

Lemma avx_lanes_explicit :
  _mm256_add_ps [a0; a1; a2; a3; a4; a5; a6; a7]
    (_mm256_addsub_ps
       (_mm256_mul_ps ([x0; x1; x2; x3] ++ [x4; x5; x6; x7])
          (_mm256_moveldup_ps ([y0; y1; y2; y3] ++ [y4; y5; y6; y7])))
       (_mm256_mul_ps
          (_mm256_shuffle_ps ([x0; x1; x2; x3] ++ [x4; x5; x6; x7])
             ([x0; x1; x2; x3] ++ [x4; x5; x6; x7]) 177)
          (_mm256_movehdup_ps ([y0; y1; y2; y3] ++ [y4; y5; y6; y7]))))
  = [fadd a0 (fsub (fmul x0 y0) (fmul x1 y1));
     fadd a1 (fadd (fmul x1 y0) (fmul x0 y1));
     fadd a2 (fsub (fmul x2 y2) (fmul x3 y3));
     fadd a3 (fadd (fmul x3 y2) (fmul x2 y3));
     fadd a4 (fsub (fmul x4 y4) (fmul x5 y5));
     fadd a5 (fadd (fmul x5 y4) (fmul x4 y5));
     fadd a6 (fsub (fmul x6 y6) (fmul x7 y7));
     fadd a7 (fadd (fmul x7 y6) (fmul x6 y7))].
Proof. reflexivity. Qed.

Lemma avx_fma_lanes_explicit :
  _mm256_add_ps [a0; a1; a2; a3; a4; a5; a6; a7]
    (_mm256_fmaddsub_ps ([x0; x1; x2; x3] ++ [x4; x5; x6; x7])
       (_mm256_moveldup_ps ([y0; y1; y2; y3] ++ [y4; y5; y6; y7]))
       (_mm256_mul_ps
          (_mm256_shuffle_ps ([x0; x1; x2; x3] ++ [x4; x5; x6; x7])
             ([x0; x1; x2; x3] ++ [x4; x5; x6; x7]) 177)
          (_mm256_movehdup_ps ([y0; y1; y2; y3] ++ [y4; y5; y6; y7]))))
  = [fadd a0 (ffmsub x0 y0 (fmul x1 y1));
     fadd a1 (ffmadd x1 y0 (fmul x0 y1));
     fadd a2 (ffmsub x2 y2 (fmul x3 y3));
     fadd a3 (ffmadd x3 y2 (fmul x2 y3));
     fadd a4 (ffmsub x4 y4 (fmul x5 y5));
     fadd a5 (ffmadd x5 y4 (fmul x4 y5));
     fadd a6 (ffmsub x6 y6 (fmul x7 y7));
     fadd a7 (ffmadd x7 y6 (fmul x6 y7))].
Proof. reflexivity. Qed.
End Lanes.

(** ** Exact arithmetic *)

Section Exact.
Variables input taps : list Z.

(** The real and the imaginary part of [input[i] * taps[i]]. *)
Definition re_at (i : Z) : Z :=
  znth 0 input (2 * i) * znth 0 taps (2 * i)
  - znth 0 input (2 * i + 1) * znth 0 taps (2 * i + 1).
Definition im_at (i : Z) : Z :=
  znth 0 input (2 * i) * znth 0 taps (2 * i + 1)
  + znth 0 input (2 * i + 1) * znth 0 taps (2 * i).

(** [f lo + f (lo + 1) + ... + f (lo + k - 1)] *)
Fixpoint zsum (f : Z -> Z) (lo : Z) (k : nat) : Z :=
  match k with
  | O => 0
  | S k' => f lo + zsum f (lo + 1) k'
  end.

(** The dot product of the first [n] samples. *)
Definition dot_product (n : Z) : Z * Z :=
  (zsum re_at 0 (Z.to_nat n), zsum im_at 0 (Z.to_nat n)).

Lemma zsum_app f lo k1 k2 :
  zsum f lo (k1 + k2) = zsum f lo k1 + zsum f (lo + Z.of_nat k1) k2.
Proof.
  revert lo. induction k1 as [|k1 IH]; intros lo.
  - cbn [zsum Nat.add]. now rewrite Z.add_0_r.
  - cbn [zsum Nat.add]. rewrite IH.
    replace (lo + 1 + Z.of_nat k1) with (lo + Z.of_nat (S k1)) by lia. lia.
Qed.

Lemma zsum_split f (n k : Z) :
  0 <= k <= n ->
  zsum f 0 (Z.to_nat n)
  = zsum f 0 (Z.to_nat k) + zsum f k (Z.to_nat (n - k)).
Proof.
  intros H. replace (Z.to_nat n) with (Z.to_nat k + Z.to_nat (n - k))%nat by lia.
  rewrite zsum_app. rewrite Z2Nat.id by lia. reflexivity.
Qed.

Lemma zsum_1 f lo : zsum f lo 1 = f lo.
Proof. cbn [zsum]. lia. Qed.

Lemma zsum_2 f lo : zsum f lo 2 = f lo + f (lo + 1).
Proof. cbn [zsum]. lia. Qed.

Lemma zsum_4 f lo :
  zsum f lo 4 = f lo + f (lo + 1) + f (lo + 2) + f (lo + 3).
Proof.
  cbn [zsum]. replace (lo + 1 + 1) with (lo + 2) by lia.
  replace (lo + 2 + 1) with (lo + 3) by lia. lia.
Qed.

Lemma zsum_8 f lo :
  zsum f lo 8 = f lo + f (lo + 1) + f (lo + 2) + f (lo + 3)
                + f (lo + 4) + f (lo + 5) + f (lo + 6) + f (lo + 7).
Proof.
  replace 8%nat with (4 + 4)%nat by reflexivity.
  rewrite zsum_app, !zsum_4. change (Z.of_nat 4) with 4.
  replace (lo + 4 + 1) with (lo + 5) by lia.
  replace (lo + 4 + 2) with (lo + 6) by lia.
  replace (lo + 4 + 3) with (lo + 7) by lia. lia.
Qed.

(** One more block of [B] samples. *)
Lemma dot_block f (B : Z) (j : nat) :
  0 < B ->
  zsum f 0 (Z.to_nat (B * Z.of_nat (S j)))
  = zsum f 0 (Z.to_nat (B * Z.of_nat j))
    + zsum f (B * Z.of_nat j) (Z.to_nat B).
Proof.
  intros HB.
  rewrite (zsum_split f (B * Z.of_nat (S j)) (B * Z.of_nat j)) by nia.
  replace (B * Z.of_nat (S j) - B * Z.of_nat j) with B by lia. reflexivity.
Qed.

(** The float at offset [b + c]: the form every offset is brought to. *)
Definition at_ (b c : Z) : Z := b + c.

Ltac znth_canon b :=
  repeat match goal with
    | |- context [znth ?d ?l ?p] =>
        lazymatch p with
        | at_ _ _ => fail
        | _ => idtac
        end;
        first [ replace p with (at_ b 0) by (unfold at_; lia)
              | replace p with (at_ b 1) by (unfold at_; lia)
              | replace p with (at_ b 2) by (unfold at_; lia)
              | replace p with (at_ b 3) by (unfold at_; lia)
              | replace p with (at_ b 4) by (unfold at_; lia)
              | replace p with (at_ b 5) by (unfold at_; lia)
              | replace p with (at_ b 6) by (unfold at_; lia)
              | replace p with (at_ b 7) by (unfold at_; lia)
              | replace p with (at_ b 8) by (unfold at_; lia)
              | replace p with (at_ b 9) by (unfold at_; lia)
              | replace p with (at_ b 10) by (unfold at_; lia)
              | replace p with (at_ b 11) by (unfold at_; lia)
              | replace p with (at_ b 12) by (unfold at_; lia)
              | replace p with (at_ b 13) by (unfold at_; lia)
              | replace p with (at_ b 14) by (unfold at_; lia)
              | replace p with (at_ b 15) by (unfold at_; lia) ]
    end.

Ltac z_ops := cbn [fadd fsub fmul ffmadd ffmsub fzero Z_ops].

(** The sums of the generic variant. *)
Definition generic_inv (j : nat) (s : (Z * Z) * (Z * Z)) : Prop :=
  fst (fst s) + fst (snd s) = zsum re_at 0 (Z.to_nat (2 * Z.of_nat j))
  /\ snd (fst s) + snd (snd s) = zsum im_at 0 (Z.to_nat (2 * Z.of_nat j)).

Lemma generic_inv_step j s :
  generic_inv j s ->
  generic_inv (S j) (generic_sums input taps (4 * Z.of_nat j) s).
Proof.
  destruct s as [[s00 s01] [s10 s11]]. unfold generic_inv. cbn [fst snd].
  intros [Hre Him]. rewrite !dot_block, <- Hre, <- Him by lia.
  change (Z.to_nat 2) with 2%nat. rewrite !zsum_2.
  unfold generic_sums, vec4, re_at, im_at. cbn [fst snd lane nth]. z_ops.
  znth_canon (4 * Z.of_nat j). split; lia.
Qed.

(** A register of four (eight) lanes, and the sum of its lanes. *)
Definition vsum (l : list Z) : Z := fold_right Z.add 0 l.

Ltac explode4 l :=
  let H := fresh in
  destruct l as [|? [|? [|? [|? [|? ?]]]]]; intros H;
  cbn [length] in H; try (exfalso; lia); clear H.

Ltac explode8 l :=
  let H := fresh in
  destruct l as [|? [|? [|? [|? [|? [|? [|? [|? [|? ?]]]]]]]]]; intros H;
  cbn [length] in H; try (exfalso; lia); clear H.

Definition sse3_inv (j : nat) (acc : list Z) : Prop :=
  length acc = 4%nat
  /\ lane acc 0 + lane acc 2 = zsum re_at 0 (Z.to_nat (2 * Z.of_nat j))
  /\ lane acc 1 + lane acc 3 = zsum im_at 0 (Z.to_nat (2 * Z.of_nat j)).

Lemma sse3_inv_step j acc :
  sse3_inv j acc -> sse3_inv (S j) (sse3_lanes input taps (2 * Z.of_nat j) acc).
Proof.
  unfold sse3_inv. intros (Hlen & Hre & Him). revert Hlen Hre Him.
  explode4 acc. cbn [lane nth]. intros Hre Him.
  rewrite !dot_block, <- Hre, <- Him by lia.
  change (Z.to_nat 2) with 2%nat. rewrite !zsum_2.
  unfold sse3_lanes, vec4. cbv zeta. rewrite sse3_lanes_explicit.
  unfold re_at, im_at. cbn [length lane nth]. z_ops.
  znth_canon (4 * Z.of_nat j). repeat split; lia.
Qed.

Definition avx_inv (j : nat) (acc : list Z) : Prop :=
  length acc = 8%nat
  /\ lane acc 0 + lane acc 2 + lane acc 4 + lane acc 6
     = zsum re_at 0 (Z.to_nat (4 * Z.of_nat j))
  /\ lane acc 1 + lane acc 3 + lane acc 5 + lane acc 7
     = zsum im_at 0 (Z.to_nat (4 * Z.of_nat j)).

Lemma avx_inv_step j acc :
  avx_inv j acc -> avx_inv (S j) (avx_lanes input taps (4 * Z.of_nat j) acc).
Proof.
  unfold avx_inv. intros (Hlen & Hre & Him). revert Hlen Hre Him.
  explode8 acc. cbn [lane nth]. intros Hre Him.
  rewrite !dot_block, <- Hre, <- Him by lia.
  change (Z.to_nat 4) with 4%nat. rewrite !zsum_4.
  unfold avx_lanes, vec8, vec4. cbv zeta. rewrite avx_lanes_explicit.
  unfold re_at, im_at. cbn [length lane nth]. z_ops.
  znth_canon (8 * Z.of_nat j). repeat split; lia.
Qed.

Lemma avx_fma_inv_step j acc :
  avx_inv j acc ->
  avx_inv (S j) (avx_fma_lanes input taps (4 * Z.of_nat j) acc).
Proof.
  unfold avx_inv. intros (Hlen & Hre & Him). revert Hlen Hre Him.
  explode8 acc. cbn [lane nth]. intros Hre Him.
  rewrite !dot_block, <- Hre, <- Him by lia.
  change (Z.to_nat 4) with 4%nat. rewrite !zsum_4.
  unfold avx_fma_lanes, vec8, vec4. cbv zeta. rewrite avx_fma_lanes_explicit.
  unfold re_at, im_at. cbn [length lane nth]. z_ops.
  znth_canon (8 * Z.of_nat j). repeat split; lia.
Qed.

(** NEON: one register of real parts and one of imaginary parts. *)
Definition neon_inv (j : nat) (acc : list Z * list Z) : Prop :=
  length (fst acc) = 4%nat /\ length (snd acc) = 4%nat
  /\ vsum (fst acc) = zsum re_at 0 (Z.to_nat (4 * Z.of_nat j))
  /\ vsum (snd acc) = zsum im_at 0 (Z.to_nat (4 * Z.of_nat j)).

Ltac neon_ops :=
  cbn [deint2 deint4 vec16 vec8 vec4 app lane nth fst snd vaddq_f32 vsubq_f32
       vmulq_f32 vmlaq_f32 vmlsq_f32 vmap2 length vsum fold_right].

Lemma neon_inv_step j acc :
  neon_inv j acc -> neon_inv (S j) (neon_lanes input taps (4 * Z.of_nat j) acc).
Proof.
  destruct acc as [r i]. unfold neon_inv. cbn [fst snd].
  intros (Hr & Hi & Hre & Him). revert Hr Hi Hre Him.
  explode4 r. explode4 i. cbn [vsum fold_right]. intros Hre Him.
  rewrite !dot_block, <- Hre, <- Him by lia.
  change (Z.to_nat 4) with 4%nat. rewrite !zsum_4.
  unfold neon_lanes. cbv zeta. neon_ops.
  unfold re_at, im_at. z_ops.
  znth_canon (8 * Z.of_nat j). repeat split; lia.
Qed.

Lemma neon_opttests_inv_step j acc :
  neon_inv j acc ->
  neon_inv (S j) (neon_opttests_lanes input taps (4 * Z.of_nat j) acc).
Proof.
  destruct acc as [r i]. unfold neon_inv. cbn [fst snd].
  intros (Hr & Hi & Hre & Him). revert Hr Hi Hre Him.
  explode4 r. explode4 i. cbn [vsum fold_right]. intros Hre Him.
  rewrite !dot_block, <- Hre, <- Him by lia.
  change (Z.to_nat 4) with 4%nat. rewrite !zsum_4.
  unfold neon_opttests_lanes. cbv zeta. neon_ops.
  unfold re_at, im_at. z_ops.
  znth_canon (8 * Z.of_nat j). repeat split; lia.
Qed.

Definition neon_optfma_inv (j : nat)
  (acc : (list Z * list Z) * (list Z * list Z)) : Prop :=
  length (fst (fst acc)) = 4%nat /\ length (snd (fst acc)) = 4%nat
  /\ length (fst (snd acc)) = 4%nat /\ length (snd (snd acc)) = 4%nat
  /\ vsum (fst (fst acc)) + vsum (fst (snd acc))
     = zsum re_at 0 (Z.to_nat (4 * Z.of_nat j))
  /\ vsum (snd (fst acc)) + vsum (snd (snd acc))
     = zsum im_at 0 (Z.to_nat (4 * Z.of_nat j)).

Lemma neon_optfma_inv_step j acc :
  neon_optfma_inv j acc ->
  neon_optfma_inv (S j) (neon_optfma_lanes input taps (4 * Z.of_nat j) acc).
Proof.
  destruct acc as [[a10 a11] [a20 a21]]. unfold neon_optfma_inv.
  cbn [fst snd]. intros (H1 & H2 & H3 & H4 & Hre & Him).
  revert H1 H2 H3 H4 Hre Him.
  explode4 a10. explode4 a11. explode4 a20. explode4 a21.
  cbn [vsum fold_right]. intros Hre Him.
  rewrite !dot_block, <- Hre, <- Him by lia.
  change (Z.to_nat 4) with 4%nat. rewrite !zsum_4.
  unfold neon_optfma_lanes. cbv zeta. neon_ops.
  unfold re_at, im_at. z_ops.
  znth_canon (8 * Z.of_nat j). repeat split; lia.
Qed.

Definition x4_lengths (a : x4 (F := Z)) : Prop :=
  let '(a0, a1, a2, a3) := a in
  length a0 = 4%nat /\ length a1 = 4%nat /\ length a2 = 4%nat
  /\ length a3 = 4%nat.

Definition neon_optfmaunroll_inv (j : nat) (acc : x4 * x4) : Prop :=
  let '(a10, a11, a12, a13) := fst acc in
  let '(a20, a21, a22, a23) := snd acc in
  x4_lengths (fst acc) /\ x4_lengths (snd acc)
  /\ vsum a10 + vsum a12 + vsum a20 + vsum a22
     = zsum re_at 0 (Z.to_nat (8 * Z.of_nat j))
  /\ vsum a11 + vsum a13 + vsum a21 + vsum a23
     = zsum im_at 0 (Z.to_nat (8 * Z.of_nat j)).

Lemma neon_optfmaunroll_inv_step j acc :
  neon_optfmaunroll_inv j acc ->
  neon_optfmaunroll_inv (S j)
    (neon_optfmaunroll_lanes input taps (8 * Z.of_nat j) acc).
Proof.
  destruct acc as [[[[a10 a11] a12] a13] [[[a20 a21] a22] a23]].
  unfold neon_optfmaunroll_inv, x4_lengths. cbn [fst snd].
  intros ((H1 & H2 & H3 & H4) & (H5 & H6 & H7 & H8) & Hre & Him).
  revert H1 H2 H3 H4 H5 H6 H7 H8 Hre Him.
  explode4 a10. explode4 a11. explode4 a12. explode4 a13.
  explode4 a20. explode4 a21. explode4 a22. explode4 a23.
  cbn [vsum fold_right]. intros Hre Him.
  rewrite !dot_block, <- Hre, <- Him by lia.
  change (Z.to_nat 8) with 8%nat. rewrite !zsum_8.
  unfold neon_optfmaunroll_lanes. cbv zeta. neon_ops.
  unfold re_at, im_at. z_ops.
  znth_canon (16 * Z.of_nat j). repeat split; lia.
Qed.

(** ** Tails and results *)

Lemma zsum_snoc f lo k : zsum f lo (S k) = zsum f lo k + f (lo + Z.of_nat k).
Proof.
  replace (S k) with (k + 1)%nat by lia. rewrite zsum_app, zsum_1. reflexivity.
Qed.

Lemma prod_it_exact i : prod_it input taps i = (re_at i, im_at i).
Proof. reflexivity. Qed.

Lemma prod_ti_exact i : prod_ti input taps i = (re_at i, im_at i).
Proof.
  unfold prod_ti, cmul, cnth, lv_cmake, re_at, im_at. z_ops. f_equal; lia.
Qed.

Lemma tail_sum_exact (prod : Z -> Z * Z) d lo k :
  (forall i, prod i = (re_at i, im_at i)) ->
  tail_sum prod d lo k = (fst d + zsum re_at lo k, snd d + zsum im_at lo k).
Proof.
  intros Hp. induction k as [|k IH].
  - destruct d as [dr di]. cbn [tail_sum zseq fold_left zsum fst snd].
    f_equal; lia.
  - rewrite tail_sum_snoc, IH, Hp, !zsum_snoc. unfold cadd, lv_cmake.
    cbn [fst snd]. z_ops. f_equal; lia.
Qed.

(** The sum of the first [n] products from the sum of the full blocks of
    [B] and the tail. *)
Lemma zsum_blocks f (B n : Z) :
  0 < B -> 0 <= n ->
  zsum f 0 (Z.to_nat n)
  = zsum f 0 (Z.to_nat (B * Z.of_nat (Z.to_nat (n / B))))
    + zsum f (B * (n / B)) (Z.to_nat (n mod B)).
Proof.
  intros HB Hn.
  assert (0 <= n / B) by (apply Z.div_pos; lia).
  pose proof (Z.div_mod n B ltac:(lia)).
  pose proof (Z.mod_pos_bound n B HB).
  rewrite Z2Nat.id by lia.
  rewrite (zsum_split f n (B * (n / B))) by lia.
  replace (n - B * (n / B)) with (n mod B) by lia. reflexivity.
Qed.

(** ** Every variant computes the dot product *)

Section Result.
Variable n : Z.
Variable r0 : Z * Z.
Hypothesis Hn : 0 <= n < 2 ^ 32.
Hypothesis Hin : 2 * n <= zlen input.
Hypothesis Htp : 2 * n <= zlen taps.

Lemma odd_tail f :
  (if n mod 2 =? 0 then 0 else f (n - 1))
  = zsum f (2 * (n / 2)) (Z.to_nat (n mod 2)).
Proof.
  pose proof (Z.div_mod n 2 ltac:(lia)).
  pose proof (Z.mod_pos_bound n 2 ltac:(lia)).
  destruct (Z.eqb_spec (n mod 2) 0) as [He|He].
  - rewrite He. reflexivity.
  - replace (n mod 2) with 1 by lia. change (Z.to_nat 1) with 1%nat.
    rewrite zsum_1. f_equal. lia.
Qed.

Lemma generic_exact :
  exists m,
    run (volk_32fc_x2_dot_prod_32fc_generic input taps n) r0 = Some m
    /\ result m = dot_product n.
Proof.
  destruct (generic_run input taps generic_inv n r0 Hn Hin Htp)
    as (m & s & Hr & (Hre & Him) & Hres & _).
  - split; reflexivity.
  - intros j s _. apply generic_inv_step.
  - exists m. split; [exact Hr|]. rewrite Hres.
    destruct s as [[s00 s01] [s10 s11]]. cbn [fst snd] in *.
    unfold generic_result, dot_product. cbn [fst snd].
    rewrite (zsum_blocks re_at 2 n), (zsum_blocks im_at 2 n) by lia.
    rewrite <- Hre, <- Him, <- !odd_tail.
    destruct (n mod 2 =? 0).
    + z_ops. f_equal; lia.
    + rewrite prod_it_exact. unfold cadd, lv_cmake. cbn [fst snd]. z_ops.
      reflexivity.
Qed.

Lemma sse3_exact acc :
  sse3_inv (Z.to_nat (n / 2)) acc -> sse3_result input taps n acc = dot_product n.
Proof.
  intros (Hlen & Hre & Him). revert Hlen Hre Him.
  explode4 acc. cbn [lane nth]. intros Hre Him.
  unfold sse3_result, dot_product.
  rewrite (zsum_blocks re_at 2 n), (zsum_blocks im_at 2 n) by lia.
  rewrite <- Hre, <- Him, <- !odd_tail.
  unfold cadd, czero, cplx_of, lv_cmake. cbn [fst snd lane nth Nat.mul Nat.add].
  destruct (n mod 2 =? 0).
  - z_ops. f_equal; lia.
  - rewrite prod_it_exact. cbn [fst snd]. z_ops. f_equal; lia.
Qed.

Lemma u_sse3_exact :
  exists m,
    run (volk_32fc_x2_dot_prod_32fc_u_sse3 input taps n) r0 = Some m
    /\ result m = dot_product n.
Proof.
  destruct (u_sse3_run input taps n r0 Hn Hin Htp sse3_inv)
    as (m & Hr & acc & Hinv & Hres & _).
  - repeat split.
  - intros j acc _. apply sse3_inv_step.
  - exists m. split; [exact Hr|]. rewrite Hres. now apply sse3_exact.
Qed.

Lemma a_sse3_exact :
  n < 2 ^ 29 ->
  exists m,
    run (volk_32fc_x2_dot_prod_32fc_a_sse3 input taps n) r0 = Some m
    /\ result m = dot_product n.
Proof.
  intros Hlt.
  assert (Hc : ((n * 8) mod 2 ^ 32) / 16 = n / 2).
  { change (2 ^ 32) with 4294967296 in *. change (2 ^ 29) with 536870912 in *.
    Z.to_euclidean_division_equations; lia. }
  destruct (a_sse3_run input taps n r0 Hn Hin Htp sse3_inv)
    as (m & Hr & acc & Hinv & Hres & _).
  - repeat split.
  - intros j acc _. apply sse3_inv_step.
  - exists m. split; [exact Hr|]. rewrite Hres. rewrite Hc in Hinv.
    now apply sse3_exact.
Qed.

Lemma avx_exact acc :
  avx_inv (Z.to_nat (n / 4)) acc -> avx_result input taps n acc = dot_product n.
Proof.
  intros (Hlen & Hre & Him). revert Hlen Hre Him.
  explode8 acc. cbn [lane nth]. intros Hre Him.
  pose proof (Z.div_mod n 4 ltac:(lia)).
  unfold avx_result, dot_product.
  rewrite (tail_sum_exact _ _ _ _ prod_it_exact).
  rewrite (zsum_blocks re_at 4 n), (zsum_blocks im_at 4 n) by lia.
  rewrite <- Hre, <- Him.
  replace (n - n mod 4) with (4 * (n / 4)) by lia.
  unfold cadd, czero, cplx_of, lv_cmake. cbn [fst snd lane nth Nat.mul Nat.add].
  z_ops. f_equal; lia.
Qed.

Lemma u_avx_exact :
  exists m,
    run (volk_32fc_x2_dot_prod_32fc_u_avx input taps n) r0 = Some m
    /\ result m = dot_product n.
Proof.
  destruct (u_avx_run input taps n r0 Hn Hin Htp avx_inv)
    as (m & Hr & acc & Hinv & Hres & _).
  - repeat split.
  - intros j acc _. apply avx_inv_step.
  - exists m. split; [exact Hr|]. rewrite Hres. now apply avx_exact.
Qed.

Lemma u_avx_fma_exact :
  exists m,
    run (volk_32fc_x2_dot_prod_32fc_u_avx_fma input taps n) r0 = Some m
    /\ result m = dot_product n.
Proof.
  destruct (u_avx_fma_run input taps n r0 Hn Hin Htp avx_inv)
    as (m & Hr & acc & Hinv & Hres & _).
  - repeat split.
  - intros j acc _. apply avx_fma_inv_step.
  - exists m. split; [exact Hr|]. rewrite Hres. now apply avx_exact.
Qed.

Lemma neon_exact (B : Z) acc :
  0 < B ->
  length (fst acc) = 4%nat -> length (snd acc) = 4%nat ->
  vsum (fst acc) = zsum re_at 0 (Z.to_nat (B * Z.of_nat (Z.to_nat (n / B)))) ->
  vsum (snd acc) = zsum im_at 0 (Z.to_nat (B * Z.of_nat (Z.to_nat (n / B)))) ->
  neon_result input taps B n acc = dot_product n.
Proof.
  destruct acc as [r i]. cbn [fst snd]. intros HB Hr Hi. revert Hr Hi.
  explode4 r. explode4 i. cbn [vsum fold_right]. intros Hre Him.
  unfold neon_result, dot_product.
  rewrite (tail_sum_exact _ _ _ _ prod_ti_exact).
  rewrite (zsum_blocks re_at B n), (zsum_blocks im_at B n) by lia.
  rewrite <- Hre, <- Him.
  unfold cadd, vst2q, lv_cmake. cbn [fst snd lane nth]. z_ops.
  f_equal; lia.
Qed.

Lemma neon_variant_exact :
  exists m,
    run (volk_32fc_x2_dot_prod_32fc_neon input taps n) r0 = Some m
    /\ result m = dot_product n.
Proof.
  destruct (neon_run input taps n r0 Hn Hin Htp neon_inv)
    as (m & Hr & acc & (H1 & H2 & Hre & Him) & Hres & _).
  - repeat split.
  - intros j acc _. apply neon_inv_step.
  - exists m. split; [exact Hr|]. rewrite Hres.
    apply neon_exact; try assumption; lia.
Qed.

Lemma neon_opttests_exact :
  exists m,
    run (volk_32fc_x2_dot_prod_32fc_neon_opttests input taps n) r0 = Some m
    /\ result m = dot_product n.
Proof.
  destruct (neon_opttests_run input taps n r0 Hn Hin Htp neon_inv)
    as (m & Hr & acc & (H1 & H2 & Hre & Him) & Hres & _).
  - repeat split.
  - intros j acc _. apply neon_opttests_inv_step.
  - exists m. split; [exact Hr|]. rewrite Hres.
    apply neon_exact; try assumption; lia.
Qed.

Lemma neon_optfma_exact :
  exists m,
    run (volk_32fc_x2_dot_prod_32fc_neon_optfma input taps n) r0 = Some m
    /\ result m = dot_product n.
Proof.
  destruct (neon_optfma_run input taps n r0 Hn Hin Htp neon_optfma_inv)
    as (m & Hr & acc & Hinv & Hres & _).
  - repeat split.
  - intros j acc _. apply neon_optfma_inv_step.
  - exists m. split; [exact Hr|]. rewrite Hres.
    destruct acc as [[a10 a11] [a20 a21]].
    destruct Hinv as (H1 & H2 & H3 & H4 & Hre & Him). cbn [fst snd] in *.
    revert H1 H2 H3 H4 Hre Him.
    explode4 a10. explode4 a11. explode4 a20. explode4 a21.
    cbn [vsum fold_right]. intros Hre Him.
    apply neon_exact; try lia; try reflexivity;
      unfold optfma_reduce; neon_ops; z_ops; lia.
Qed.

Lemma neon_optfmaunroll_exact :
  exists m,
    run (volk_32fc_x2_dot_prod_32fc_neon_optfmaunroll input taps n) r0
    = Some m
    /\ result m = dot_product n.
Proof.
  destruct (neon_optfmaunroll_run input taps n r0 Hn Hin Htp
              neon_optfmaunroll_inv) as (m & Hr & acc & Hinv & Hres & _).
  - repeat split.
  - intros j acc _. apply neon_optfmaunroll_inv_step.
  - exists m. split; [exact Hr|]. rewrite Hres.
    destruct acc as [[[[a10 a11] a12] a13] [[[a20 a21] a22] a23]].
    unfold neon_optfmaunroll_inv, x4_lengths in Hinv. cbn [fst snd] in Hinv.
    destruct Hinv as ((H1 & H2 & H3 & H4) & (H5 & H6 & H7 & H8) & Hre & Him).
    revert H1 H2 H3 H4 H5 H6 H7 H8 Hre Him.
    explode4 a10. explode4 a11. explode4 a12. explode4 a13.
    explode4 a20. explode4 a21. explode4 a22. explode4 a23.
    cbn [vsum fold_right]. intros Hre Him.
    apply neon_exact; try lia; try reflexivity;
      unfold optfmaunroll_reduce; neon_ops; z_ops; lia.
Qed.

Lemma variant_exact (v : variant) :
  (v = a_sse3 -> n < 2 ^ 29) ->
  exists m,
    run (kernel v input taps n) r0 = Some m /\ result m = dot_product n.
Proof.
  intros Ha. destruct v; cbn [kernel].
  - apply generic_exact.
  - apply u_sse3_exact.
  - apply u_avx_exact.
  - apply u_avx_fma_exact.
  - apply a_sse3_exact. now apply Ha.
  - apply neon_variant_exact.
  - apply neon_opttests_exact.
  - apply neon_optfma_exact.
  - apply neon_optfmaunroll_exact.
  - rewrite run_a_avx. apply u_avx_exact.
  - rewrite run_a_avx_fma. apply u_avx_fma_exact.
Qed.
End Result.
End Exact.
End DotProdExact.

(* ===================================================================== *)
(** * The dot-product kernels: the claims *)
(* ===================================================================== *)

Module DotProdClaims.
Import DotProd DotProdFacts B32Facts DotProdExact.
Import DeinterleaveClaims.

Section AnyFloat.
Context {F : Type} {FO : FloatOps F}.
Variables input taps : list F.

(** The assignments to [*result] a variant makes after the first one: one
    for each sample of its tail when the tail accumulates in [*result]. *)
Definition tail_updates (v : variant) (n : Z) : Z :=
  match v with
  | generic => n mod 2
  | neon | neon_opttests | neon_optfma => n mod 4
  | neon_optfmaunroll => n mod 8
  | u_sse3 | a_sse3 | u_avx | u_avx_fma | a_avx | a_avx_fma => 0
  end.

Lemma variant_stores v n r0 :
  0 <= n < 2 ^ 32 -> 2 * n <= zlen input -> 2 * n <= zlen taps ->
  exists m,
    run (kernel v input taps n) r0 = Some m
    /\ st_idx (trace m) = stores (Z.to_nat (1 + tail_updates v n)).
Proof.
  intros Hn Hin Htp.
  pose (T := fun A : Type => fun (_ : nat) (_ : A) => True).
  destruct v; cbn [kernel tail_updates].
  - destruct (generic_run input taps (T _) n r0) as (m & s & Hr & _ & _ & Hs);
      unfold T; auto. eauto.
  - destruct (u_sse3_run input taps n r0 Hn Hin Htp (T _))
      as (m & Hr & acc & _ & _ & Hs); unfold T; auto. eauto.
  - destruct (u_avx_run input taps n r0 Hn Hin Htp (T _))
      as (m & Hr & acc & _ & _ & Hs); unfold T; auto. eauto.
  - destruct (u_avx_fma_run input taps n r0 Hn Hin Htp (T _))
      as (m & Hr & acc & _ & _ & Hs); unfold T; auto. eauto.
  - destruct (a_sse3_run input taps n r0 Hn Hin Htp (T _))
      as (m & Hr & acc & _ & _ & Hs); unfold T; auto. eauto.
  - destruct (neon_run input taps n r0 Hn Hin Htp (T _))
      as (m & Hr & acc & _ & _ & Hs); unfold T; auto. eauto.
  - destruct (neon_opttests_run input taps n r0 Hn Hin Htp (T _))
      as (m & Hr & acc & _ & _ & Hs); unfold T; auto. eauto.
  - destruct (neon_optfma_run input taps n r0 Hn Hin Htp (T _))
      as (m & Hr & acc & _ & _ & Hs); unfold T; auto. eauto.
  - destruct (neon_optfmaunroll_run input taps n r0 Hn Hin Htp (T _))
      as (m & Hr & acc & _ & _ & Hs); unfold T; auto. eauto.
  - rewrite run_a_avx.
    destruct (u_avx_run input taps n r0 Hn Hin Htp (T _))
      as (m & Hr & acc & _ & _ & Hs); unfold T; auto. eauto.
  - rewrite run_a_avx_fma.
    destruct (u_avx_fma_run input taps n r0 Hn Hin Htp (T _))
      as (m & Hr & acc & _ & _ & Hs); unfold T; auto. eauto.
Qed.
End AnyFloat.

(** ** Concrete inputs *)

Definition r_old : lv_32fc_t (F := B32.float) := (B32.of_Z 77, B32.of_Z 78).

(** Four products [2^24], [1], [-2^24] and [0]. *)
Definition cancelling : list B32.float :=
  samples [(16777216, 0); (1, 0); (-16777216, 0); (0, 0)].
Definition ones : list B32.float :=
  samples [(1, 0); (1, 0); (1, 0); (1, 0)].

(** C4 (as stated, it fails): with one sample the generic variant assigns
    [*result] twice, the sum of its (empty) main loop first and that sum
    plus the product of the last sample next. *)
Lemma dot_prod_generic_stores_result_twice :
  exists m,
    run (kernel generic (sample 3 4) (sample 5 6) 1) r_old = Some m
    /\ st_idx (trace m) = [0; 1; 0; 1]
    /\ st_idx (trace m) <> stores 1.
Proof.
  eexists. split; [vm_compute; reflexivity|]. split; [reflexivity|].
  vm_compute. discriminate.
Qed.

(** C4 (amended): every variant runs to completion and its only writes to
    caller memory are assignments to [*result] (both floats): the SSE3 and
    AVX variants make one, after reducing in local state; the generic
    variant makes one more when [num_points] is odd, and the NEON variants
    make one more for each of the [num_points mod 4] ([mod 8] for
    [neon_optfmaunroll]) samples of their tail. *)
Theorem dot_prod_result_stores (v : variant) (input taps : list B32.float)
  (num_points : Z) (r0 : lv_32fc_t) :
  0 <= num_points < 2 ^ 32 ->
  2 * num_points <= zlen input -> 2 * num_points <= zlen taps ->
  exists m,
    run (kernel v input taps num_points) r0 = Some m
    /\ st_idx (trace m)
       = stores (Z.to_nat (1 + tail_updates v num_points)).
Proof. apply variant_stores. Qed.

Lemma dot_prod_result_stores_witness :
  exists m,
    run (kernel neon cancelling ones 3) r_old = Some m
    /\ st_idx (trace m) = stores (Z.to_nat (1 + tail_updates neon 3)).
Proof.
  apply (dot_prod_result_stores neon cancelling ones 3 r_old);
    vm_compute; intuition discriminate.
Defined.

Lemma dot_prod_zero_points (v : variant) (input taps : list B32.float)
  (r0 : lv_32fc_t) :
  run (kernel v input taps 0) r0
  = Some (Mem (S754_zero false, S754_zero false) [StRes 0; StRes 1]).
Proof. destruct r0 as [re im]. destruct v; reflexivity. Qed.

Lemma deinterleave_zero_points (v : Deinterleave.variant)
  (complexVector : list B32.float) (scalar : B32.float)
  (iBuffer0 : list Z) :
  Deinterleave.run (Deinterleave.kernel v complexVector scalar 0) iBuffer0
  = Some (Deinterleave.Mem iBuffer0 []).
Proof. destruct v; reflexivity. Qed.

(** C5: with [num_points = 0] every dot-product variant stores the complex
    zero to [*result] and makes no other access (no float of [input] or
    [taps] is read), and every deinterleave variant returns without any
    access, leaving [iBuffer] as it was; this holds whatever the buffers
    are, the empty ones included. *)
Theorem zero_points_identity :
  (forall (v : variant) (input taps : list B32.float) (r0 : lv_32fc_t),
     exists m,
       run (kernel v input taps 0) r0 = Some m
       /\ result m = czero
       /\ trace m = [StRes 0; StRes 1]
       /\ ld_events (trace m) = [])
  /\ (forall (v : Deinterleave.variant) (complexVector : list B32.float)
        (scalar : B32.float) (iBuffer0 : list Z),
        exists m,
          Deinterleave.run (Deinterleave.kernel v complexVector scalar 0)
            iBuffer0 = Some m
          /\ Deinterleave.ibuf m = iBuffer0
          /\ Deinterleave.trace m = []).
Proof.
  split.
  - intros v input taps r0. eexists. split; [apply dot_prod_zero_points|].
    repeat split.
  - intros v cv scalar ibuf0. eexists.
    split; [apply deinterleave_zero_points|]. split; reflexivity.
Qed.

(** C7 (what the code does at the failing input): with
    [num_points = 2^29] the byte count [num_points * 8] of the aligned SSE3
    variant wraps to 0, its main loop runs zero times, and since
    [num_points] is even the variant stores the complex zero without
    reading any sample, whatever the buffers hold. *)
Theorem a_sse3_drops_all_samples_at_2_29 (input taps : list B32.float)
  (r0 : lv_32fc_t) :
  u32_shr (u32_mul (2 ^ 29) 8) 4 = 0
  /\ u32_div (2 ^ 29) 2 = 2 ^ 28
  /\ run (volk_32fc_x2_dot_prod_32fc_a_sse3 input taps (2 ^ 29)) r0
     = Some (Mem (S754_zero false, S754_zero false) [StRes 0; StRes 1]).
Proof.
  split; [reflexivity|]. split; [reflexivity|].
  destruct r0 as [re im]. reflexivity.
Qed.

(** C10: the main loop of the aligned SSE3 variant runs
    [((num_points * 8) mod 2^32) / 16] times; this is [num_points / 2], the
    count of the unaligned variant, exactly when [num_points < 2^29]; and
    for such [num_points] the two variants behave alike on the same
    inputs: same result in [*result], same accesses. *)
Theorem a_sse3_loop_count (num_points : Z) :
  0 <= num_points < 2 ^ 32 ->
  (forall (input taps : list B32.float),
     volk_32fc_x2_dot_prod_32fc_a_sse3 input taps num_points
     = ('(_, _, dotProdVal) <-
          for_loop 0 (((num_points * 8) mod 2 ^ 32) / 16)
            (sse3_body (_mm_load_ps input taps)) (0, 0, _mm_setzero_ps) ;;
        sse3_finish input taps num_points (u32_and num_points 1)
          dotProdVal))
  /\ (forall (input taps : list B32.float),
        volk_32fc_x2_dot_prod_32fc_u_sse3 input taps num_points
        = ('(_, _, dotProdVal) <-
             for_loop 0 (num_points / 2)
               (sse3_body (_mm_loadu_ps input taps))
               (0, 0, _mm_setzero_ps) ;;
           sse3_finish input taps num_points (u32_and num_points 1)
             dotProdVal))
  /\ (((num_points * 8) mod 2 ^ 32) / 16 = num_points / 2
      <-> num_points < 2 ^ 29)
  /\ (num_points < 2 ^ 29 ->
      forall (input taps : list B32.float) (r0 : lv_32fc_t),
        run (volk_32fc_x2_dot_prod_32fc_a_sse3 input taps num_points) r0
        = run (volk_32fc_x2_dot_prod_32fc_u_sse3 input taps num_points) r0).
Proof.
  intros Hn.
  assert (Hiff : ((num_points * 8) mod 2 ^ 32) / 16 = num_points / 2
                 <-> num_points < 2 ^ 29).
  { change (2 ^ 32) with 4294967296 in *. change (2 ^ 29) with 536870912.
    Z.to_euclidean_division_equations; lia. }
  split; [|split; [|split; [exact Hiff|]]].
  - intros input taps. unfold volk_32fc_x2_dot_prod_32fc_a_sse3. cbv zeta.
    now rewrite a_sse3_halfPoints.
  - reflexivity.
  - intros Hlt input taps r0.
    rewrite (run_ext _ _ r0
               (fun s => a_sse3_unaligned input taps num_points s
                           (aligned_for_aligned a_sse3))).
    unfold volk_32fc_x2_dot_prod_32fc_u_sse3. cbv zeta.
    rewrite a_sse3_halfPoints. rewrite (proj2 Hiff Hlt). reflexivity.
Qed.

Lemma a_sse3_loop_count_witness :
  (((5 * 8) mod 2 ^ 32) / 16 = 5 / 2 <-> 5 < 2 ^ 29)
  /\ run (volk_32fc_x2_dot_prod_32fc_a_sse3 cancelling ones 3) r_old
     = run (volk_32fc_x2_dot_prod_32fc_u_sse3 cancelling ones 3) r_old.
Proof.
  split.
  - apply (a_sse3_loop_count 5). lia.
  - apply (a_sse3_loop_count 3); lia.
Defined.


(** ** One sample *)

Lemma cmul_comm (x y : lv_32fc_t (F := B32.float)) : cmul x y = cmul y x.
Proof.
  destruct x as [a b], y as [c d]. unfold cmul, lv_cmake.
  cbn [fmul fadd fsub b32_ops].
  rewrite (mul_comm c a), (mul_comm d b), (mul_comm c b), (mul_comm d a).
  now rewrite (add_comm (B32.mul b c)).
Qed.

Lemma prod_ti_it (input taps : list B32.float) i :
  prod_ti input taps i = prod_it input taps i.
Proof. apply cmul_comm. Qed.

(** With at most one sample no main loop iterates: the accumulators are
    still the zeros they were initialised to. *)
Definition untouched {A : Type} (acc0 : A) : nat -> A -> Prop :=
  fun _ acc => acc = acc0.

Lemma untouched_step {A : Type} (acc0 : A) (k : Z) (f : nat -> A -> A) :
  0 <= k < 1 ->
  forall j acc, (j < Z.to_nat k)%nat -> untouched acc0 j acc ->
                untouched acc0 (S j) (f j acc).
Proof. intros Hk j acc Hj. lia. Qed.

Lemma one_point_result (v : variant) (input taps : list B32.float) r0 :
  2 <= zlen input -> 2 <= zlen taps ->
  exists m,
    run (kernel v input taps 1) r0 = Some m
    /\ result m = cadd czero (prod_it input taps 0).
Proof.
  intros Hin Htp.
  assert (Hn : 0 <= 1 < 2 ^ 32) by lia.
  assert (Hin' : 2 * 1 <= zlen input) by lia.
  assert (Htp' : 2 * 1 <= zlen taps) by lia.
  destruct v; cbn [kernel].
  - destruct (generic_run input taps (untouched _) 1 r0 Hn Hin' Htp' eq_refl)
      as (m & s & Hr & -> & Hres & _).
    { intros j s Hj. change (Z.to_nat (1 / 2)) with O in Hj. lia. }
    exists m. split; [exact Hr|]. rewrite Hres. reflexivity.
  - destruct (u_sse3_run input taps 1 r0 Hn Hin' Htp' (untouched _) eq_refl)
      as (m & Hr & acc & -> & Hres & _).
    { intros j s Hj. change (Z.to_nat (1 / 2)) with O in Hj. lia. }
    exists m. split; [exact Hr|]. rewrite Hres. reflexivity.
  - destruct (u_avx_run input taps 1 r0 Hn Hin' Htp' (untouched _) eq_refl)
      as (m & Hr & acc & -> & Hres & _).
    { intros j s Hj. change (Z.to_nat (1 / 4)) with O in Hj. lia. }
    exists m. split; [exact Hr|]. rewrite Hres. reflexivity.
  - destruct (u_avx_fma_run input taps 1 r0 Hn Hin' Htp' (untouched _) eq_refl)
      as (m & Hr & acc & -> & Hres & _).
    { intros j s Hj. change (Z.to_nat (1 / 4)) with O in Hj. lia. }
    exists m. split; [exact Hr|]. rewrite Hres. reflexivity.
  - destruct (a_sse3_run input taps 1 r0 Hn Hin' Htp' (untouched _) eq_refl)
      as (m & Hr & acc & -> & Hres & _).
    { intros j s Hj. change (Z.to_nat (1 * 8 mod 2 ^ 32 / 16)) with O in Hj.
      lia. }
    exists m. split; [exact Hr|]. rewrite Hres. reflexivity.
  - destruct (neon_run input taps 1 r0 Hn Hin' Htp' (untouched _) eq_refl)
      as (m & Hr & acc & -> & Hres & _).
    { intros j s Hj. change (Z.to_nat (1 / 4)) with O in Hj. lia. }
    exists m. split; [exact Hr|]. rewrite Hres, <- prod_ti_it. reflexivity.
  - destruct (neon_opttests_run input taps 1 r0 Hn Hin' Htp' (untouched _)
                eq_refl) as (m & Hr & acc & -> & Hres & _).
    { intros j s Hj. change (Z.to_nat (1 / 4)) with O in Hj. lia. }
    exists m. split; [exact Hr|]. rewrite Hres, <- prod_ti_it. reflexivity.
  - destruct (neon_optfma_run input taps 1 r0 Hn Hin' Htp' (untouched _)
                eq_refl) as (m & Hr & acc & -> & Hres & _).
    { intros j s Hj. change (Z.to_nat (1 / 4)) with O in Hj. lia. }
    exists m. split; [exact Hr|]. rewrite Hres, <- prod_ti_it. reflexivity.
  - destruct (neon_optfmaunroll_run input taps 1 r0 Hn Hin' Htp' (untouched _)
                eq_refl) as (m & Hr & acc & -> & Hres & _).
    { intros j s Hj. change (Z.to_nat (1 / 8)) with O in Hj. lia. }
    exists m. split; [exact Hr|]. rewrite Hres, <- prod_ti_it. reflexivity.
  - destruct (u_avx_run input taps 1 r0 Hn Hin' Htp' (untouched _) eq_refl)
      as (m & Hr & acc & -> & Hres & _).
    { intros j s Hj. change (Z.to_nat (1 / 4)) with O in Hj. lia. }
    exists m. split; [exact Hr|]. rewrite Hres. reflexivity.
  - destruct (u_avx_fma_run input taps 1 r0 Hn Hin' Htp' (untouched _) eq_refl)
      as (m & Hr & acc & -> & Hres & _).
    { intros j s Hj. change (Z.to_nat (1 / 4)) with O in Hj. lia. }
    exists m. split; [exact Hr|]. rewrite Hres. reflexivity.
Qed.


(** C3 (as stated, it fails): with the one sample [input[0] = -1 + 0i] and
    [taps[0] = 0 + 0i] the product [(ac - bd) + (ad + bc)i] is [-0 + 0i],
    and every variant leaves [+0 + 0i] in [*result]: the product is added to
    a zero, and [0 + (-0)] is [+0].  What is stored is not, bit for bit, the
    single complex product. *)
Lemma dot_prod_one_point_is_not_the_product :
  cmul (cnth (sample (-1) 0) 0) (cnth (sample 0 0) 0)
  = (S754_zero true, S754_zero false)
  /\ forall v : variant,
       option_map result
         (run (kernel v (sample (-1) 0) (sample 0 0) 1) r_old)
       = Some (S754_zero false, S754_zero false).
Proof.
  split; [vm_compute; reflexivity|].
  intros v. destruct v; vm_compute; reflexivity.
Qed.

(** C3 (amended): with every operation rounded to binary32 on its own, for
    [num_points] 0 and 1 every variant leaves in [*result] the very value
    the generic variant leaves (equal floats, component by component): the
    complex zero for 0, and for 1 the single product
    [input[0] * taps[0] = (ac - bd) + (ad + bc)i] added to zero, which is
    that product with a component that is a negative zero stored as the
    positive zero. *)
Theorem dot_prod_exact_up_to_one_point (v : variant)
  (input taps : list B32.float) (num_points : Z) (r0 : lv_32fc_t) :
  num_points = 0 \/ num_points = 1 ->
  2 * num_points <= zlen input -> 2 * num_points <= zlen taps ->
  exists m mg,
    run (kernel v input taps num_points) r0 = Some m
    /\ run (kernel generic input taps num_points) r0 = Some mg
    /\ result m = result mg
    /\ (num_points = 0 -> result mg = czero)
    /\ (num_points = 1 ->
        let p := cmul (cnth input 0) (cnth taps 0) in
        result mg = cadd czero p
        /\ result mg = (pos_zero (fst p), pos_zero (snd p))).
Proof.
  intros [-> | ->] Hin Htp.
  - exists (Mem (S754_zero false, S754_zero false) [StRes 0; StRes 1]).
    exists (Mem (S754_zero false, S754_zero false) [StRes 0; StRes 1]).
    rewrite !dot_prod_zero_points. split; [reflexivity|]. split; [reflexivity|].
    split; [reflexivity|]. split; [reflexivity|].
    intros Hne. discriminate Hne.
  - destruct (one_point_result v input taps r0) as (m & Hr & Hres); try lia.
    destruct (one_point_result generic input taps r0) as (mg & Hrg & Hresg);
      try lia.
    exists m, mg. split; [exact Hr|]. split; [exact Hrg|].
    split; [congruence|]. split; [intros Hne; discriminate Hne|].
    intros _. cbv zeta. split; [exact Hresg|].
    rewrite Hresg. unfold prod_it, cadd, czero, lv_cmake. cbn [fst snd].
    cbn [fadd fzero b32_ops]. now rewrite !add_zero_l.
Qed.

Lemma dot_prod_exact_up_to_one_point_witness :
  exists m mg,
    run (kernel neon_optfma (sample 3 4) (sample (-1) 2) 1) r_old = Some m
    /\ run (kernel generic (sample 3 4) (sample (-1) 2) 1) r_old = Some mg
    /\ result m = result mg
    /\ (1 = 0 -> result mg = czero)
    /\ (1 = 1 ->
        let p := cmul (cnth (sample 3 4) 0) (cnth (sample (-1) 2) 0) in
        result mg = cadd czero p
        /\ result mg = (pos_zero (fst p), pos_zero (snd p))).
Proof.
  apply (dot_prod_exact_up_to_one_point neon_optfma (sample 3 4)
           (sample (-1) 2) 1 r_old).
  - right. reflexivity.
  - vm_compute. discriminate.
  - vm_compute. discriminate.
Defined.

(** [(3 + 4i)(-1 + 2i) = -11 + 2i]. *)
Example one_point_value :
  option_map result (run (kernel neon_optfma (sample 3 4) (sample (-1) 2) 1)
                       r_old)
  = Some (B32.of_Z (-11), B32.of_Z 2).
Proof. vm_compute. reflexivity. Qed.


(** ** Tolerance *)





Definition exact_input : list Z :=
  [1; 2; 3; 4; 5; 6; 7; 8; 9; 10; 11; 12; 13; 14; 15; 16; 17; 18; 19; 20;
   21; 22].
Definition exact_taps : list Z :=
  [1; -2; 3; 4; -5; 6; 7; 8; 9; 10; 1; 2; 3; 4; 5; 6; 7; 8; 9; 10; 11; -3].


Example exact_dot_product :
  dot_product exact_input exact_taps 11 = (95, 1425).
Proof. reflexivity. Qed.

End DotProdClaims.

(* ===================================================================== *)
(** * More facts about loops and buffers *)
(* ===================================================================== *)

Section LoopFacts.
Context {St : Type}.

(** Two loops whose bodies do the same do the same. *)
Lemma for_range_ext {L} k i (body1 body2 : Z -> L -> M (St := St) L) l s :
  (forall j l s, body1 j l s = body2 j l s) ->
  for_range k i body1 l s = for_range k i body2 l s.
Proof.
  intros H. revert i l s. induction k as [|k IH]; intros i l s;
    cbn [for_range]; [reflexivity|].
  unfold bind. rewrite H. destruct (body2 i l s) as [[l' s']|]; auto.
Qed.
End LoopFacts.

Section PointerFacts.
Context {A : Type}.
Implicit Types (l : list A) (i k : Z).

(** The buffer a pointer to complex samples points to once it is advanced
    by [k] samples ([2 * k] floats). *)
Definition advance (k : Z) (l : list A) : list A :=
  skipn (Z.to_nat (2 * k)) l.

Lemma zlen_skipn l k :
  0 <= k <= zlen l -> zlen (skipn (Z.to_nat k) l) = zlen l - k.
Proof. unfold zlen. rewrite length_skipn. lia. Qed.

Lemma zlen_firstn l k : 0 <= k <= zlen l -> zlen (firstn (Z.to_nat k) l) = k.
Proof. unfold zlen. rewrite length_firstn. lia. Qed.

Lemma zlen_advance k l :
  0 <= k -> 2 * k <= zlen l -> zlen (advance k l) = zlen l - 2 * k.
Proof. intros. unfold advance. apply zlen_skipn. lia. Qed.

Lemma znth_advance d k l i :
  0 <= k -> 0 <= i -> znth d (advance k l) i = znth d l (2 * k + i).
Proof.
  intros Hk Hi. unfold znth, advance. rewrite nth_skipn. f_equal. lia.
Qed.

Lemma zth_skipn l k i :
  0 <= k -> 0 <= i -> zth (skipn (Z.to_nat k) l) i = zth l (k + i).
Proof.
  intros Hk Hi. unfold zth.
  destruct (Z.ltb_spec i 0); [lia|]. destruct (Z.ltb_spec (k + i) 0); [lia|].
  rewrite nth_error_skipn. f_equal. lia.
Qed.

Lemma zth_app_l l1 l2 i : i < zlen l1 -> zth (l1 ++ l2) i = zth l1 i.
Proof.
  unfold zth, zlen. intros H. destruct (Z.ltb_spec i 0); [reflexivity|].
  apply nth_error_app1. lia.
Qed.

Lemma zth_app_r l1 l2 i :
  zlen l1 <= i -> zth (l1 ++ l2) i = zth l2 (i - zlen l1).
Proof.
  unfold zth, zlen. intros H.
  destruct (Z.ltb_spec i 0); [lia|].
  destruct (Z.ltb_spec (i - Z.of_nat (length l1)) 0); [lia|].
  rewrite nth_error_app2 by lia. f_equal. lia.
Qed.

End PointerFacts.

(* ===================================================================== *)
(** * Binary32: sums are never the negative zero *)
(* ===================================================================== *)

Module B32Zero.
Import B32 B32Facts.

(** A float as a rounding leaves it: its exponent is not below the least
    exponent of the format, [emin = 3 - emax - prec = -149]. *)
Definition rounded (x : float) : Prop :=
  match x with
  | S754_finite _ _ e => -149 <= e
  | _ => True
  end.

Lemma fexp_ge e : -149 <= fexp prec emax e.
Proof. unfold fexp, emin, prec, emax. lia. Qed.

Lemma fexp_eq e : fexp prec emax e = Z.max (e - 24) (-149).
Proof. reflexivity. Qed.

Lemma shr_1_m mrs : 0 <= shr_m mrs -> shr_m (shr_1 mrs) = shr_m mrs / 2.
Proof.
  destruct mrs as [m r s]. cbn [shr_m]. intros Hm.
  destruct m as [|p|p]; [reflexivity| |lia].
  destruct p as [p|p|]; cbn [shr_1 shr_m].
  - rewrite Pos2Z.inj_xI. Z.to_euclidean_division_equations; lia.
  - rewrite Pos2Z.inj_xO. Z.to_euclidean_division_equations; lia.
  - reflexivity.
Qed.

Lemma iter_shr_1_m p mrs :
  0 <= shr_m mrs ->
  shr_m (iter_pos shr_1 p mrs) = shr_m mrs / 2 ^ Zpos p.
Proof.
  revert mrs. induction p as [p IH|p IH|]; intros mrs Hm; cbn [iter_pos].
  - assert (H1 : 0 <= shr_m (shr_1 mrs)).
    { rewrite shr_1_m by assumption. apply Z.div_pos; lia. }
    assert (H2 : 0 <= shr_m (iter_pos shr_1 p (shr_1 mrs))).
    { rewrite IH by assumption. apply Z.div_pos; lia. }
    rewrite IH, IH, shr_1_m by assumption.
    rewrite !Z.div_div by lia.
    f_equal. rewrite Pos2Z.inj_xI, Z.pow_add_r, Z.pow_mul_r by lia.
    change (2 ^ 2) with 4. change (2 ^ 1) with 2.
    rewrite <- Z.pow_add_r by lia.
    replace (Z.pos p + Z.pos p) with (2 * Z.pos p) by lia.
    rewrite Z.pow_mul_r by lia. change (2 ^ 2) with 4. lia.
  - assert (H2 : 0 <= shr_m (iter_pos shr_1 p mrs)).
    { rewrite IH by assumption. apply Z.div_pos; lia. }
    rewrite IH, IH by assumption.
    rewrite !Z.div_div by lia. f_equal.
    rewrite Pos2Z.inj_xO, <- Z.pow_add_r by lia. f_equal. lia.
  - rewrite shr_1_m by assumption. reflexivity.
Qed.

Lemma digits2_pos_bound p :
  2 ^ (Zpos (digits2_pos p) - 1) <= Zpos p < 2 ^ Zpos (digits2_pos p).
Proof.
  induction p as [p IH|p IH|]; cbn [digits2_pos].
  - rewrite Pos2Z.inj_succ, (Pos2Z.inj_xI p).
    replace (Z.succ (Zpos (digits2_pos p)) - 1)
      with (Zpos (digits2_pos p)) by lia.
    rewrite Z.pow_succ_r by lia.
    replace (2 ^ Zpos (digits2_pos p))
      with (2 * 2 ^ (Zpos (digits2_pos p) - 1)) in *
      by (rewrite <- Z.pow_succ_r by lia; f_equal; lia).
    lia.
  - rewrite Pos2Z.inj_succ, (Pos2Z.inj_xO p).
    replace (Z.succ (Zpos (digits2_pos p)) - 1)
      with (Zpos (digits2_pos p)) by lia.
    rewrite Z.pow_succ_r by lia.
    replace (2 ^ Zpos (digits2_pos p))
      with (2 * 2 ^ (Zpos (digits2_pos p) - 1)) in *
      by (rewrite <- Z.pow_succ_r by lia; f_equal; lia).
    lia.
  - simpl. lia.
Qed.

Lemma shr_m_of_loc m l : shr_m (shr_record_of_loc m l) = m.
Proof. destruct l as [|[| |]]; reflexivity. Qed.

(** Rounding a positive mantissa whose exponent is in the format leaves a
    positive mantissa, and an exponent in the format. *)
Lemma shr_fexp_pos p e l :
  -149 <= e ->
  0 < shr_m (fst (shr_fexp prec emax (Zpos p) e l))
  /\ -149 <= snd (shr_fexp prec emax (Zpos p) e l).
Proof.
  intros He. unfold shr_fexp, shr. cbn [Zdigits2]. rewrite fexp_eq.
  pose proof (digits2_pos_bound p) as Hd.
  set (d := Zpos (digits2_pos p)) in *.
  destruct (Z.max (d + e - 24) (-149) - e) as [|n|n] eqn:Hn; cbn [fst snd].
  - rewrite shr_m_of_loc. lia.
  - rewrite iter_shr_1_m by (rewrite shr_m_of_loc; lia).
    rewrite shr_m_of_loc. split; [|lia].
    assert (Hle : Zpos n <= d - 1) by lia.
    assert (2 ^ Zpos n <= 2 ^ (d - 1)) by (apply Z.pow_le_mono_r; lia).
    apply Z.div_str_pos. lia.
  - rewrite shr_m_of_loc. lia.
Qed.

(** Whatever is rounded, the exponent left is in the format. *)
Lemma shr_fexp_exponent m e l : -149 <= snd (shr_fexp prec emax m e l).
Proof.
  unfold shr_fexp, shr. rewrite fexp_eq.
  destruct (Z.max (Zdigits2 m + e - 24) (-149) - e) as [|n|n] eqn:Hn;
    cbn [snd]; lia.
Qed.

Lemma round_nearest_even_pos m l : 0 < m -> 0 < round_nearest_even m l.
Proof.
  intros Hm. destruct l as [|[| |]]; cbn [round_nearest_even]; try lia.
  destruct (Z.even m); lia.
Qed.

Lemma binary_round_aux_rounded s m e l :
  rounded (binary_round_aux prec emax s m e l).
Proof.
  unfold binary_round_aux.
  destruct (shr_fexp prec emax m e l) as [mrs' e'].
  pose proof (shr_fexp_exponent
                (round_nearest_even (shr_m mrs') (loc_of_shr_record mrs'))
                e' loc_Exact) as He.
  destruct (shr_fexp prec emax _ e' loc_Exact) as [mrs'' e''].
  cbn [snd] in He.
  destruct (shr_m mrs''); cbn [rounded]; auto.
  destruct (e'' <=? emax - prec); cbn [rounded]; auto.
Qed.

Lemma binary_round_aux_nonzero s p e s' :
  -149 <= e ->
  binary_round_aux prec emax s (Zpos p) e loc_Exact <> S754_zero s'.
Proof.
  intros He. unfold binary_round_aux.
  pose proof (shr_fexp_pos p e loc_Exact He) as [H1 H2].
  destruct (shr_fexp prec emax (Zpos p) e loc_Exact) as [mrs' e'].
  cbn [fst snd] in H1, H2.
  pose proof (round_nearest_even_pos _ (loc_of_shr_record mrs') H1) as Hr.
  destruct (round_nearest_even (shr_m mrs') (loc_of_shr_record mrs'))
    as [|p2|p2]; try lia.
  pose proof (shr_fexp_pos p2 e' loc_Exact H2) as [H3 H4].
  destruct (shr_fexp prec emax (Zpos p2) e' loc_Exact) as [mrs'' e''].
  cbn [fst snd] in H3.
  destruct (shr_m mrs''); try lia.
  destruct (e'' <=? emax - prec); discriminate.
Qed.

Lemma binary_round_rounded s p e : rounded (binary_round prec emax s p e).
Proof.
  unfold binary_round. destruct (shl_align _ _ _) as [mz ez].
  apply binary_round_aux_rounded.
Qed.

Lemma binary_round_nonzero s p e s' :
  -149 <= e -> binary_round prec emax s p e <> S754_zero s'.
Proof.
  intros He. unfold binary_round.
  destruct (shl_align p e (fexp prec emax (Zpos (digits2_pos p) + e)))
    as [mz ez] eqn:Ha.
  apply binary_round_aux_nonzero.
  pose proof (fexp_ge (Zpos (digits2_pos p) + e)).
  unfold shl_align in Ha.
  destruct (fexp prec emax (Zpos (digits2_pos p) + e) - e) eqn:Hd;
    injection Ha as <- <-; first [lia | exact H].
Qed.

Lemma binary_normalize_rounded m e sz :
  rounded (binary_normalize prec emax m e sz).
Proof.
  destruct m; cbn [binary_normalize rounded]; auto using binary_round_rounded.
Qed.

(** A sum or a difference that is not exactly zero does not round to
    zero, and an exact zero is the positive one. *)
Lemma binary_normalize_not_negative_zero m e :
  -149 <= e -> binary_normalize prec emax m e false <> S754_zero true.
Proof.
  intros He. destruct m; cbn [binary_normalize].
  - discriminate.
  - now apply binary_round_nonzero.
  - now apply binary_round_nonzero.
Qed.

Lemma mul_rounded x y : rounded (mul x y).
Proof.
  unfold mul. destruct x as [sx|sx| |sx mx ex], y as [sy|sy| |sy my ey];
    cbn [SFmul rounded]; auto.
  apply binary_round_aux_rounded.
Qed.

Lemma add_rounded x y : rounded x -> rounded y -> rounded (add x y).
Proof.
  unfold add. destruct x as [sx|sx| |sx mx ex], y as [sy|sy| |sy my ey];
    cbn [SFadd rounded]; auto; try (destruct sx, sy; cbn [rounded]; auto).
  all: intros _ _; apply binary_normalize_rounded.
Qed.

Lemma sub_rounded x y : rounded x -> rounded y -> rounded (sub x y).
Proof.
  unfold sub. destruct x as [sx|sx| |sx mx ex], y as [sy|sy| |sy my ey];
    cbn [SFsub rounded]; auto; try (destruct sx, sy; cbn [rounded]; auto).
  all: intros _ _; apply binary_normalize_rounded.
Qed.

(** A sum whose first term is not the negative zero is not the negative
    zero. *)
Lemma add_not_negative_zero x y :
  rounded x -> rounded y -> x <> S754_zero true ->
  add x y <> S754_zero true.
Proof.
  unfold add. destruct x as [sx|sx| |sx mx ex], y as [sy|sy| |sy my ey];
    cbn [SFadd rounded]; intros Hx Hy Hnz; try discriminate;
    try (destruct sx; discriminate); try (destruct sx, sy; discriminate).
  - destruct sx; [congruence|]. destruct sy; discriminate.
  - apply binary_normalize_not_negative_zero. lia.
Qed.

Lemma pos_zero_id x : x <> S754_zero true -> pos_zero x = x.
Proof.
  destruct x as [[|]|s| |s m e]; intros H; try reflexivity. congruence.
Qed.

Lemma add_zero_id x : x <> S754_zero true -> add (S754_zero false) x = x.
Proof. intros H. rewrite add_zero_l. now apply pos_zero_id. Qed.
End B32Zero.

(* ===================================================================== *)
(** * The deinterleave kernels: further properties *)
(* ===================================================================== *)

Module DeinterleaveProps.
Import Deinterleave DeinterleaveFacts DeinterleaveClaims B32Facts.

Local Abbreviation float := B32.float.

(** Two calls that store the same element for every sample leave the same
    buffer. *)
Lemma same_quant_same_buffer (cv : list float) (scalar : float)
  (ibuf0 : list Z) (q1 q2 : Z -> Z) n rds1 rds2 m1 m2 :
  dstate ibuf0 q1 n rds1 m1 -> dstate ibuf0 q2 n rds2 m2 ->
  (forall i, 0 <= i < n -> q1 i = q2 i) ->
  ibuf m1 = ibuf m2 /\ wr_idx (trace m1) = wr_idx (trace m2).
Proof.
  intros [Hlen1 Hdone1 Hrest1 Hwr1 _] [Hlen2 Hdone2 Hrest2 Hwr2 _] Hq.
  split; [|congruence].
  apply zth_ext. intros i.
  destruct (Z.lt_ge_cases i 0) as [Hneg|Hpos].
  - now rewrite !zth_neg.
  - destruct (Z.lt_ge_cases i n) as [Hlt|Hge].
    + rewrite Hdone1, Hdone2 by lia. f_equal. apply Hq. lia.
    + now rewrite Hrest1, Hrest2.
Qed.

(** X1: the SSE variant stores what the generic variant stores.  For every
    input, scalar and [num_points] the two calls leave the same [iBuffer]
    and write its elements in the same order: the SSE loop scales four real
    parts at once and converts each lane with the very [(int16_t)rintf(...)]
    of the scalar statement. *)
Theorem a_sse_stores_what_generic_stores (complexVector : list float)
  (scalar : float) (num_points : Z) (iBuffer0 : list Z) :
  0 <= num_points < 2 ^ 32 -> num_points <= zlen iBuffer0 ->
  2 * num_points <= zlen complexVector ->
  exists m mg,
    run (kernel a_sse complexVector scalar num_points) iBuffer0 = Some m
    /\ run (kernel generic complexVector scalar num_points) iBuffer0
       = Some mg
    /\ ibuf m = ibuf mg
    /\ wr_idx (trace m) = wr_idx (trace mg).
Proof.
  intros Hn Hout Hin.
  destruct (variant_spec complexVector scalar iBuffer0 a_sse num_points
              Hn Hout Hin) as (m & Hr & Hd).
  destruct (variant_spec complexVector scalar iBuffer0 generic num_points
              Hn Hout Hin) as (mg & Hrg & Hdg).
  exists m, mg. split; [exact Hr|]. split; [exact Hrg|].
  apply (same_quant_same_buffer complexVector scalar iBuffer0 _ _ _ _ _ _ _
           Hd Hdg).
  reflexivity.
Qed.

Lemma a_sse_stores_what_generic_stores_witness :
  exists m mg,
    run (kernel a_sse loud half 11) blank = Some m
    /\ run (kernel generic loud half 11) blank = Some mg
    /\ ibuf m = ibuf mg
    /\ wr_idx (trace m) = wr_idx (trace mg).
Proof.
  apply (a_sse_stores_what_generic_stores loud half 11 blank);
    vm_compute; intuition discriminate.
Defined.

(** What the AVX2 variants store for a sample whose real part is [re]:
    the nearest integer saturated in the blocks of eight, its low 16 bits in
    the tail. *)
Lemma quant_avx2_value (cv : list float) scalar n i re :
  0 <= i -> zth cv (2 * i) = Some re ->
  quant_avx2 cv scalar n i
  = if i <? 8 * (n / 8) then sat16 (B32.cvt_i32 (B32.mul re scalar))
    else wrap16 (B32.cvt_i32 (B32.mul re scalar)).
Proof.
  intros Hi Hre.
  assert (Hz : znth fzero cv (2 * i) = re).
  { pose proof (zth_Some _ _ _ Hre) as Hb.
    rewrite (zth_znth fzero) in Hre by assumption. congruence. }
  unfold quant_avx2, quant_packed, quant_scalar. rewrite Hz.
  cbn [f2i16 f2i32 frint fmul b32_ops]. now rewrite cast_i16_rint.
Qed.

(** X2: what the AVX2 variants store for the sample [i], whose real part is
    [re].  Inside the blocks of eight ([i < 8 * (num_points / 8)]) it is the
    integer nearest to [re * scalar] ([_mm256_cvtps_epi32]) saturated to 16
    bits ([_mm256_packs_epi32]); in the scalar tail it is the low 16 bits of
    that integer, as in the generic variant. *)
Theorem avx2_saturates_in_blocks_and_wraps_in_tail (v : variant)
  (complexVector : list float) (scalar : float) (num_points : Z)
  (iBuffer0 : list Z) :
  v = a_avx2 \/ v = u_avx2 ->
  0 <= num_points < 2 ^ 32 -> num_points <= zlen iBuffer0 ->
  2 * num_points <= zlen complexVector ->
  exists m,
    run (kernel v complexVector scalar num_points) iBuffer0 = Some m
    /\ forall i re,
         0 <= i < num_points -> zth complexVector (2 * i) = Some re ->
         zth (ibuf m) i
         = Some (if i <? 8 * (num_points / 8)
                 then sat16 (B32.cvt_i32 (B32.mul re scalar))
                 else wrap16 (B32.cvt_i32 (B32.mul re scalar))).
Proof.
  intros Hv Hn Hout Hin.
  destruct (variant_spec complexVector scalar iBuffer0 v num_points
              Hn Hout Hin) as (m & Hr & [Hlen Hdone Hrest Hwr Hrd]).
  exists m. split; [exact Hr|]. intros i re Hi Hre.
  rewrite Hdone by assumption. f_equal.
  destruct Hv as [-> | ->]; cbn [quant]; apply quant_avx2_value;
    try assumption; lia.
Qed.

Lemma avx2_saturates_in_blocks_and_wraps_in_tail_witness :
  exists m,
    run (kernel u_avx2 loud one 11) blank = Some m
    /\ forall i re,
         0 <= i < 11 -> zth loud (2 * i) = Some re ->
         zth (ibuf m) i
         = Some (if i <? 8 * (11 / 8)
                 then sat16 (B32.cvt_i32 (B32.mul re one))
                 else wrap16 (B32.cvt_i32 (B32.mul re one))).
Proof.
  apply (avx2_saturates_in_blocks_and_wraps_in_tail u_avx2 loud one 11 blank).
  - right. reflexivity.
  - lia.
  - vm_compute. discriminate.
  - vm_compute. discriminate.
Defined.

(** A product with no nearest 32-bit integer: not a number, infinite, or
    beyond the range of [int32_t]. *)
Definition no_int32 (p : float) : Prop :=
  match B32.nearest p with
  | Some z => z < INT32_MIN \/ INT32_MAX < z
  | None => True
  end.

Lemma no_int32_indefinite p : no_int32 p -> B32.cvt_i32 p = INT32_MIN.
Proof.
  unfold no_int32, B32.cvt_i32, B32.to_i32.
  destruct (B32.nearest p) as [z|]; [|reflexivity].
  intros H. destruct (Z.leb_spec INT32_MIN z), (Z.leb_spec z INT32_MAX);
    cbn [andb]; try reflexivity. lia.
Qed.

(** X3: inside the blocks of eight the AVX2 variants store [INT16_MIN]
    (-32768) for every sample whose scaled real part is not a number, is
    infinite (the positive infinity too) or rounds to an integer outside
    [int32_t]: [_mm256_cvtps_epi32] yields the integer indefinite
    [0x80000000] for it, which [_mm256_packs_epi32] saturates to
    [INT16_MIN]. *)
Theorem avx2_stores_int16_min_for_what_has_no_int32 (v : variant)
  (complexVector : list float) (scalar : float) (num_points : Z)
  (iBuffer0 : list Z) :
  v = a_avx2 \/ v = u_avx2 ->
  0 <= num_points < 2 ^ 32 -> num_points <= zlen iBuffer0 ->
  2 * num_points <= zlen complexVector ->
  exists m,
    run (kernel v complexVector scalar num_points) iBuffer0 = Some m
    /\ forall i re,
         0 <= i < 8 * (num_points / 8) ->
         zth complexVector (2 * i) = Some re ->
         no_int32 (B32.mul re scalar) ->
         zth (ibuf m) i = Some INT16_MIN.
Proof.
  intros Hv Hn Hout Hin.
  destruct (variant_spec complexVector scalar iBuffer0 v num_points
              Hn Hout Hin) as (m & Hr & [Hlen Hdone Hrest Hwr Hrd]).
  exists m. split; [exact Hr|]. intros i re Hi Hre Hno.
  assert (8 * (num_points / 8) <= num_points) by (apply Z.mul_div_le; lia).
  rewrite Hdone by lia. f_equal.
  assert (Ha : quant_avx2 complexVector scalar num_points i = INT16_MIN).
  { rewrite (quant_avx2_value complexVector scalar num_points i re)
      by (assumption || lia).
    destruct (Z.ltb_spec i (8 * (num_points / 8))); [|lia].
    rewrite (no_int32_indefinite _ Hno). reflexivity. }
  destruct Hv as [-> | ->]; cbn [quant]; exact Ha.
Qed.

(** Nine samples whose real part is infinite. *)
Definition inf : float := S754_infinity false.
Definition blaring : list float :=
  [inf; one; inf; one; inf; one; inf; one; inf; one; inf; one; inf; one;
   inf; one; inf; one].

Lemma avx2_stores_int16_min_for_what_has_no_int32_witness :
  exists m,
    run (kernel a_avx2 blaring one 9) blank = Some m
    /\ forall i re,
         0 <= i < 8 * (9 / 8) -> zth blaring (2 * i) = Some re ->
         no_int32 (B32.mul re one) ->
         zth (ibuf m) i = Some INT16_MIN.
Proof.
  apply (avx2_stores_int16_min_for_what_has_no_int32 a_avx2 blaring one 9
           blank).
  - left. reflexivity.
  - lia.
  - vm_compute. discriminate.
  - vm_compute. discriminate.
Defined.

(** The eight infinite samples of the block are stored as [INT16_MIN]. *)
Example infinite_samples :
  option_map (fun m => firstn 8 (ibuf m))
    (run (kernel a_avx2 blaring one 9) blank)
  = Some [-32768; -32768; -32768; -32768; -32768; -32768; -32768; -32768].
Proof. vm_compute. reflexivity. Qed.

(** X4: when the rounded scaled real part of every sample of the blocks of
    eight fits [int16_t], every variant, the AVX2 ones included, leaves the
    [iBuffer] that the generic variant leaves and writes it in the same
    order: saturation and narrowing differ on overflow only. *)
Theorem avx2_stores_what_generic_stores_in_range (v : variant)
  (complexVector : list float) (scalar : float) (num_points : Z)
  (iBuffer0 : list Z) :
  0 <= num_points < 2 ^ 32 -> num_points <= zlen iBuffer0 ->
  2 * num_points <= zlen complexVector ->
  (forall i re,
     0 <= i < 8 * (num_points / 8) -> zth complexVector (2 * i) = Some re ->
     INT16_MIN <= B32.cvt_i32 (B32.mul re scalar) <= INT16_MAX) ->
  exists m mg,
    run (kernel v complexVector scalar num_points) iBuffer0 = Some m
    /\ run (kernel generic complexVector scalar num_points) iBuffer0
       = Some mg
    /\ ibuf m = ibuf mg
    /\ wr_idx (trace m) = wr_idx (trace mg).
Proof.
  intros Hn Hout Hin Hfit.
  destruct (variant_spec complexVector scalar iBuffer0 v num_points
              Hn Hout Hin) as (m & Hr & Hd).
  destruct (variant_spec complexVector scalar iBuffer0 generic num_points
              Hn Hout Hin) as (mg & Hrg & Hdg).
  exists m, mg. split; [exact Hr|]. split; [exact Hrg|].
  apply (same_quant_same_buffer complexVector scalar iBuffer0 _ _ _ _ _ _ _
           Hd Hdg).
  intros i Hi.
  assert (Ha : quant_avx2 complexVector scalar num_points i
               = quant_scalar complexVector scalar i).
  { unfold quant_avx2. destruct (Z.ltb_spec i (8 * (num_points / 8)));
      [|reflexivity].
    apply quant_packed_in_range.
    apply (Hfit i); [lia|]. apply zth_znth. lia. }
  destruct v; cbn [quant]; try reflexivity; exact Ha.
Qed.

Lemma avx2_stores_what_generic_stores_in_range_witness :
  exists m mg,
    run (kernel a_avx2 loud half 11) blank = Some m
    /\ run (kernel generic loud half 11) blank = Some mg
    /\ ibuf m = ibuf mg
    /\ wr_idx (trace m) = wr_idx (trace mg).
Proof.
  apply (avx2_stores_what_generic_stores_in_range a_avx2 loud half 11 blank).
  - lia.
  - vm_compute. discriminate.
  - vm_compute. discriminate.
  - intros i re Hi.
    assert (Hc : i = 0 \/ i = 1 \/ i = 2 \/ i = 3 \/ i = 4 \/ i = 5 \/ i = 6
                 \/ i = 7) by (change (8 * (11 / 8)) with 8 in Hi; lia).
    repeat (destruct Hc as [-> | Hc];
            [intros [= <-]; vm_compute; intuition discriminate|]).
    subst i. intros [= <-]; vm_compute; intuition discriminate.
Defined.

(** ** Fixed point: a round trip *)

(** The float [z * 2^(-k)]: the 16-bit integer [z] read as a fixed-point
    number with [k] fractional bits. *)
Definition fixed_point (k z : Z) : float :=
  binary_normalize B32.prec B32.emax z (- k) false.

Definition round_trips (k z : Z) : bool :=
  B32.cvt_i32 (B32.mul (fixed_point k z) (B32.of_Z (2 ^ k))) =? z.

Lemma round_trips_int16 k z :
  k = 0 \/ k = 15 -> INT16_MIN <= z <= INT16_MAX ->
  B32.cvt_i32 (B32.mul (fixed_point k z) (B32.of_Z (2 ^ k))) = z.
Proof.
  intros Hk Hz. apply Z.eqb_eq. change (round_trips k z = true).
  assert (Hin : In z (zseq (-32768) (Z.to_nat 65536))).
  { apply in_zseq. unfold INT16_MIN, INT16_MAX in Hz. lia. }
  clear Hz. revert z Hin. apply forallb_forall.
  destruct Hk as [-> | ->]; vm_compute; reflexivity.
Qed.

Lemma quant_round_trip (cv : list float) k z v n i :
  k = 0 \/ k = 15 -> INT16_MIN <= z <= INT16_MAX ->
  0 <= i -> zth cv (2 * i) = Some (fixed_point k z) ->
  quant cv (B32.of_Z (2 ^ k)) v n i = z.
Proof.
  intros Hk Hz Hi Hre.
  assert (Hnth : znth fzero cv (2 * i) = fixed_point k z).
  { pose proof (zth_Some _ _ _ Hre) as Hb.
    rewrite (zth_znth fzero) in Hre by assumption. congruence. }
  assert (Hs : quant_scalar cv (B32.of_Z (2 ^ k)) i = z).
  { unfold quant_scalar. rewrite Hnth. cbn [f2i16 frint fmul b32_ops].
    rewrite cast_i16_rint, round_trips_int16 by assumption.
    now apply wrap16_id. }
  assert (Hp : quant_packed cv (B32.of_Z (2 ^ k)) i = z).
  { unfold quant_packed. rewrite Hnth. cbn [f2i32 fmul b32_ops].
    rewrite round_trips_int16 by assumption. now apply sat16_id. }
  destruct v; cbn [quant]; try exact Hs;
    unfold quant_avx2; destruct (_ <? _); assumption.
Qed.

(** X5: a round trip.  When the real parts are the 16-bit integers [z i]
    and the scalar is 1 ([k = 0]), or the real parts are [z i / 32768] and
    the scalar is 32768 ([k = 15]), every variant stores exactly [z i] in
    [iBuffer[i]]: scaling is exact and no variant rounds, wraps or
    saturates. *)
Theorem fixed_point_round_trip (v : variant) (k : Z)
  (complexVector : list float) (z : Z -> Z) (num_points : Z)
  (iBuffer0 : list Z) :
  k = 0 \/ k = 15 ->
  0 <= num_points < 2 ^ 32 -> num_points <= zlen iBuffer0 ->
  2 * num_points <= zlen complexVector ->
  (forall i, 0 <= i < num_points ->
     INT16_MIN <= z i <= INT16_MAX
     /\ zth complexVector (2 * i) = Some (fixed_point k (z i))) ->
  exists m,
    run (kernel v complexVector (B32.of_Z (2 ^ k)) num_points) iBuffer0
    = Some m
    /\ forall i, 0 <= i < num_points -> zth (ibuf m) i = Some (z i).
Proof.
  intros Hk Hn Hout Hin Hz.
  destruct (variant_spec complexVector (B32.of_Z (2 ^ k)) iBuffer0 v
              num_points Hn Hout Hin) as (m & Hr & [Hlen Hdone Hrest Hwr Hrd]).
  exists m. split; [exact Hr|]. intros i Hi.
  rewrite Hdone by assumption. f_equal.
  destruct (Hz i Hi) as [Hrange Hre].
  apply (quant_round_trip complexVector k); try assumption. lia.
Qed.

(** Three samples with the real parts [-32768 / 2^15 = -1], [1 / 2^15] and
    [32767 / 2^15]. *)
Definition unit_range : list float :=
  [fixed_point 15 (-32768); one; fixed_point 15 1; one;
   fixed_point 15 32767; one].

Lemma fixed_point_round_trip_witness :
  exists m,
    run (kernel a_sse unit_range (B32.of_Z (2 ^ 15)) 3) blank = Some m
    /\ forall i, 0 <= i < 3 ->
         zth (ibuf m) i
         = Some (if i =? 0 then -32768 else if i =? 1 then 1 else 32767).
Proof.
  apply (fixed_point_round_trip a_sse 15 unit_range
           (fun i => if i =? 0 then -32768 else if i =? 1 then 1 else 32767)
           3 blank).
  - right. reflexivity.
  - lia.
  - vm_compute. discriminate.
  - vm_compute. discriminate.
  - intros i Hi. assert (Hc : i = 0 \/ i = 1 \/ i = 2) by lia.
    destruct Hc as [-> | [-> | ->]]; vm_compute; intuition discriminate.
Defined.

(** ** Placement *)

Section Placements.
Context {F : Type} {FO : FloatOps F}.
Variable P : Placement.
Variable cv : list F.

Lemma deinterleave_run_ext (k k' : M (St := mem) unit) (iBuffer0 : list Z) :
  (forall s, k s = k' s) -> run k iBuffer0 = run k' iBuffer0.
Proof. intros H. unfold run. now rewrite H. Qed.

Lemma mm_load_ps_placement p s :
  complexVector_addr mod 16 = 0 ->
  _mm_load_ps (PL := P) cv p s = _mm_load_ps (PL := aligned) cv p s.
Proof.
  intros Hal. unfold _mm_load_ps. cbn [complexVector_addr aligned].
  replace ((complexVector_addr + 4 * p) mod 16) with ((0 + 4 * p) mod 16)
    by (Z.to_euclidean_division_equations; lia).
  reflexivity.
Qed.

Lemma mm256_load_ps_placement p s :
  complexVector_addr mod 32 = 0 ->
  _mm256_load_ps (PL := P) cv p s = _mm256_load_ps (PL := aligned) cv p s.
Proof.
  intros Hal. unfold _mm256_load_ps. cbn [complexVector_addr aligned].
  replace ((complexVector_addr + 4 * p) mod 32) with ((0 + 4 * p) mod 32)
    by (Z.to_euclidean_division_equations; lia).
  reflexivity.
Qed.

Lemma mm_store_si128_placement p b s :
  iBuffer_addr mod 16 = 0 ->
  _mm_store_si128 (PL := P) p b s = _mm_store_si128 (PL := aligned) p b s.
Proof.
  intros Hal. unfold _mm_store_si128. cbn [iBuffer_addr aligned].
  replace ((iBuffer_addr + 2 * p) mod 16) with ((0 + 2 * p) mod 16)
    by (Z.to_euclidean_division_equations; lia).
  reflexivity.
Qed.

Lemma sse_body_placement vScalar number l s :
  complexVector_addr mod 16 = 0 ->
  sse_body (PL := P) cv vScalar number l s
  = sse_body (PL := aligned) cv vScalar number l s.
Proof.
  intros Hal. destruct l as [complexVectorPtr iBufferPtr].
  unfold sse_body, bind. cbv zeta.
  rewrite mm_load_ps_placement by exact Hal.
  destruct (_mm_load_ps (PL := aligned) cv complexVectorPtr s)
    as [[x s1]|]; [|reflexivity].
  rewrite mm_load_ps_placement by exact Hal. reflexivity.
Qed.

Lemma avx2_body_placement vScalar idx number l s :
  complexVector_addr mod 32 = 0 -> iBuffer_addr mod 16 = 0 ->
  avx2_body (_mm256_load_ps (PL := P) cv) (_mm_store_si128 (PL := P))
    vScalar idx number l s
  = avx2_body (_mm256_load_ps (PL := aligned) cv)
      (_mm_store_si128 (PL := aligned)) vScalar idx number l s.
Proof.
  intros Hcv Hib. destruct l as [complexVectorPtr iBufferPtr].
  unfold avx2_body, bind. cbv zeta.
  rewrite mm256_load_ps_placement by exact Hcv.
  destruct (_mm256_load_ps (PL := aligned) cv complexVectorPtr s)
    as [[x s1]|]; [|reflexivity].
  rewrite mm256_load_ps_placement by exact Hcv.
  destruct (_mm256_load_ps (PL := aligned) cv (complexVectorPtr + 8) s1)
    as [[y s2]|]; [|reflexivity].
  rewrite mm_store_si128_placement by exact Hib. reflexivity.
Qed.

(** A call at a placement of the alignment the variant requires runs as
    the call at [aligned]. *)
Lemma deinterleave_kernel_aligned v scalar n s :
  aligned_for v P ->
  kernel (PL := P) v cv scalar n s
  = kernel (PL := aligned) v cv scalar n s.
Proof.
  destruct v; cbn [kernel aligned_for]; intros Hal; try reflexivity.
  - unfold volk_32fc_s32f_deinterleave_real_16i_a_sse, for_loop, bind.
    cbv zeta.
    rewrite (for_range_ext _ _ (sse_body (PL := P) cv (_mm_set_ps1 scalar))
               (sse_body (PL := aligned) cv (_mm_set_ps1 scalar)));
      [reflexivity|].
    intros j l s0. now apply sse_body_placement.
  - destruct Hal as [Hcv Hib].
    unfold volk_32fc_s32f_deinterleave_real_16i_a_avx2, for_loop, bind.
    cbv zeta.
    rewrite (for_range_ext _ _
               (avx2_body (_mm256_load_ps (PL := P) cv)
                  (_mm_store_si128 (PL := P)) (_mm256_set1_ps scalar)
                  (_mm256_set_epi32 3 3 3 3 5 1 4 0))
               (avx2_body (_mm256_load_ps (PL := aligned) cv)
                  (_mm_store_si128 (PL := aligned)) (_mm256_set1_ps scalar)
                  (_mm256_set_epi32 3 3 3 3 5 1 4 0)));
      [reflexivity|].
    intros j l s0. now apply avx2_body_placement.
Qed.

(** The SSE variant faults on an input that is not 16-byte aligned as soon
    as its main loop iterates: its first [_mm_load_ps] is at
    [complexVector] itself. *)
Lemma a_sse_faults_off_alignment scalar n iBuffer0 :
  4 <= n -> complexVector_addr mod 16 <> 0 ->
  run (kernel (PL := P) a_sse cv scalar n) iBuffer0 = None.
Proof.
  intros Hn Hal. cbn [kernel].
  unfold run, volk_32fc_s32f_deinterleave_real_16i_a_sse, for_loop, u32_div.
  cbv zeta.
  assert (1 <= n / 4) by (apply Z.div_le_lower_bound; lia).
  destruct (Z.to_nat (n / 4 - 0)) as [|k] eqn:Hk; [lia|].
  cbn [for_range]. unfold bind, sse_body, _mm_load_ps.
  destruct (Z.eqb_spec ((complexVector_addr + 4 * 0) mod 16) 0) as [He|_];
    [|reflexivity].
  exfalso. apply Hal. rewrite <- He. f_equal. lia.
Qed.
End Placements.

(** ** Chunks *)

(** X6: the generic and the SSE variant give the same output on a buffer
    and on its chunks.  A call on [num_points] samples leaves in [iBuffer]
    what a call on the first [k] samples and a call on the remaining
    [num_points - k] samples, at [complexVector + k] and [iBuffer + k],
    leave, whichever of the two variants makes each call; the SSE variant
    can make the call on the advanced pointers only when [k] is even, which
    keeps them 16-byte aligned.  What is stored for a sample does not depend
    on where the sample is in the call. *)
Theorem deinterleave_of_chunks (v v1 v2 : variant)
  (complexVector : list float) (scalar : float) (num_points k : Z)
  (iBuffer0 : list Z) :
  v = generic \/ v = a_sse -> v1 = generic \/ v1 = a_sse ->
  v2 = generic \/ v2 = a_sse /\ k mod 2 = 0 ->
  0 <= k <= num_points -> num_points < 2 ^ 32 ->
  num_points <= zlen iBuffer0 -> 2 * num_points <= zlen complexVector ->
  exists m m1 m2,
    run (kernel v complexVector scalar num_points) iBuffer0 = Some m
    /\ run (kernel v1 complexVector scalar k)
         (firstn (Z.to_nat k) iBuffer0) = Some m1
    /\ run (kernel (PL := advanced aligned k) v2 (advance k complexVector)
              scalar (num_points - k))
         (skipn (Z.to_nat k) iBuffer0) = Some m2
    /\ ibuf m = ibuf m1 ++ ibuf m2.
Proof.
  intros Hv Hv1 Hv2 Hk Hn Hout Hin.
  assert (Hal : aligned_for v2 (advanced aligned k)).
  { destruct Hv2 as [-> | [-> Hev]];
      cbn [aligned_for advanced complexVector_addr aligned]; [exact I|].
    Z.to_euclidean_division_equations; lia. }
  assert (Hv2' : v2 = generic \/ v2 = a_sse) by tauto.
  rewrite (deinterleave_run_ext _ _ _
             (fun s => deinterleave_kernel_aligned (advanced aligned k)
                         (advance k complexVector) v2 scalar
                         (num_points - k) s Hal)).
  clear Hv2 Hal.
  destruct (variant_spec complexVector scalar iBuffer0 v num_points
              ltac:(lia) Hout Hin) as (m & Hr & [Hlen Hdone Hrest _ _]).
  destruct (variant_spec complexVector scalar (firstn (Z.to_nat k) iBuffer0)
              v1 k ltac:(lia) ltac:(rewrite zlen_firstn; lia) ltac:(lia))
    as (m1 & Hr1 & [Hlen1 Hdone1 Hrest1 _ _]).
  destruct (variant_spec (advance k complexVector) scalar
              (skipn (Z.to_nat k) iBuffer0) v2 (num_points - k) ltac:(lia)
              ltac:(rewrite zlen_skipn; lia)
              ltac:(rewrite zlen_advance; lia))
    as (m2 & Hr2 & [Hlen2 Hdone2 Hrest2 _ _]).
  rewrite zlen_firstn in Hlen1 by lia.
  exists m, m1, m2. repeat (split; [assumption|]).
  assert (Hq : quant complexVector scalar v num_points
               = quant_scalar complexVector scalar)
    by (destruct Hv as [-> | ->]; reflexivity).
  assert (Hq1 : quant complexVector scalar v1 k
                = quant_scalar complexVector scalar)
    by (destruct Hv1 as [-> | ->]; reflexivity).
  assert (Hq2 : quant (advance k complexVector) scalar v2 (num_points - k)
                = quant_scalar (advance k complexVector) scalar)
    by (destruct Hv2' as [-> | ->]; reflexivity).
  rewrite Hq in Hdone. rewrite Hq1 in Hdone1. rewrite Hq2 in Hdone2.
  apply zth_ext. intros i.
  destruct (Z.lt_ge_cases i 0) as [Hneg|Hpos]; [now rewrite !zth_neg|].
  destruct (Z.lt_ge_cases i k) as [Hlt|Hge].
  - rewrite zth_app_l by lia. rewrite Hdone, Hdone1 by lia. reflexivity.
  - rewrite zth_app_r, Hlen1 by lia.
    destruct (Z.lt_ge_cases i num_points) as [Hlt'|Hge'].
    + rewrite Hdone, Hdone2 by lia. f_equal. unfold quant_scalar.
      rewrite znth_advance by lia.
      replace (2 * k + 2 * (i - k)) with (2 * i) by lia. reflexivity.
    + rewrite Hrest, Hrest2 by lia. rewrite zth_skipn by lia.
      f_equal. lia.
Qed.

Lemma deinterleave_of_chunks_witness :
  exists m m1 m2,
    run (kernel a_sse loud half 11) blank = Some m
    /\ run (kernel generic loud half 6) (firstn (Z.to_nat 6) blank) = Some m1
    /\ run (kernel (PL := advanced aligned 6) a_sse (advance 6 loud) half
              (11 - 6))
         (skipn (Z.to_nat 6) blank) = Some m2
    /\ ibuf m = ibuf m1 ++ ibuf m2.
Proof.
  apply (deinterleave_of_chunks a_sse generic a_sse loud half 11 6 blank).
  - right. reflexivity.
  - left. reflexivity.
  - right. split; reflexivity.
  - lia.
  - lia.
  - vm_compute. discriminate.
  - vm_compute. discriminate.
Defined.

(** At [complexVector + 5] the SSE variant faults, and the generic variant
    does not. *)
Example chunk_at_an_odd_offset :
  run (kernel (PL := advanced aligned 5) a_sse (advance 5 loud) half
         (11 - 5)) (skipn (Z.to_nat 5) blank) = None
  /\ option_map ibuf
       (run (kernel (PL := advanced aligned 5) generic (advance 5 loud) half
               (11 - 5)) (skipn (Z.to_nat 5) blank))
     = Some [20000; 20000; 20000; 2; -2; 4; 0].
Proof. split; vm_compute; reflexivity. Qed.

(** ** The buffers the generic variant needs *)

Section Bounds.
Context {F : Type} {FO : FloatOps F}.
Variable cv : list F.
Variable scalar : F.

(** The scalar loop runs to completion when the buffers hold what it
    touches: the elements [j0 .. j0 + k - 1] of [iBuffer] and the real parts
    of these samples. *)
Lemma scalar_loop_runs k : forall j0 lo m,
  0 <= j0 -> j0 + Z.of_nat k <= zlen (ibuf m) ->
  2 * (j0 + Z.of_nat k) - 1 <= zlen cv ->
  for_range k lo (scalar_body cv scalar) (2 * j0, j0) m <> None.
Proof.
  induction k as [|k IH]; intros j0 lo m Hj0 Hout Hin; cbn [for_range].
  - discriminate.
  - unfold bind at 1. unfold scalar_body at 1. unfold bind, loadf, store16, ret.
    rewrite (zth_znth fzero) by lia.
    cbn [ibuf trace].
    destruct (Z.leb_spec 0 j0); [|lia].
    destruct (Z.ltb_spec j0 (zlen (ibuf m))); [|lia]. cbn [andb].
    replace (2 * j0 + 1 + 1) with (2 * (j0 + 1)) by lia.
    apply IH; cbn [ibuf]; rewrite ?zlen_zupd; lia.
Qed.

(** A scalar loop that runs to completion has stayed within the
    buffers. *)
Lemma scalar_loop_in_bounds k : forall j0 lo m,
  0 <= j0 -> (0 < k)%nat ->
  for_range k lo (scalar_body cv scalar) (2 * j0, j0) m <> None ->
  j0 + Z.of_nat k <= zlen (ibuf m)
  /\ 2 * (j0 + Z.of_nat k) - 1 <= zlen cv.
Proof.
  induction k as [|k IH]; intros j0 lo m Hj0 Hk; [lia|]. cbn [for_range].
  unfold bind at 1. unfold scalar_body at 1. unfold bind, loadf, store16, ret.
  destruct (zth cv (2 * j0)) as [x|] eqn:Hx; [|congruence].
  apply zth_Some in Hx. cbn [ibuf trace].
  destruct (Z.leb_spec 0 j0); [|lia].
  destruct (Z.ltb_spec j0 (zlen (ibuf m))); cbn [andb]; [|congruence].
  replace (2 * j0 + 1 + 1) with (2 * (j0 + 1)) by lia.
  destruct k as [|k].
  - intros _. lia.
  - intros Hrun. apply IH in Hrun; [|lia|lia].
    cbn [ibuf] in Hrun. rewrite zlen_zupd in Hrun. lia.
Qed.
End Bounds.

(** X7: the buffers the generic variant needs.  A call on [num_points > 0]
    samples ([num_points] an [unsigned int]) stays within its buffers (the
    embedding returns a result) exactly when [iBuffer] holds [num_points]
    elements and [complexVector] holds [2 * num_points - 1] floats: the
    statement skips every imaginary part without reading it, the last one
    included. *)
Theorem generic_needs_all_but_the_last_imaginary_part
  (complexVector : list B32.float) (scalar : B32.float) (num_points : Z)
  (iBuffer0 : list Z) :
  0 < num_points < 2 ^ 32 ->
  (exists m,
     run (volk_32fc_s32f_deinterleave_real_16i_generic complexVector scalar
            num_points) iBuffer0 = Some m)
  <-> num_points <= zlen iBuffer0
      /\ 2 * num_points - 1 <= zlen complexVector.
Proof.
  intros [Hn _].
  unfold run, volk_32fc_s32f_deinterleave_real_16i_generic, for_loop.
  cbv zeta. rewrite Z.sub_0_r.
  assert (Hk : Z.of_nat (Z.to_nat num_points) = num_points) by lia.
  split.
  - intros [m Hm].
    destruct (scalar_loop_in_bounds complexVector scalar
                (Z.to_nat num_points) 0 0 (Mem iBuffer0 [])) as [H1 H2];
      try lia.
    + unfold bind in Hm. intros Hnone. change (2 * 0) with 0 in Hnone.
      rewrite Hnone in Hm. discriminate.
    + cbn [ibuf] in H1. lia.
  - intros [Hout Hin].
    pose proof (scalar_loop_runs complexVector scalar (Z.to_nat num_points)
                  0 0 (Mem iBuffer0 []) ltac:(lia)
                  ltac:(cbn [ibuf]; lia) ltac:(lia)) as Hrun.
    change (2 * 0) with 0 in Hrun. unfold bind.
    destruct (for_range _ _ _ _ _) as [[l m]|]; [|congruence].
    exists m. reflexivity.
Qed.

Lemma generic_needs_all_but_the_last_imaginary_part_witness :
  (exists m,
     run (volk_32fc_s32f_deinterleave_real_16i_generic
            [one; half; half] one 2) [0; 0] = Some m)
  <-> 2 <= zlen [0; 0] /\ 2 * 2 - 1 <= zlen [one; half; half].
Proof.
  apply (generic_needs_all_but_the_last_imaginary_part [one; half; half] one
           2 [0; 0]).
  lia.
Defined.

(** Two samples in a buffer of three floats: the call is within bounds. *)
Example last_imaginary_part_missing :
  option_map ibuf
    (run (volk_32fc_s32f_deinterleave_real_16i_generic
            [one; half; one] one 2) [0; 0])
  = Some [1; 1].
Proof. vm_compute. reflexivity. Qed.

(** ** Opposite samples *)

(** [-x] *)
Definition neg : float -> float := SFopp.

Lemma binary_round_aux_negb s m e l :
  binary_round_aux B32.prec B32.emax (negb s) m e l
  = SFopp (binary_round_aux B32.prec B32.emax s m e l).
Proof.
  unfold binary_round_aux.
  destruct (shr_fexp _ _ m e l) as [mrs' e'].
  destruct (shr_fexp _ _ _ e' loc_Exact) as [mrs'' e''].
  destruct (shr_m mrs''); try reflexivity.
  destruct (e'' <=? B32.emax - B32.prec); reflexivity.
Qed.

Lemma mul_neg x y : B32.mul (neg x) y = neg (B32.mul x y).
Proof.
  unfold B32.mul, neg.
  destruct x as [sx|sx| |sx mx ex], y as [sy|sy| |sy my ey];
    cbn [SFmul SFopp]; rewrite <- ?negb_xorb_l; try reflexivity.
  apply binary_round_aux_negb.
Qed.

Lemma nearest_neg x :
  B32.nearest (neg x) = option_map Z.opp (B32.nearest x).
Proof.
  destruct x as [s|s| |s m e]; cbn [neg SFopp B32.nearest option_map];
    try reflexivity.
  destruct s; cbn [negb cond_Zopp]; f_equal; lia.
Qed.

(** What is stored for [-x] is the opposite of what is stored for [x],
    when the latter has an opposite in [int16_t]. *)
Lemma cvt_i32_neg p :
  - INT16_MAX <= B32.cvt_i32 p <= INT16_MAX ->
  B32.cvt_i32 (neg p) = - B32.cvt_i32 p.
Proof.
  unfold B32.cvt_i32. rewrite nearest_neg.
  destruct (B32.nearest p) as [z|]; cbn [option_map B32.to_i32].
  - unfold INT16_MAX, INT32_MIN, INT32_MAX.
    destruct (Z.leb_spec (- 2 ^ 31) z), (Z.leb_spec z (2 ^ 31 - 1));
      cbn [andb]; intros Hz; try lia.
    destruct (Z.leb_spec (- 2 ^ 31) (- z)), (Z.leb_spec (- z) (2 ^ 31 - 1));
      cbn [andb]; lia.
  - unfold INT16_MAX, INT32_MIN. lia.
Qed.

Lemma quant_neg (cv cv' : list float) scalar v n i re :
  0 <= i -> zth cv (2 * i) = Some re -> zth cv' (2 * i) = Some (neg re) ->
  - INT16_MAX <= B32.cvt_i32 (B32.mul re scalar) <= INT16_MAX ->
  quant cv' scalar v n i = - quant cv scalar v n i.
Proof.
  intros Hi Hre Hre' Hfit.
  assert (Hz : znth fzero cv (2 * i) = re).
  { pose proof (zth_Some _ _ _ Hre) as Hb.
    rewrite (zth_znth fzero) in Hre by assumption. congruence. }
  assert (Hz' : znth fzero cv' (2 * i) = neg re).
  { pose proof (zth_Some _ _ _ Hre') as Hb.
    rewrite (zth_znth fzero) in Hre' by assumption. congruence. }
  pose proof (cvt_i32_neg _ Hfit) as Hneg.
  assert (Hr : INT16_MIN <= B32.cvt_i32 (B32.mul re scalar) <= INT16_MAX)
    by (unfold INT16_MIN, INT16_MAX in *; lia).
  assert (Hr' : INT16_MIN <= - B32.cvt_i32 (B32.mul re scalar) <= INT16_MAX)
    by (unfold INT16_MIN, INT16_MAX in *; lia).
  assert (Hs : quant_scalar cv' scalar i = - quant_scalar cv scalar i).
  { unfold quant_scalar. rewrite Hz, Hz'. cbn [f2i16 frint fmul b32_ops].
    rewrite !cast_i16_rint, mul_neg, Hneg, !wrap16_id by assumption.
    reflexivity. }
  assert (Hp : quant_packed cv' scalar i = - quant_packed cv scalar i).
  { unfold quant_packed. rewrite Hz, Hz'. cbn [f2i32 fmul b32_ops].
    rewrite mul_neg, Hneg, !sat16_id by assumption. reflexivity. }
  destruct v; cbn [quant]; try exact Hs;
    unfold quant_avx2; destruct (_ <? _); assumption.
Qed.

(** X8: opposite samples give opposite outputs.  When the real part of every
    sample is replaced by its opposite, every variant stores the opposite of
    what it stored, provided the integer nearest to every scaled real part
    [re * scalar] is in [-32767 .. 32767], so that nothing wraps or
    saturates (and -32768 has no opposite in [int16_t]): rounding to nearest
    with ties to even is symmetric about zero. *)
Theorem deinterleave_is_odd (v : variant)
  (complexVector complexVector' : list float) (scalar : float)
  (num_points : Z) (iBuffer0 : list Z) :
  0 <= num_points < 2 ^ 32 -> num_points <= zlen iBuffer0 ->
  2 * num_points <= zlen complexVector ->
  2 * num_points <= zlen complexVector' ->
  (forall i re,
     0 <= i < num_points -> zth complexVector (2 * i) = Some re ->
     zth complexVector' (2 * i) = Some (neg re)
     /\ - INT16_MAX <= B32.cvt_i32 (B32.mul re scalar) <= INT16_MAX) ->
  exists m m',
    run (kernel v complexVector scalar num_points) iBuffer0 = Some m
    /\ run (kernel v complexVector' scalar num_points) iBuffer0 = Some m'
    /\ forall i x, 0 <= i < num_points ->
         zth (ibuf m) i = Some x -> zth (ibuf m') i = Some (- x).
Proof.
  intros Hn Hout Hin Hin' Hneg.
  destruct (variant_spec complexVector scalar iBuffer0 v num_points
              Hn Hout Hin) as (m & Hr & [Hlen Hdone Hrest _ _]).
  destruct (variant_spec complexVector' scalar iBuffer0 v num_points
              Hn Hout Hin') as (m' & Hr' & [Hlen' Hdone' Hrest' _ _]).
  exists m, m'. split; [exact Hr|]. split; [exact Hr'|].
  intros i x Hi Hx. rewrite Hdone in Hx by assumption.
  injection Hx as <-. rewrite Hdone' by assumption. f_equal.
  destruct (Hneg i (znth fzero complexVector (2 * i)) Hi) as [Hre' Hfit].
  { apply zth_znth. lia. }
  apply (quant_neg complexVector complexVector' scalar v num_points i
           (znth fzero complexVector (2 * i))); try assumption; try lia.
  apply zth_znth. lia.
Qed.

(** The ties 1.5, -2.5 and 3.5 and their opposites. *)
Definition ties : list float := samples [(3, 0); (-5, 0); (7, 0)].
Definition ties' : list float := samples [(-3, 1); (5, 1); (-7, 1)].

Lemma deinterleave_is_odd_witness :
  exists m m',
    run (kernel a_sse ties half 3) blank = Some m
    /\ run (kernel a_sse ties' half 3) blank = Some m'
    /\ forall i x, 0 <= i < 3 ->
         zth (ibuf m) i = Some x -> zth (ibuf m') i = Some (- x).
Proof.
  apply (deinterleave_is_odd a_sse ties ties' half 3 blank).
  - lia.
  - vm_compute. discriminate.
  - vm_compute. discriminate.
  - vm_compute. discriminate.
  - intros i re Hi.
    assert (Hc : i = 0 \/ i = 1 \/ i = 2) by lia.
    destruct Hc as [-> | [-> | ->]]; intros [= <-];
      vm_compute; intuition discriminate.
Defined.

(** [1.5], [-2.5], [3.5] are stored as 2, -2, 4 and their opposites as -2,
    2, -4. *)
Example ties_and_their_opposites :
  option_map (fun m => firstn 3 (ibuf m)) (run (kernel a_sse ties half 3) blank)
  = Some [2; -2; 4]
  /\ option_map (fun m => firstn 3 (ibuf m))
       (run (kernel a_sse ties' half 3) blank)
     = Some [-2; 2; -4].
Proof. vm_compute. split; reflexivity. Qed.
End DeinterleaveProps.

(* ===================================================================== *)
(** * The dot-product kernels: the result as a function of the buffers *)
(* ===================================================================== *)

Module DotProdResult.
Import DotProd DotProdFacts.

Section AnyFloat.
Context {F : Type} {FO : FloatOps F}.
Variables input taps : list F.

(** The accumulators of a main loop after [k] iterations over blocks of
    [B] samples. *)
Fixpoint iterate {A : Type} (step : Z -> A -> A) (B : Z) (k : nat) (acc0 : A)
  : A :=
  match k with
  | O => acc0
  | S k' => step (B * Z.of_nat k') (iterate step B k' acc0)
  end.

Definition iterated {A : Type} (step : Z -> A -> A) (B : Z) (acc0 : A)
  : nat -> A -> Prop :=
  fun j acc => acc = iterate step B j acc0.

Lemma iterated_step {A : Type} (step : Z -> A -> A) (B : Z) (acc0 : A) k :
  forall j acc, (j < k)%nat -> iterated step B acc0 j acc ->
                iterated step B acc0 (S j) (step (B * Z.of_nat j) acc).
Proof. intros j acc _ ->. reflexivity. Qed.

(** What a variant leaves in [*result], as a function of the buffers and
    of [num_points]. *)
Definition zero8 : list F := _mm256_setzero_ps.
Definition zero2x4 : list F * list F := (zero4, zero4).
Definition zero4x4 : x4 (F := F) := (zero4, zero4, zero4, zero4).

Definition sse3_value (h n : Z) : lv_32fc_t :=
  sse3_result input taps n
    (iterate (sse3_lanes input taps) 2 (Z.to_nat h) _mm_setzero_ps).

Definition result_of (v : variant) (n : Z) : lv_32fc_t :=
  match v with
  | generic =>
      generic_result input taps n
        (iterate (generic_sums input taps) 4 (Z.to_nat (n / 2))
           ((fzero, fzero), (fzero, fzero)))
  | u_sse3 => sse3_value (n / 2) n
  | a_sse3 => sse3_value (((n * 8) mod 2 ^ 32) / 16) n
  | u_avx | a_avx =>
      avx_result input taps n
        (iterate (avx_lanes input taps) 4 (Z.to_nat (n / 4)) zero8)
  | u_avx_fma | a_avx_fma =>
      avx_result input taps n
        (iterate (avx_fma_lanes input taps) 4 (Z.to_nat (n / 4)) zero8)
  | neon =>
      neon_result input taps 4 n
        (iterate (neon_lanes input taps) 4 (Z.to_nat (n / 4)) zero2x4)
  | neon_opttests =>
      neon_result input taps 4 n
        (iterate (neon_opttests_lanes input taps) 4 (Z.to_nat (n / 4))
           zero2x4)
  | neon_optfma =>
      neon_result input taps 4 n
        (optfma_reduce
           (iterate (neon_optfma_lanes input taps) 4 (Z.to_nat (n / 4))
              (zero2x4, zero2x4)))
  | neon_optfmaunroll =>
      neon_result input taps 8 n
        (optfmaunroll_reduce
           (iterate (neon_optfmaunroll_lanes input taps) 8 (Z.to_nat (n / 8))
              (zero4x4, zero4x4)))
  end.

Lemma variant_result v n r0 :
  0 <= n < 2 ^ 32 -> 2 * n <= zlen input -> 2 * n <= zlen taps ->
  exists m,
    run (kernel v input taps n) r0 = Some m /\ result m = result_of v n.
Proof.
  intros Hn Hin Htp. destruct v; cbn [kernel result_of].
  - destruct (generic_run input taps (iterated (generic_sums input taps) 4 _)
                n r0 Hn Hin Htp eq_refl (iterated_step _ _ _ _))
      as (m & s & Hr & -> & Hres & _). eauto.
  - destruct (u_sse3_run input taps n r0 Hn Hin Htp (iterated _ 2 _) eq_refl
                (iterated_step _ _ _ _)) as (m & Hr & acc & -> & Hres & _).
    eauto.
  - destruct (u_avx_run input taps n r0 Hn Hin Htp (iterated _ 4 _) eq_refl
                (iterated_step _ _ _ _)) as (m & Hr & acc & -> & Hres & _).
    eauto.
  - destruct (u_avx_fma_run input taps n r0 Hn Hin Htp (iterated _ 4 _)
                eq_refl (iterated_step _ _ _ _))
      as (m & Hr & acc & -> & Hres & _). eauto.
  - destruct (a_sse3_run input taps n r0 Hn Hin Htp (iterated _ 2 _) eq_refl
                (iterated_step _ _ _ _)) as (m & Hr & acc & -> & Hres & _).
    eauto.
  - destruct (neon_run input taps n r0 Hn Hin Htp (iterated _ 4 _) eq_refl
                (iterated_step _ _ _ _)) as (m & Hr & acc & -> & Hres & _).
    eauto.
  - destruct (neon_opttests_run input taps n r0 Hn Hin Htp (iterated _ 4 _)
                eq_refl (iterated_step _ _ _ _))
      as (m & Hr & acc & -> & Hres & _). eauto.
  - destruct (neon_optfma_run input taps n r0 Hn Hin Htp (iterated _ 4 _)
                eq_refl (iterated_step _ _ _ _))
      as (m & Hr & acc & -> & Hres & _). eauto.
  - destruct (neon_optfmaunroll_run input taps n r0 Hn Hin Htp
                (iterated _ 8 _) eq_refl (iterated_step _ _ _ _))
      as (m & Hr & acc & -> & Hres & _). eauto.
  - rewrite run_a_avx.
    destruct (u_avx_run input taps n r0 Hn Hin Htp (iterated _ 4 _) eq_refl
                (iterated_step _ _ _ _)) as (m & Hr & acc & -> & Hres & _).
    eauto.
  - rewrite run_a_avx_fma.
    destruct (u_avx_fma_run input taps n r0 Hn Hin Htp (iterated _ 4 _)
                eq_refl (iterated_step _ _ _ _))
      as (m & Hr & acc & -> & Hres & _). eauto.
Qed.
End AnyFloat.
End DotProdResult.

(* ===================================================================== *)
(** * The dot-product kernels in binary32: which variants compute the same *)
(* ===================================================================== *)

Module DotProdBinary32.
Import DotProd DotProdFacts DotProdExact DotProdResult B32Facts B32Zero.

Local Abbreviation float := B32.float.

(** ** Lane-wise commutativity *)

Lemma vmap2_mul_comm (x y : list float) : vmap2 fmul x y = vmap2 fmul y x.
Proof.
  revert y. induction x as [|a x IH]; intros [|b y]; cbn [vmap2];
    try reflexivity.
  cbn [fmul b32_ops]. now rewrite (mul_comm a b), IH.
Qed.

Lemma vmap2_add_comm (x y : list float) : vmap2 fadd x y = vmap2 fadd y x.
Proof.
  revert y. induction x as [|a x IH]; intros [|b y]; cbn [vmap2];
    try reflexivity.
  cbn [fadd b32_ops]. now rewrite (add_comm a b), IH.
Qed.

Lemma cmul_commutes (x y : lv_32fc_t (F := float)) : cmul x y = cmul y x.
Proof.
  destruct x as [a b], y as [c d]. unfold cmul, lv_cmake.
  cbn [fmul fadd fsub b32_ops].
  rewrite (mul_comm c a), (mul_comm d b), (mul_comm c b), (mul_comm d a).
  now rewrite (add_comm (B32.mul b c)).
Qed.

(** ** Accumulators are never the negative zero *)

Definition good (x : float) : Prop := rounded x /\ x <> S754_zero true.

Lemma good_zero : good (fzero (F := float)).
Proof. split; [exact I|discriminate]. Qed.

Lemma good_add acc z : good acc -> rounded z -> good (fadd acc z).
Proof.
  intros [Hr Hz] Hz'. split.
  - now apply add_rounded.
  - now apply add_not_negative_zero.
Qed.

Lemma rounded_sub_mul (a b c d : float) :
  rounded (fsub (fmul a b) (fmul c d)).
Proof. apply sub_rounded; apply mul_rounded. Qed.

Lemma rounded_add_mul (a b c d : float) :
  rounded (fadd (fmul a b) (fmul c d)).
Proof. apply add_rounded; apply mul_rounded. Qed.

Lemma good_rounded x : good x -> rounded x.
Proof. now intros [H _]. Qed.

Lemma zero_plus (x : float) : good x -> fadd fzero x = x.
Proof. intros [_ H]. now apply add_zero_id. Qed.

Create HintDb good.
#[local] Hint Resolve good_zero good_add rounded_sub_mul rounded_add_mul
  good_rounded : good.

Section Buffers.
Variables input taps : list float.

(** ** The generic variant and the SSE3 register *)

Definition sums_good (s : (float * float) * (float * float)) : Prop :=
  good (fst (fst s)) /\ good (snd (fst s))
  /\ good (fst (snd s)) /\ good (snd (snd s)).

Definition reg_of_sums (s : (float * float) * (float * float)) : list float :=
  [fst (fst s); snd (fst s); fst (snd s); snd (snd s)].

Lemma generic_sums_good p s :
  sums_good s -> sums_good (generic_sums input taps p s).
Proof.
  destruct s as [[s00 s01] [s10 s11]]. unfold sums_good, generic_sums.
  cbn [fst snd]. intros (H1 & H2 & H3 & H4).
  split; [|split; [|split]]; apply good_add; auto with good.
Qed.

Lemma sse3_lanes_generic a s :
  sse3_lanes input taps a (reg_of_sums s)
  = reg_of_sums (generic_sums input taps (2 * a) s).
Proof.
  destruct s as [[s00 s01] [s10 s11]].
  unfold sse3_lanes, generic_sums, reg_of_sums, vec4. cbv zeta.
  rewrite sse3_lanes_explicit. cbn [fst snd lane nth].
  cbn [fadd b32_ops].
  rewrite (add_comm (fmul (znth fzero input (2 * a + 1)) _)).
  rewrite (add_comm (fmul (znth fzero input (2 * a + 3)) _)).
  reflexivity.
Qed.

Lemma generic_iterate_good k :
  sums_good (iterate (generic_sums input taps) 4 k
               ((fzero, fzero), (fzero, fzero))).
Proof.
  induction k as [|k IH]; cbn [iterate].
  - repeat split; discriminate.
  - now apply generic_sums_good.
Qed.

Lemma sse3_iterate_generic k :
  iterate (sse3_lanes input taps) 2 k _mm_setzero_ps
  = reg_of_sums (iterate (generic_sums input taps) 4 k
                   ((fzero, fzero), (fzero, fzero))).
Proof.
  induction k as [|k IH]; cbn [iterate]; [reflexivity|].
  rewrite IH, sse3_lanes_generic.
  replace (2 * (2 * Z.of_nat k)) with (4 * Z.of_nat k) by lia. reflexivity.
Qed.

Lemma sse3_result_generic n s :
  sums_good s ->
  sse3_result input taps n (reg_of_sums s) = generic_result input taps n s.
Proof.
  destruct s as [[s00 s01] [s10 s11]]. intros (H1 & H2 & H3 & H4).
  cbn [fst snd] in *.
  unfold sse3_result, generic_result, reg_of_sums, cadd, czero, cplx_of,
    lv_cmake.
  cbn [fst snd lane nth Nat.mul Nat.add].
  rewrite !zero_plus by auto with good. reflexivity.
Qed.

Lemma u_sse3_result_generic n :
  result_of input taps u_sse3 n = result_of input taps generic n.
Proof.
  cbn [result_of]. unfold sse3_value.
  rewrite sse3_iterate_generic. apply sse3_result_generic.
  apply generic_iterate_good.
Qed.

Lemma a_sse3_result_u_sse3 n :
  0 <= n < 2 ^ 29 ->
  result_of input taps a_sse3 n = result_of input taps u_sse3 n.
Proof.
  intros Hn. cbn [result_of].
  replace (((n * 8) mod 2 ^ 32) / 16) with (n / 2); [reflexivity|].
  change (2 ^ 32) with 4294967296. change (2 ^ 29) with 536870912 in Hn.
  Z.to_euclidean_division_equations; lia.
Qed.

(** ** The AVX register and the NEON register pair *)

(** The AVX register that holds the four complex sums of a NEON register
    pair. *)
Definition interleaved (acc : list float * list float) : list float :=
  [lane (fst acc) 0; lane (snd acc) 0; lane (fst acc) 1; lane (snd acc) 1;
   lane (fst acc) 2; lane (snd acc) 2; lane (fst acc) 3; lane (snd acc) 3].

Definition pair_good (acc : list float * list float) : Prop :=
  length (fst acc) = 4%nat /\ length (snd acc) = 4%nat
  /\ Forall good (fst acc) /\ Forall good (snd acc).

Ltac four l :=
  let H := fresh in
  destruct l as [|? [|? [|? [|? [|? ?]]]]]; intros H;
  cbn [length] in H; try (exfalso; lia); clear H.

Ltac lanes :=
  cbn [deint2 deint4 vec16 vec8 vec4 app lane nth fst snd vaddq_f32 vsubq_f32
       vmulq_f32 vmlaq_f32 vmlsq_f32 vmap2 length].

Ltac input_first :=
  repeat match goal with
    | |- context [B32.mul (znth fzero taps ?i) (znth fzero input ?j)] =>
        rewrite (mul_comm (znth fzero taps i) (znth fzero input j))
    end.

Lemma neon_lanes_good p acc :
  pair_good acc -> pair_good (neon_lanes input taps p acc).
Proof.
  destruct acc as [r i]. unfold pair_good. cbn [fst snd].
  intros (Hr & Hi & Hgr & Hgi). revert Hr Hi Hgr Hgi.
  four r. four i. intros Hgr Hgi.
  unfold neon_lanes. cbv zeta. lanes.
  repeat match goal with
    | H : Forall _ (_ :: _) |- _ => inversion H; subst; clear H
    end.
  split; [reflexivity|]. split; [reflexivity|].
  split; repeat constructor; apply good_add; auto with good.
Qed.

Lemma avx_lanes_neon p acc :
  length (fst acc) = 4%nat -> length (snd acc) = 4%nat ->
  avx_lanes input taps p (interleaved acc)
  = interleaved (neon_lanes input taps p acc).
Proof.
  destruct acc as [r i]. cbn [fst snd]. intros Hr Hi. revert Hr Hi.
  four r. four i.
  unfold avx_lanes, interleaved, vec8, vec4. cbv zeta. cbn [fst snd lane nth].
  rewrite avx_lanes_explicit.
  unfold neon_lanes. cbv zeta. lanes. cbn [fmul b32_ops]. input_first.
  reflexivity.
Qed.

Lemma neon_iterate_good k :
  pair_good (iterate (neon_lanes input taps) 4 k zero2x4).
Proof.
  induction k as [|k IH]; cbn [iterate].
  - split; [reflexivity|]. split; [reflexivity|].
    split; repeat constructor; discriminate.
  - now apply neon_lanes_good.
Qed.

Lemma avx_iterate_neon k :
  iterate (avx_lanes input taps) 4 k zero8
  = interleaved (iterate (neon_lanes input taps) 4 k zero2x4).
Proof.
  induction k as [|k IH]; cbn [iterate]; [reflexivity|].
  rewrite IH. apply avx_lanes_neon; apply neon_iterate_good.
Qed.

Lemma tail_sum_ext (p1 p2 : Z -> lv_32fc_t (F := float)) d lo k :
  (forall i, p1 i = p2 i) -> tail_sum p1 d lo k = tail_sum p2 d lo k.
Proof.
  intros H. induction k as [|k IH]; [reflexivity|].
  now rewrite !tail_sum_snoc, IH, H.
Qed.

Lemma avx_result_neon n acc :
  0 <= n -> pair_good acc ->
  avx_result input taps n (interleaved acc) = neon_result input taps 4 n acc.
Proof.
  destruct acc as [r i]. unfold pair_good. cbn [fst snd].
  intros Hn (Hr & Hi & Hgr & Hgi). revert Hr Hi Hgr Hgi.
  four r. four i. intros Hgr Hgi.
  repeat match goal with
    | H : Forall _ (_ :: _) |- _ => inversion H; subst; clear H
    end.
  unfold avx_result, neon_result.
  replace (n - n mod 4) with (4 * (n / 4))
    by (pose proof (Z.div_mod n 4 ltac:(lia)); lia).
  rewrite (tail_sum_ext (prod_ti input taps) (prod_it input taps))
    by (intros; apply cmul_commutes).
  f_equal.
  unfold interleaved, cadd, czero, cplx_of, vst2q, lv_cmake.
  cbn [fst snd lane nth Nat.mul Nat.add].
  rewrite !zero_plus by auto 10 with good. reflexivity.
Qed.

Lemma neon_result_u_avx n :
  0 <= n -> result_of input taps neon n = result_of input taps u_avx n.
Proof.
  intros Hn. cbn [result_of]. rewrite avx_iterate_neon.
  symmetry. apply avx_result_neon; [assumption|apply neon_iterate_good].
Qed.

(** ** The two plain NEON variants *)

Lemma neon_opttests_lanes_neon p acc :
  neon_opttests_lanes input taps p acc = neon_lanes input taps p acc.
Proof.
  unfold neon_opttests_lanes, neon_lanes, vmlaq_f32, vmlsq_f32, vaddq_f32,
    vsubq_f32, vmulq_f32.
  cbv zeta. f_equal. f_equal. apply vmap2_add_comm.
Qed.

Lemma neon_opttests_iterate k acc0 :
  iterate (neon_opttests_lanes input taps) 4 k acc0
  = iterate (neon_lanes input taps) 4 k acc0.
Proof.
  induction k as [|k IH]; cbn [iterate]; [reflexivity|].
  now rewrite IH, neon_opttests_lanes_neon.
Qed.

Lemma neon_opttests_result_neon n :
  result_of input taps neon_opttests n = result_of input taps neon n.
Proof. cbn [result_of]. now rewrite neon_opttests_iterate. Qed.
End Buffers.

(** ** Exchanging [input] and [taps] *)

Section Exchange.
Variables input taps : list float.

Lemma prod_it_exchange i : prod_it input taps i = prod_it taps input i.
Proof. apply cmul_commutes. Qed.

Lemma prod_ti_exchange i : prod_ti input taps i = prod_ti taps input i.
Proof. apply cmul_commutes. Qed.

Lemma re_exchange (a b c d : float) :
  B32.sub (B32.mul a b) (B32.mul c d) = B32.sub (B32.mul b a) (B32.mul d c).
Proof. now rewrite (mul_comm a b), (mul_comm c d). Qed.

Lemma im_exchange (a b c d : float) :
  B32.add (B32.mul a b) (B32.mul c d) = B32.add (B32.mul d c) (B32.mul b a).
Proof. now rewrite (mul_comm a b), (mul_comm c d), add_comm. Qed.

Ltac exchange :=
  cbn [fmul fadd fsub b32_ops];
  repeat match goal with
    | |- (_, _) = (_, _) => apply f_equal2
    | |- _ :: _ = _ :: _ => apply f_equal2
    | |- [] = [] => reflexivity
    | |- B32.sub (B32.mul _ _) _ = _ => apply re_exchange
    | |- B32.add (B32.mul _ _) _ = _ => apply im_exchange
    | |- B32.add ?s _ = B32.add ?s _ => apply f_equal
    end.

Lemma generic_sums_exchange p s :
  generic_sums input taps p s = generic_sums taps input p s.
Proof.
  unfold generic_sums, vec4. cbv zeta. cbn [lane nth]. exchange.
Qed.

(** The four (eight) products of one iteration of the SSE3 (AVX) loop. *)
Lemma sse3_products (x0 x1 x2 x3 y0 y1 y2 y3 : float) :
  _mm_addsub_ps (_mm_mul_ps [x0; x1; x2; x3] (_mm_moveldup_ps [y0; y1; y2; y3]))
    (_mm_mul_ps (_mm_shuffle_ps [x0; x1; x2; x3] [x0; x1; x2; x3] 177)
       (_mm_movehdup_ps [y0; y1; y2; y3]))
  = [fsub (fmul x0 y0) (fmul x1 y1); fadd (fmul x1 y0) (fmul x0 y1);
     fsub (fmul x2 y2) (fmul x3 y3); fadd (fmul x3 y2) (fmul x2 y3)].
Proof. reflexivity. Qed.

Lemma avx_products (x0 x1 x2 x3 x4 x5 x6 x7 y0 y1 y2 y3 y4 y5 y6 y7 : float) :
  _mm256_addsub_ps
    (_mm256_mul_ps ([x0; x1; x2; x3] ++ [x4; x5; x6; x7])
       (_mm256_moveldup_ps ([y0; y1; y2; y3] ++ [y4; y5; y6; y7])))
    (_mm256_mul_ps
       (_mm256_shuffle_ps ([x0; x1; x2; x3] ++ [x4; x5; x6; x7])
          ([x0; x1; x2; x3] ++ [x4; x5; x6; x7]) 177)
       (_mm256_movehdup_ps ([y0; y1; y2; y3] ++ [y4; y5; y6; y7])))
  = [fsub (fmul x0 y0) (fmul x1 y1); fadd (fmul x1 y0) (fmul x0 y1);
     fsub (fmul x2 y2) (fmul x3 y3); fadd (fmul x3 y2) (fmul x2 y3);
     fsub (fmul x4 y4) (fmul x5 y5); fadd (fmul x5 y4) (fmul x4 y5);
     fsub (fmul x6 y6) (fmul x7 y7); fadd (fmul x7 y6) (fmul x6 y7)].
Proof. reflexivity. Qed.

Lemma sse3_lanes_exchange a acc :
  sse3_lanes input taps a acc = sse3_lanes taps input a acc.
Proof.
  unfold sse3_lanes, vec4. cbv zeta. rewrite !sse3_products. f_equal.
  exchange.
Qed.

Lemma avx_lanes_exchange a acc :
  avx_lanes input taps a acc = avx_lanes taps input a acc.
Proof.
  unfold avx_lanes, vec8, vec4. cbv zeta. rewrite !avx_products. f_equal.
  exchange.
Qed.

Lemma neon_lanes_exchange p acc :
  neon_lanes input taps p acc = neon_lanes taps input p acc.
Proof.
  unfold neon_lanes, vaddq_f32, vsubq_f32, vmulq_f32. cbv zeta.
  set (a := deint2 (vec8 taps (2 * p))). set (b := deint2 (vec8 input (2 * p))).
  rewrite (vmap2_mul_comm (fst b) (fst a)), (vmap2_mul_comm (snd b) (snd a)),
    (vmap2_mul_comm (fst b) (snd a)), (vmap2_mul_comm (snd b) (fst a)).
  now rewrite (vmap2_add_comm (vmap2 fmul (snd a) (fst b))).
Qed.

(** The two-accumulator variants with the buffers exchanged: the two
    accumulators of the imaginary part change places. *)
Definition crossed (acc : (list float * list float) * (list float * list float))
  : (list float * list float) * (list float * list float) :=
  ((fst (fst acc), snd (snd acc)), (fst (snd acc), snd (fst acc))).

Lemma neon_optfma_lanes_exchange p acc :
  neon_optfma_lanes taps input p (crossed acc)
  = crossed (neon_optfma_lanes input taps p acc).
Proof.
  destruct acc as [[a10 a11] [a20 a21]].
  unfold neon_optfma_lanes, crossed, vmlaq_f32, vmlsq_f32. cbv zeta.
  cbn [fst snd].
  set (a := deint2 (vec8 taps (2 * p))). set (b := deint2 (vec8 input (2 * p))).
  now rewrite (vmap2_mul_comm (fst b) (fst a)),
    (vmap2_mul_comm (snd b) (snd a)),
    (vmap2_mul_comm (fst b) (snd a)), (vmap2_mul_comm (snd b) (fst a)).
Qed.

Lemma optfma_reduce_crossed acc :
  optfma_reduce (crossed acc) = optfma_reduce acc.
Proof.
  destruct acc as [[a10 a11] [a20 a21]]. unfold optfma_reduce, crossed.
  cbn [fst snd]. f_equal. apply vmap2_add_comm.
Qed.

Definition crossed4 (acc : x4 (F := float) * x4 (F := float))
  : x4 * x4 :=
  let '(a10, a11, a12, a13) := fst acc in
  let '(a20, a21, a22, a23) := snd acc in
  ((a10, a21, a12, a23), (a20, a11, a22, a13)).

Lemma neon_optfmaunroll_lanes_exchange p acc :
  neon_optfmaunroll_lanes taps input p (crossed4 acc)
  = crossed4 (neon_optfmaunroll_lanes input taps p acc).
Proof.
  destruct acc as [[[[a10 a11] a12] a13] [[[a20 a21] a22] a23]].
  unfold neon_optfmaunroll_lanes, crossed4, vmlaq_f32, vmlsq_f32.
  cbn [fst snd].
  destruct (deint4 (vec16 taps (2 * p))) as [[[a0 a1] a2] a3].
  destruct (deint4 (vec16 input (2 * p))) as [[[b0 b1] b2] b3].
  now rewrite (vmap2_mul_comm b0 a0), (vmap2_mul_comm b1 a1),
    (vmap2_mul_comm b0 a1), (vmap2_mul_comm b1 a0),
    (vmap2_mul_comm b2 a2), (vmap2_mul_comm b3 a3),
    (vmap2_mul_comm b2 a3), (vmap2_mul_comm b3 a2).
Qed.

Lemma optfmaunroll_reduce_crossed acc :
  optfmaunroll_reduce (crossed4 acc) = optfmaunroll_reduce acc.
Proof.
  destruct acc as [[[[a10 a11] a12] a13] [[[a20 a21] a22] a23]].
  unfold optfmaunroll_reduce, crossed4, vaddq_f32. cbn [fst snd]. f_equal.
  apply vmap2_add_comm.
Qed.

Lemma iterate_ext {A : Type} (f g : Z -> A -> A) B k acc0 :
  (forall p acc, f p acc = g p acc) ->
  iterate f B k acc0 = iterate g B k acc0.
Proof.
  intros H. induction k as [|k IH]; cbn [iterate]; [reflexivity|].
  now rewrite IH, H.
Qed.

Lemma iterate_crossed {A : Type} (f g : Z -> A -> A) (c : A -> A) B k acc0 :
  (forall p acc, g p (c acc) = c (f p acc)) ->
  iterate g B k (c acc0) = c (iterate f B k acc0).
Proof.
  intros H. induction k as [|k IH]; cbn [iterate]; [reflexivity|].
  now rewrite IH, H.
Qed.

Lemma generic_result_exchange n s :
  generic_result input taps n s = generic_result taps input n s.
Proof. unfold generic_result. now rewrite (prod_it_exchange (n - 1)). Qed.

Lemma sse3_result_exchange n acc :
  sse3_result input taps n acc = sse3_result taps input n acc.
Proof. unfold sse3_result. now rewrite (prod_it_exchange (n - 1)). Qed.

Lemma avx_result_exchange n acc :
  avx_result input taps n acc = avx_result taps input n acc.
Proof. apply tail_sum_ext, prod_it_exchange. Qed.

Lemma neon_result_exchange B n acc :
  neon_result input taps B n acc = neon_result taps input B n acc.
Proof. apply tail_sum_ext, prod_ti_exchange. Qed.

Lemma neon_optfma_iterate_exchange k :
  iterate (neon_optfma_lanes taps input) 4 k (zero2x4, zero2x4)
  = crossed (iterate (neon_optfma_lanes input taps) 4 k (zero2x4, zero2x4)).
Proof.
  exact (iterate_crossed _ _ crossed 4 k (zero2x4, zero2x4)
           neon_optfma_lanes_exchange).
Qed.

Lemma neon_optfmaunroll_iterate_exchange k :
  iterate (neon_optfmaunroll_lanes taps input) 8 k (zero4x4, zero4x4)
  = crossed4 (iterate (neon_optfmaunroll_lanes input taps) 8 k
                (zero4x4, zero4x4)).
Proof.
  exact (iterate_crossed _ _ crossed4 8 k (zero4x4, zero4x4)
           neon_optfmaunroll_lanes_exchange).
Qed.

(** Every variant but the two that use the fused multiply-add leaves the
    same [*result] when [input] and [taps] change places. *)
Lemma result_of_exchange v n :
  v <> u_avx_fma -> v <> a_avx_fma ->
  result_of input taps v n = result_of taps input v n.
Proof.
  intros H1 H2. destruct v; try congruence; cbn [result_of].
  - rewrite (iterate_ext _ _ 4 _ _ generic_sums_exchange).
    apply generic_result_exchange.
  - unfold sse3_value. rewrite (iterate_ext _ _ 2 _ _ sse3_lanes_exchange).
    apply sse3_result_exchange.
  - rewrite (iterate_ext _ _ 4 _ _ avx_lanes_exchange).
    apply avx_result_exchange.
  - unfold sse3_value. rewrite (iterate_ext _ _ 2 _ _ sse3_lanes_exchange).
    apply sse3_result_exchange.
  - rewrite (iterate_ext _ _ 4 _ _ neon_lanes_exchange).
    apply neon_result_exchange.
  - rewrite !neon_opttests_iterate.
    rewrite (iterate_ext _ _ 4 _ _ neon_lanes_exchange).
    apply neon_result_exchange.
  - rewrite neon_optfma_iterate_exchange, optfma_reduce_crossed.
    apply neon_result_exchange.
  - rewrite neon_optfmaunroll_iterate_exchange, optfmaunroll_reduce_crossed.
    apply neon_result_exchange.
  - rewrite (iterate_ext _ _ 4 _ _ avx_lanes_exchange).
    apply avx_result_exchange.
Qed.
End Exchange.

(** ** Up to three samples *)

Section UpToThree.
Variables input taps : list float.

(** The products of the first [n] samples added to zero one after the
    other. *)
Definition sum_in_order (n : Z) : lv_32fc_t :=
  tail_sum (prod_it input taps) czero 0 (Z.to_nat n).

Lemma add_zero_not_negative_zero (y : float) :
  fadd fzero y <> S754_zero true.
Proof.
  cbn [fadd fzero b32_ops]. rewrite add_zero_l.
  now destruct y as [[|]|[|]| |s m e].
Qed.

(** Adding [0 + y] or [y] to what is not the negative zero gives the
    same. *)
Lemma add_zero_plus (x y : float) :
  x <> S754_zero true -> fadd x (fadd fzero y) = fadd x y.
Proof.
  intros Hx. cbn [fadd fzero b32_ops]. rewrite add_zero_l.
  destruct y as [[|]|[|]| |s m e]; try reflexivity.
  destruct x as [[|]|[|]| |s m e]; try reflexivity. congruence.
Qed.

Lemma avx_in_order n :
  0 <= n <= 3 -> avx_result input taps n zero8 = sum_in_order n.
Proof.
  intros Hn. unfold avx_result, sum_in_order.
  rewrite Z.mod_small by lia. replace (n - n) with 0 by lia. reflexivity.
Qed.

Lemma neon_in_order B n :
  3 < B -> 0 <= n <= 3 ->
  neon_result input taps B n zero2x4 = sum_in_order n.
Proof.
  intros HB Hn. unfold neon_result, sum_in_order.
  rewrite Z.mod_small, Z.div_small, Z.mul_0_r by lia.
  apply tail_sum_ext. intros i. apply cmul_commutes.
Qed.

Ltac offsets :=
  repeat match goal with
    | |- context [znth _ _ ?p] =>
        progress (let q := eval vm_compute in p in change p with q)
    end.

Lemma generic_in_order n :
  0 <= n <= 3 -> result_of input taps generic n = sum_in_order n.
Proof.
  intros Hn. assert (Hc : n = 0 \/ n = 1 \/ n = 2 \/ n = 3) by lia.
  destruct Hc as [-> | [-> | [-> | ->]]]; try reflexivity.
  - cbn [result_of]. change (Z.to_nat (2 / 2)) with 1%nat. cbn [iterate].
    unfold generic_result, generic_sums, vec4, sum_in_order, tail_sum.
    change (2 mod 2 =? 0) with true. change (Z.to_nat 2) with 2%nat.
    cbn [zseq fold_left fst snd lane nth].
    unfold cadd, prod_it, cmul, cnth, czero, lv_cmake. cbn [fst snd]. offsets.
    now rewrite !add_zero_plus by apply add_zero_not_negative_zero.
  - cbn [result_of]. change (Z.to_nat (3 / 2)) with 1%nat. cbn [iterate].
    unfold generic_result, generic_sums, vec4, sum_in_order, tail_sum.
    change (3 mod 2 =? 0) with false. change (Z.to_nat 3) with 3%nat.
    cbn [zseq fold_left fst snd lane nth].
    unfold cadd, prod_it, cmul, cnth, czero, lv_cmake. cbn [fst snd]. offsets.
    now rewrite !add_zero_plus by apply add_zero_not_negative_zero.
Qed.

Lemma result_of_in_order v n :
  0 <= n <= 3 -> result_of input taps v n = sum_in_order n.
Proof.
  intros Hn.
  assert (H4 : Z.to_nat (n / 4) = O)
    by (rewrite Z.div_small by lia; reflexivity).
  assert (H8 : Z.to_nat (n / 8) = O)
    by (rewrite Z.div_small by lia; reflexivity).
  destruct v.
  - now apply generic_in_order.
  - rewrite u_sse3_result_generic. now apply generic_in_order.
  - cbn [result_of]. rewrite H4. now apply avx_in_order.
  - cbn [result_of]. rewrite H4. now apply avx_in_order.
  - rewrite a_sse3_result_u_sse3, u_sse3_result_generic
      by (change (2 ^ 29) with 536870912; lia).
    now apply generic_in_order.
  - cbn [result_of]. rewrite H4. apply neon_in_order; lia.
  - cbn [result_of]. rewrite H4. apply neon_in_order; lia.
  - cbn [result_of]. rewrite H4. apply (neon_in_order 4); lia.
  - cbn [result_of]. rewrite H8. apply (neon_in_order 8); lia.
  - cbn [result_of]. rewrite H4. now apply avx_in_order.
  - cbn [result_of]. rewrite H4. now apply avx_in_order.
Qed.
End UpToThree.
End DotProdBinary32.

(* ===================================================================== *)
(** * The dot-product kernels: the floats read *)
(* ===================================================================== *)

Module DotProdLoads.
Import DotProd DotProdFacts.

(** Every float read from [input] or [taps] is one of the first [N]. *)
Definition loads_below (N : Z) (t : list event) : Prop :=
  forall b p, In (Ld b p) t -> 0 <= p < N.

Lemma loads_below_nil N : loads_below N [].
Proof. intros b p []. Qed.

Lemma loads_below_ld N t b p :
  0 <= p < N -> loads_below N t -> loads_below N (t ++ [Ld b p]).
Proof.
  intros Hp Ht b' p' Hin. apply in_app_or in Hin. destruct Hin as [Hin|Hin].
  - now apply (Ht b').
  - destruct Hin as [[= <- <-]|[]]. exact Hp.
Qed.

Lemma loads_below_ldres N t k :
  loads_below N t -> loads_below N (t ++ [LdRes k]).
Proof.
  intros Ht b' p' Hin. apply in_app_or in Hin. destruct Hin as [Hin|Hin].
  - now apply (Ht b').
  - destruct Hin as [[=]|[]].
Qed.

Lemma loads_below_stres N t k :
  loads_below N t -> loads_below N (t ++ [StRes k]).
Proof.
  intros Ht b' p' Hin. apply in_app_or in Hin. destruct Hin as [Hin|Hin].
  - now apply (Ht b').
  - destruct Hin as [[=]|[]].
Qed.

Ltac below :=
  cbn [trace];
  repeat first [ apply loads_below_ld; [lia|]
               | apply loads_below_ldres
               | apply loads_below_stres ];
  assumption.

Section Facts.
Context {F : Type} {FO : FloatOps F}.
Variables input taps : list F.

Local Abbreviation mem := (mem (F := F)).

Ltac wp_step :=
  lazymatch goal with
  | |- wp (bind _ _) _ _ => apply wp_bind
  | |- wp (ret _) _ _ => apply wp_ret
  | |- wp (loadf _ _ _ _) _ _ => apply wp_load_float; [cbn [buf]; lia|]
  | |- wp (loadc _ _ _ _) _ _ => unfold loadc
  | |- wp (store_res 0 _) _ _ => apply wp_store_res0
  | |- wp (store_res 1 _) _ _ => apply wp_store_res1
  | |- wp (load_res 0) _ _ => apply wp_load_res0
  | |- wp (load_res 1) _ _ => apply wp_load_res1
  | |- wp (store_result _) _ _ => unfold store_result
  | |- wp load_result _ _ => unfold load_result
  | |- wp (_mm_loadu_ps _ _ _ _) _ _ => unfold _mm_loadu_ps
  | |- wp (_mm_load_ps _ _ _ _) _ _ => unfold _mm_load_ps, _mm_loadu_ps
  | |- wp (_mm256_loadu_ps _ _ _ _) _ _ => unfold _mm256_loadu_ps
  | |- wp (_mm256_load_ps _ _ _ _) _ _ =>
      unfold _mm256_load_ps, _mm256_loadu_ps
  | |- wp (vld2q_f32 _ _ _ _) _ _ => unfold vld2q_f32
  | |- wp (vld4q_f32 _ _ _ _) _ _ => unfold vld4q_f32
  end; cbv beta iota zeta; cbn [buf fst snd lv_cmake].

(** A main loop over [k] blocks of [B] samples reads below [N] when each
    of its iterations does. *)
Lemma loads_loop {L A : Type} (mk : Z -> Z -> A -> L) (B : Z)
  (body : Z -> L -> M (St := mem) L) (N : Z) k acc0 r t :
  (forall j acc r' t' number, (j < k)%nat -> loads_below N t' ->
     wp (body number (mk (B * Z.of_nat j) (B * Z.of_nat j) acc))
       (fun l m' => (exists acc', l = mk (B * Z.of_nat j + B)
                                        (B * Z.of_nat j + B) acc')
                    /\ loads_below N (trace m'))
       (Mem r' t')) ->
  loads_below N t ->
  wp (for_range k 0 body (mk 0 0 acc0))
    (fun l m' => (exists acc, l = mk (B * Z.of_nat k) (B * Z.of_nat k) acc)
                 /\ loads_below N (trace m'))
    (Mem r t).
Proof.
  intros Hbody Ht.
  apply (wp_for_range
    (fun j (l : L) m' =>
       (exists acc, l = mk (B * Z.of_nat j) (B * Z.of_nat j) acc)
       /\ loads_below N (trace m'))).
  - split; [|exact Ht]. exists acc0. now rewrite Z.mul_0_r.
  - intros j l m' Hj [(acc & ->) Hb]. destruct m' as [r' t'].
    cbn [trace] in Hb.
    eapply wp_conseq; [apply (Hbody j acc r' t' (0 + Z.of_nat j) Hj Hb)|].
    cbv beta. intros l m2 [(acc' & ->) Hb2]. split; [|exact Hb2].
    exists acc'. replace (B * Z.of_nat (S j)) with (B * Z.of_nat j + B) by lia.
    reflexivity.
Qed.

Lemma generic_body_loads N p s0 s1 r t number :
  0 <= p -> p + 4 <= N -> N <= zlen input -> N <= zlen taps ->
  loads_below N t ->
  wp (generic_body input taps number (p, p, s0, s1))
    (fun l m' => (exists s, l = (p + 4, p + 4, fst s, snd s))
                 /\ loads_below N (trace m'))
    (Mem r t).
Proof.
  intros Hp HN Hin Htp Ht. destruct s0 as [s00 s01], s1 as [s10 s11].
  unfold generic_body. repeat wp_step.
  split; [eexists (_, _); reflexivity|]. below.
Qed.

Lemma sse3_body_loads N a acc r t number :
  0 <= a -> 2 * a + 4 <= N -> N <= zlen input -> N <= zlen taps ->
  loads_below N t ->
  wp (sse3_body (_mm_loadu_ps input taps) number (a, a, acc))
    (fun l m' => (exists acc', l = (a + 2, a + 2, acc'))
                 /\ loads_below N (trace m'))
    (Mem r t).
Proof.
  intros Ha HN Hin Htp Ht. unfold sse3_body. repeat wp_step.
  split; [eexists; reflexivity|]. below.
Qed.

Lemma avx_body_loads N a acc r t number :
  0 <= a -> 2 * a + 8 <= N -> N <= zlen input -> N <= zlen taps ->
  loads_below N t ->
  wp (avx_body (_mm256_loadu_ps input taps) number (a, a, acc))
    (fun l m' => (exists acc', l = (a + 4, a + 4, acc'))
                 /\ loads_below N (trace m'))
    (Mem r t).
Proof.
  intros Ha HN Hin Htp Ht. unfold avx_body. repeat wp_step.
  split; [eexists; reflexivity|]. below.
Qed.

Lemma avx_fma_body_loads N a acc r t number :
  0 <= a -> 2 * a + 8 <= N -> N <= zlen input -> N <= zlen taps ->
  loads_below N t ->
  wp (avx_fma_body (_mm256_loadu_ps input taps) number (a, a, acc))
    (fun l m' => (exists acc', l = (a + 4, a + 4, acc'))
                 /\ loads_below N (trace m'))
    (Mem r t).
Proof.
  intros Ha HN Hin Htp Ht. unfold avx_fma_body. repeat wp_step.
  split; [eexists; reflexivity|]. below.
Qed.

Lemma neon_body_loads N p acc r t number :
  0 <= p -> 2 * p + 8 <= N -> N <= zlen input -> N <= zlen taps ->
  loads_below N t ->
  wp (neon_body input taps number (p, p, acc))
    (fun l m' => (exists acc', l = (p + 4, p + 4, acc'))
                 /\ loads_below N (trace m'))
    (Mem r t).
Proof.
  intros Hp HN Hin Htp Ht. destruct acc as [acc0 acc1].
  unfold neon_body. repeat wp_step.
  split; [eexists; reflexivity|]. below.
Qed.

Lemma neon_opttests_body_loads N p acc r t number :
  0 <= p -> 2 * p + 8 <= N -> N <= zlen input -> N <= zlen taps ->
  loads_below N t ->
  wp (neon_opttests_body input taps number (p, p, acc))
    (fun l m' => (exists acc', l = (p + 4, p + 4, acc'))
                 /\ loads_below N (trace m'))
    (Mem r t).
Proof.
  intros Hp HN Hin Htp Ht. destruct acc as [acc0 acc1].
  unfold neon_opttests_body. repeat wp_step.
  split; [eexists; reflexivity|]. below.
Qed.

Lemma neon_optfma_body_loads N p acc r t number :
  0 <= p -> 2 * p + 8 <= N -> N <= zlen input -> N <= zlen taps ->
  loads_below N t ->
  wp (neon_optfma_body input taps number (p, p, fst acc, snd acc))
    (fun l m' => (exists acc', l = (p + 4, p + 4, fst acc', snd acc'))
                 /\ loads_below N (trace m'))
    (Mem r t).
Proof.
  intros Hp HN Hin Htp Ht. destruct acc as [[a10 a11] [a20 a21]].
  unfold neon_optfma_body. cbn [fst snd]. repeat wp_step.
  split; [eexists (_, _); reflexivity|]. below.
Qed.

Lemma neon_optfmaunroll_body_loads N p acc r t number :
  0 <= p -> 2 * p + 16 <= N -> N <= zlen input -> N <= zlen taps ->
  loads_below N t ->
  wp (neon_optfmaunroll_body input taps number (p, p, fst acc, snd acc))
    (fun l m' => (exists acc', l = (p + 8, p + 8, fst acc', snd acc'))
                 /\ loads_below N (trace m'))
    (Mem r t).
Proof.
  intros Hp HN Hin Htp Ht.
  destruct acc as [[[[a10 a11] a12] a13] [[[a20 a21] a22] a23]].
  unfold neon_optfmaunroll_body. cbn [fst snd]. repeat wp_step.
  split; [eexists (_, _); reflexivity|]. below.
Qed.

(** ** Tails *)

Lemma avx_tail_loads N d lo k r t :
  0 <= lo -> 2 * (lo + Z.of_nat k) <= N -> N <= zlen input ->
  N <= zlen taps -> loads_below N t ->
  wp (for_range k lo (avx_tail_body input taps) d)
    (fun _ m' => loads_below N (trace m')) (Mem r t).
Proof.
  intros Hlo HN Hin Htp Ht.
  eapply wp_conseq.
  - apply (wp_for_range
      (fun (j : nat) (d' : lv_32fc_t) m' => loads_below N (trace m'))).
    + exact Ht.
    + intros j d' m' Hj Hb. destruct m' as [r' t']. cbn [trace] in Hb.
      unfold avx_tail_body. repeat wp_step. below.
  - cbv beta. auto.
Qed.

Lemma neon_tail_loads N lo k number r t :
  0 <= lo -> 2 * (lo + Z.of_nat k) <= N -> N <= zlen input ->
  N <= zlen taps -> loads_below N t ->
  wp (for_range k number (neon_tail_body input taps) (lo, lo))
    (fun _ m' => loads_below N (trace m')) (Mem r t).
Proof.
  intros Hlo HN Hin Htp Ht.
  eapply wp_conseq.
  - apply (wp_for_range
      (fun j (l : Z * Z) m' =>
         l = (lo + Z.of_nat j, lo + Z.of_nat j)
         /\ loads_below N (trace m'))).
    + rewrite Z.add_0_r. split; [reflexivity|exact Ht].
    + intros j l m' Hj [-> Hb]. destruct m' as [[re im] t'].
      cbn [trace] in Hb.
      unfold neon_tail_body. repeat wp_step.
      split; [f_equal; lia|]. below.
  - cbv beta. intros l m' [_ Hb]. exact Hb.
Qed.

Lemma sse3_finish_loads n acc r t :
  0 <= n < 2 ^ 32 -> 2 * n <= zlen input -> 2 * n <= zlen taps ->
  loads_below (2 * n) t ->
  wp (sse3_finish input taps n (u32_and n 1) acc)
    (fun _ m' => loads_below (2 * n) (trace m')) (Mem r t).
Proof.
  intros Hn Hin Htp Ht. destruct r as [re im].
  pose proof (Z.div_mod n 2 ltac:(lia)) as Hdm.
  pose proof (Z.mod_pos_bound n 2 ltac:(lia)) as Hmod.
  unfold sse3_finish. rewrite u32_and_1. cbv zeta.
  destruct (Z.eqb_spec (n mod 2) 0) as [He|He].
  - repeat wp_step. below.
  - rewrite u32_sub_small by lia. repeat wp_step. below.
Qed.

Lemma avx_finish_loads n acc r t :
  0 <= n < 2 ^ 32 -> 2 * n <= zlen input -> 2 * n <= zlen taps ->
  loads_below (2 * n) t ->
  wp (avx_finish input taps n (u32_and n 3) acc)
    (fun _ m' => loads_below (2 * n) (trace m')) (Mem r t).
Proof.
  intros Hn Hin Htp Ht.
  pose proof (Z.div_mod n 4 ltac:(lia)) as Hdm.
  pose proof (Z.mod_pos_bound n 4 ltac:(lia)) as Hmod.
  assert (0 <= n / 4) by (apply Z.div_pos; lia).
  unfold avx_finish. rewrite u32_and_3. cbv zeta.
  rewrite u32_sub_small by lia. unfold for_loop. apply wp_bind.
  replace (n - (n - n mod 4)) with (n mod 4) by lia.
  eapply wp_conseq; [apply (avx_tail_loads (2 * n)); try assumption; lia|].
  cbv beta. intros d m' Hb. destruct m' as [[re im] t'].
  cbn [trace] in Hb. repeat wp_step. below.
Qed.

Lemma neon_finish_loads B n acc r t :
  0 < B -> 0 <= n < 2 ^ 32 -> 2 * n <= zlen input -> 2 * n <= zlen taps ->
  loads_below (2 * n) t ->
  wp (neon_finish input taps (u32_mul (u32_div n B) B) n
        (B * (n / B)) (B * (n / B)) acc)
    (fun _ m' => loads_below (2 * n) (trace m')) (Mem r t).
Proof.
  intros HB Hn Hin Htp Ht. destruct r as [re im].
  pose proof (Z.div_mod n B ltac:(lia)) as Hdm.
  pose proof (Z.mod_pos_bound n B ltac:(lia)) as Hmod.
  assert (0 <= n / B) by (apply Z.div_pos; lia).
  unfold neon_finish. rewrite u32_mul_div by lia. cbv zeta.
  repeat wp_step. unfold for_loop.
  replace (n - B * (n / B)) with (n mod B) by lia.
  eapply wp_conseq.
  - apply (neon_tail_loads (2 * n)); try assumption; try lia. below.
  - cbv beta. intros l m' Hb. apply wp_ret. exact Hb.
Qed.

(** ** Whole kernels *)

Section Kernels.
Variable n : Z.
Variable r0 : lv_32fc_t (F := F).
Hypothesis Hn : 0 <= n < 2 ^ 32.
Hypothesis Hin : 2 * n <= zlen input.
Hypothesis Htp : 2 * n <= zlen taps.

Local Abbreviation reads_in_bounds k :=
  (wp k (fun _ m => loads_below (2 * n) (trace m)) (Mem r0 [])).

Lemma generic_loads :
  reads_in_bounds (volk_32fc_x2_dot_prod_32fc_generic input taps n).
Proof.
  assert (Hdiv : 0 <= n / 2) by (apply Z.div_pos; lia).
  assert (Hmul : 2 * (n / 2) <= n) by (apply Z.mul_div_le; lia).
  pose proof (Z.div_mod n 2 ltac:(lia)) as Hdm.
  pose proof (Z.mod_pos_bound n 2 ltac:(lia)) as Hmod.
  unfold volk_32fc_x2_dot_prod_32fc_generic, for_loop, u32_div.
  rewrite Z.sub_0_r, u32_and_1. apply wp_bind.
  eapply wp_conseq.
  - apply (loads_loop
             (fun a b (s : (F * F) * (F * F)) => (a, b, fst s, snd s))
             4 (generic_body input taps) (2 * n) (Z.to_nat (n / 2))
             ((fzero, fzero), (fzero, fzero)) r0 []);
      [|apply loads_below_nil].
    intros j s r' t' number Hj Hb.
    apply generic_body_loads; (assumption || lia).
  - cbv beta. intros l m' [(s & ->) Hb].
    destruct m' as [[re im] t']. cbn [trace] in Hb.
    destruct s as [[s00 s01] [s10 s11]]. cbn [fst snd]. cbv beta iota.
    repeat wp_step.
    destruct (Z.eqb_spec (n mod 2) 0) as [He|He].
    + apply wp_ret. below.
    + unfold result_add_product. rewrite u32_sub_small by lia.
      repeat wp_step. below.
Qed.

Lemma sse3_loads h :
  0 <= h -> 2 * h <= n ->
  reads_in_bounds
    ('(_, _, dotProdVal) <-
       for_loop 0 h (sse3_body (_mm_loadu_ps input taps))
         (0, 0, _mm_setzero_ps) ;;
     sse3_finish input taps n (u32_and n 1) dotProdVal).
Proof.
  intros Hh Hhn. unfold for_loop. rewrite Z.sub_0_r. apply wp_bind.
  eapply wp_conseq.
  - apply (loads_loop (fun a b (acc : list F) => (a, b, acc)) 2
             (sse3_body (_mm_loadu_ps input taps)) (2 * n) (Z.to_nat h)
             _mm_setzero_ps r0 []); [|apply loads_below_nil].
    intros j acc r' t' number Hj Hb.
    apply sse3_body_loads; (assumption || lia).
  - cbv beta. intros l m' [(acc & ->) Hb]. destruct m' as [r' t'].
    cbn [trace] in Hb. cbv beta iota.
    now apply sse3_finish_loads.
Qed.

Lemma avx_loads (body : Z -> Z * Z * list F -> M (St := mem) _) :
  (forall a acc r t number,
     0 <= a -> 2 * a + 8 <= 2 * n -> loads_below (2 * n) t ->
     wp (body number (a, a, acc))
       (fun l m' => (exists acc', l = (a + 4, a + 4, acc'))
                    /\ loads_below (2 * n) (trace m'))
       (Mem r t)) ->
  reads_in_bounds
    ('(_, _, dotProdVal) <-
       for_loop 0 (u32_div n 4) body (0, 0, _mm256_setzero_ps) ;;
     avx_finish input taps n (u32_and n 3) dotProdVal).
Proof.
  intros Hbody.
  assert (0 <= n / 4) by (apply Z.div_pos; lia).
  assert (4 * (n / 4) <= n) by (apply Z.mul_div_le; lia).
  unfold for_loop, u32_div. rewrite Z.sub_0_r. apply wp_bind.
  eapply wp_conseq.
  - apply (loads_loop (fun a b (acc : list F) => (a, b, acc)) 4
             body (2 * n) (Z.to_nat (n / 4)) _mm256_setzero_ps r0 []);
      [|apply loads_below_nil].
    intros j acc r' t' number Hj Hb.
    apply Hbody; (assumption || lia).
  - cbv beta. intros l m' [(acc & ->) Hb]. destruct m' as [r' t'].
    cbn [trace] in Hb. cbv beta iota.
    now apply avx_finish_loads.
Qed.

Lemma neon_loads {L A : Type} (mk : Z -> Z -> A -> L) (B : Z)
  (body : Z -> L -> M (St := mem) L)
  (reduce : A -> list F * list F) (kont : L -> M (St := mem) unit) acc0 :
  0 < B ->
  (forall a acc r t number,
     0 <= a -> 2 * a + 2 * B <= 2 * n -> loads_below (2 * n) t ->
     wp (body number (mk a a acc))
       (fun l m' => (exists acc', l = mk (a + B) (a + B) acc')
                    /\ loads_below (2 * n) (trace m'))
       (Mem r t)) ->
  (forall a b acc,
     kont (mk a b acc)
     = neon_finish input taps (u32_mul (u32_div n B) B) n a b (reduce acc)) ->
  reads_in_bounds (l <- for_loop 0 (u32_div n B) body (mk 0 0 acc0) ;; kont l).
Proof.
  intros HB Hbody Hkont.
  assert (0 <= n / B) by (apply Z.div_pos; lia).
  assert (B * (n / B) <= n) by (apply Z.mul_div_le; lia).
  unfold for_loop, u32_div. rewrite Z.sub_0_r. apply wp_bind.
  eapply wp_conseq.
  - apply (loads_loop mk B body (2 * n) (Z.to_nat (n / B)) acc0 r0 []);
      [|apply loads_below_nil].
    intros j acc r' t' number Hj Hb.
    apply Hbody; (assumption || nia).
  - cbv beta. intros l m' [(acc & ->) Hb]. destruct m' as [r' t'].
    cbn [trace] in Hb. rewrite Hkont, Z2Nat.id by lia.
    now apply neon_finish_loads.
Qed.

Lemma variant_loads v :
  exists m,
    run (kernel v input taps n) r0 = Some m
    /\ loads_below (2 * n) (trace m).
Proof.
  apply run_of_wp. destruct v; cbn [kernel].
  - apply generic_loads.
  - apply sse3_loads; [apply Z.div_pos; lia | apply Z.mul_div_le; lia].
  - apply (avx_loads (avx_body (_mm256_loadu_ps input taps))).
    intros. apply avx_body_loads; (assumption || lia).
  - apply (avx_loads (avx_fma_body (_mm256_loadu_ps input taps))).
    intros. apply avx_fma_body_loads; (assumption || lia).
  - unfold wp.
    rewrite a_sse3_unaligned by apply (aligned_for_aligned a_sse3).
    rewrite a_sse3_halfPoints. apply sse3_loads.
    + apply Z.div_pos; [apply Z.mod_pos_bound|]; lia.
    + pose proof (Z.mod_le (n * 8) (2 ^ 32) ltac:(lia) ltac:(lia)).
      pose proof (Z.mul_div_le ((n * 8) mod 2 ^ 32) 16 ltac:(lia)). lia.
  - apply (neon_loads (fun a b (acc : list F * list F) => (a, b, acc)) 4
             (neon_body input taps) (fun acc => acc)
             (fun l => let '(a_ptr, b_ptr, accumulator) := l in
                       neon_finish input taps (u32_mul (u32_div n 4) 4) n
                         a_ptr b_ptr accumulator)
             (zero4, zero4));
      [lia| |reflexivity].
    intros. apply neon_body_loads; (assumption || lia).
  - apply (neon_loads (fun a b (acc : list F * list F) => (a, b, acc)) 4
             (neon_opttests_body input taps) (fun acc => acc)
             (fun l => let '(a_ptr, b_ptr, accumulator) := l in
                       neon_finish input taps (u32_mul (u32_div n 4) 4) n
                         a_ptr b_ptr accumulator)
             (zero4, zero4));
      [lia| |reflexivity].
    intros. apply neon_opttests_body_loads; (assumption || lia).
  - apply (neon_loads
             (fun a b (acc : (list F * list F) * (list F * list F)) =>
                (a, b, fst acc, snd acc)) 4
             (neon_optfma_body input taps) optfma_reduce
             (fun l =>
                let '(a_ptr, b_ptr, (accumulator1_0, accumulator1_1),
                      (accumulator2_0, accumulator2_1)) := l in
                neon_finish input taps (u32_mul (u32_div n 4) 4) n a_ptr b_ptr
                  (vaddq_f32 accumulator1_0 accumulator2_0,
                   vaddq_f32 accumulator1_1 accumulator2_1))
             ((zero4, zero4), (zero4, zero4)));
      [lia| |].
    + intros. apply neon_optfma_body_loads; (assumption || lia).
    + intros a b [[a10 a11] [a20 a21]]. reflexivity.
  - apply (neon_loads
             (fun a b (acc : x4 * x4) => (a, b, fst acc, snd acc)) 8
             (neon_optfmaunroll_body input taps) optfmaunroll_reduce
             (fun l =>
                let '(a_ptr, b_ptr,
                      (accumulator1_0, accumulator1_1, accumulator1_2,
                       accumulator1_3),
                      (accumulator2_0, accumulator2_1, accumulator2_2,
                       accumulator2_3)) := l in
                neon_finish input taps (u32_mul (u32_div n 8) 8) n a_ptr b_ptr
                  (vaddq_f32 (vaddq_f32 accumulator1_0 accumulator1_2)
                     (vaddq_f32 accumulator2_0 accumulator2_2),
                   vaddq_f32 (vaddq_f32 accumulator1_1 accumulator1_3)
                     (vaddq_f32 accumulator2_1 accumulator2_3)))
             ((zero4, zero4, zero4, zero4), (zero4, zero4, zero4, zero4)));
      [lia| |].
    + intros. apply neon_optfmaunroll_body_loads; (assumption || lia).
    + intros a b [[[[a10 a11] a12] a13] [[[a20 a21] a22] a23]]. reflexivity.
  - unfold wp.
    rewrite a_avx_unaligned by apply (aligned_for_aligned a_avx).
    apply (avx_loads (avx_body (_mm256_loadu_ps input taps))).
    intros. apply avx_body_loads; (assumption || lia).
  - unfold wp.
    rewrite a_avx_fma_unaligned by apply (aligned_for_aligned a_avx_fma).
    apply (avx_loads (avx_fma_body (_mm256_loadu_ps input taps))).
    intros. apply avx_fma_body_loads; (assumption || lia).
Qed.
End Kernels.
End Facts.
End DotProdLoads.

(* ===================================================================== *)
(** * The dot-product kernels: further properties *)
(* ===================================================================== *)

Module DotProdProps.
Import DotProd DotProdFacts DotProdExact DotProdResult B32Facts B32Zero.
Import DotProdBinary32 DotProdLoads.
Import DeinterleaveClaims DotProdClaims.

Local Abbreviation float := B32.float.

(** X9: [*result] is an output only.  Two calls on the same buffers that find
    different values in [*result] leave the same value there, for every
    variant, also those whose tail accumulates in [*result] (they assign it
    before they add to it). *)
Theorem dot_prod_ignores_previous_result (v : variant)
  (input taps : list float) (num_points : Z) (r0 r0' : lv_32fc_t) :
  0 <= num_points < 2 ^ 32 ->
  2 * num_points <= zlen input -> 2 * num_points <= zlen taps ->
  exists m m',
    run (kernel v input taps num_points) r0 = Some m
    /\ run (kernel v input taps num_points) r0' = Some m'
    /\ result m = result m'.
Proof.
  intros Hn Hin Htp.
  destruct (variant_result input taps v num_points r0 Hn Hin Htp)
    as (m & Hr & Hres).
  destruct (variant_result input taps v num_points r0' Hn Hin Htp)
    as (m' & Hr' & Hres').
  exists m, m'. split; [exact Hr|]. split; [exact Hr'|]. congruence.
Qed.

Lemma dot_prod_ignores_previous_result_witness :
  exists m m',
    run (kernel neon cancelling ones 3) r_old = Some m
    /\ run (kernel neon cancelling ones 3) (one, half) = Some m'
    /\ result m = result m'.
Proof.
  apply (dot_prod_ignores_previous_result neon cancelling ones 3 r_old
           (one, half)); vm_compute; intuition discriminate.
Defined.

Lemma neon_opttests_body_neon (input taps : list float) number l s :
  neon_opttests_body input taps number l s = neon_body input taps number l s.
Proof.
  destruct l as [[a_ptr b_ptr] [acc0 acc1]].
  unfold neon_opttests_body, neon_body, bind.
  destruct (vld2q_f32 input taps Taps (2 * a_ptr) s) as [[[a0 a1] s1]|];
    [|reflexivity].
  destruct (vld2q_f32 input taps Input (2 * b_ptr) s1) as [[[b0 b1] s2]|];
    [|reflexivity].
  unfold ret, vmlaq_f32, vmlsq_f32, vaddq_f32, vsubq_f32, vmulq_f32.
  now rewrite (vmap2_add_comm (vmap2 fmul a1 b0)).
Qed.

(** X10: [neon_opttests] behaves as [neon] on every input: same value left
    in [*result], same accesses in the same order, also when a buffer is too
    short.  Its multiply-accumulate and multiply-subtract compute the sums
    and differences of the same rounded products, the imaginary part with
    its two terms in the other order. *)
Theorem neon_opttests_runs_as_neon (input taps : list float)
  (num_points : Z) (r0 : lv_32fc_t) :
  run (kernel neon_opttests input taps num_points) r0
  = run (kernel neon input taps num_points) r0.
Proof.
  cbn [kernel].
  unfold run, volk_32fc_x2_dot_prod_32fc_neon_opttests,
    volk_32fc_x2_dot_prod_32fc_neon, for_loop, bind.
  cbv zeta.
  now rewrite (for_range_ext _ _ _ _ _ _ (neon_opttests_body_neon input taps)).
Qed.

(** X11: in binary32 the SSE3 variants leave in [*result] the very floats
    the generic variant leaves (the aligned one for [num_points < 2^29]).
    The register holds the generic variant's four sums: each lane adds the
    same rounded products in the same order, and the initial [0 +] of the
    SSE3 reduction changes nothing because a sum that starts from [+0] is
    never the negative zero.  Every operation is rounded to binary32, and
    the embedding has one NaN. *)
Theorem sse3_result_is_generic_result (v : variant)
  (input taps : list float) (num_points : Z) (r0 : lv_32fc_t) :
  v = u_sse3 \/ v = a_sse3 /\ num_points < 2 ^ 29 ->
  0 <= num_points < 2 ^ 32 ->
  2 * num_points <= zlen input -> 2 * num_points <= zlen taps ->
  exists m mg,
    run (kernel v input taps num_points) r0 = Some m
    /\ run (kernel generic input taps num_points) r0 = Some mg
    /\ result m = result mg.
Proof.
  intros Hv Hn Hin Htp.
  destruct (variant_result input taps v num_points r0 Hn Hin Htp)
    as (m & Hr & Hres).
  destruct (variant_result input taps generic num_points r0 Hn Hin Htp)
    as (mg & Hrg & Hresg).
  exists m, mg. split; [exact Hr|]. split; [exact Hrg|].
  rewrite Hres, Hresg. destruct Hv as [-> | [-> Hlt]].
  - apply u_sse3_result_generic.
  - rewrite a_sse3_result_u_sse3 by lia. apply u_sse3_result_generic.
Qed.

Lemma sse3_result_is_generic_result_witness :
  exists m mg,
    run (kernel a_sse3 cancelling ones 3) r_old = Some m
    /\ run (kernel generic cancelling ones 3) r_old = Some mg
    /\ result m = result mg.
Proof.
  apply (sse3_result_is_generic_result a_sse3 cancelling ones 3 r_old).
  - right. split; [reflexivity|lia].
  - lia.
  - vm_compute. discriminate.
  - vm_compute. discriminate.
Defined.

(** X12: in binary32 the variants that keep four complex sums and reduce
    them from left to right, [u_avx], [a_avx], [neon] and [neon_opttests],
    leave the same floats in [*result]: the eight lanes of the AVX register
    are the lanes of the NEON register pair, interleaved, and the tails add
    the same products [input[i] * taps[i] = taps[i] * input[i]] in the same
    order.  Every operation is rounded to binary32, and the embedding has
    one NaN. *)
Theorem avx_and_neon_results_are_equal (v : variant)
  (input taps : list float) (num_points : Z) (r0 : lv_32fc_t) :
  v = a_avx \/ v = neon \/ v = neon_opttests ->
  0 <= num_points < 2 ^ 32 ->
  2 * num_points <= zlen input -> 2 * num_points <= zlen taps ->
  exists m ma,
    run (kernel v input taps num_points) r0 = Some m
    /\ run (kernel u_avx input taps num_points) r0 = Some ma
    /\ result m = result ma.
Proof.
  intros Hv Hn Hin Htp.
  destruct (variant_result input taps v num_points r0 Hn Hin Htp)
    as (m & Hr & Hres).
  destruct (variant_result input taps u_avx num_points r0 Hn Hin Htp)
    as (ma & Hra & Hresa).
  exists m, ma. split; [exact Hr|]. split; [exact Hra|].
  rewrite Hres, Hresa. destruct Hv as [-> | [-> | ->]].
  - reflexivity.
  - apply neon_result_u_avx. lia.
  - rewrite neon_opttests_result_neon. apply neon_result_u_avx. lia.
Qed.

Lemma avx_and_neon_results_are_equal_witness :
  exists m ma,
    run (kernel neon loud loud' 11) r_old = Some m
    /\ run (kernel u_avx loud loud' 11) r_old = Some ma
    /\ result m = result ma.
Proof.
  apply (avx_and_neon_results_are_equal neon loud loud' 11 r_old).
  - right. left. reflexivity.
  - lia.
  - vm_compute. discriminate.
  - vm_compute. discriminate.
Defined.

(** X13: up to three samples every variant leaves the same floats in
    [*result]: the products [input[i] * taps[i]] added to zero one after the
    other.  No loop over blocks of four or eight iterates, and the two sums
    of the generic and SSE3 variants hold one product each.  (With four
    samples the variants add in different orders.) *)
Theorem dot_prod_in_order_up_to_three_points (v : variant)
  (input taps : list float) (num_points : Z) (r0 : lv_32fc_t) :
  0 <= num_points <= 3 ->
  2 * num_points <= zlen input -> 2 * num_points <= zlen taps ->
  exists m,
    run (kernel v input taps num_points) r0 = Some m
    /\ result m
       = fold_left (fun d i => cadd d (cmul (cnth input i) (cnth taps i)))
           (zseq 0 (Z.to_nat num_points)) czero.
Proof.
  intros Hn Hin Htp.
  destruct (variant_result input taps v num_points r0 ltac:(lia) Hin Htp)
    as (m & Hr & Hres).
  exists m. split; [exact Hr|]. rewrite Hres.
  now apply result_of_in_order.
Qed.

Lemma dot_prod_in_order_up_to_three_points_witness :
  exists m,
    run (kernel u_sse3 cancelling ones 3) r_old = Some m
    /\ result m
       = fold_left
           (fun d i => cadd d (cmul (cnth cancelling i) (cnth ones i)))
           (zseq 0 (Z.to_nat 3)) czero.
Proof.
  apply (dot_prod_in_order_up_to_three_points u_sse3 cancelling ones 3 r_old).
  - lia.
  - vm_compute. discriminate.
  - vm_compute. discriminate.
Defined.

(** X14: the dot product is commutative as computed.  In binary32 every
    variant but the two that use the fused multiply-add leaves the same
    floats in [*result] when [input] and [taps] change places; no variant
    conjugates an argument.  (The fused [a*b + c] of the imaginary part
    rounds [c] and not [a*b], and exchanging the buffers exchanges the two
    products.) *)
Theorem dot_prod_is_commutative (v : variant)
  (input taps : list float) (num_points : Z) (r0 : lv_32fc_t) :
  v <> u_avx_fma -> v <> a_avx_fma ->
  0 <= num_points < 2 ^ 32 ->
  2 * num_points <= zlen input -> 2 * num_points <= zlen taps ->
  exists m m',
    run (kernel v input taps num_points) r0 = Some m
    /\ run (kernel v taps input num_points) r0 = Some m'
    /\ result m = result m'.
Proof.
  intros H1 H2 Hn Hin Htp.
  destruct (variant_result input taps v num_points r0 Hn Hin Htp)
    as (m & Hr & Hres).
  destruct (variant_result taps input v num_points r0 Hn Htp Hin)
    as (m' & Hr' & Hres').
  exists m, m'. split; [exact Hr|]. split; [exact Hr'|].
  rewrite Hres, Hres'. now apply result_of_exchange.
Qed.

Lemma dot_prod_is_commutative_witness :
  exists m m',
    run (kernel neon_optfmaunroll loud loud' 11) r_old = Some m
    /\ run (kernel neon_optfmaunroll loud' loud 11) r_old = Some m'
    /\ result m = result m'.
Proof.
  apply (dot_prod_is_commutative neon_optfmaunroll loud loud' 11 r_old).
  - discriminate.
  - discriminate.
  - lia.
  - vm_compute. discriminate.
  - vm_compute. discriminate.
Defined.

(** ** Chunks, in exact arithmetic *)

Lemma zsum_ext f g lo k :
  (forall i, lo <= i < lo + Z.of_nat k -> f i = g i) ->
  zsum f lo k = zsum g lo k.
Proof.
  revert lo. induction k as [|k IH]; intros lo H; cbn [zsum]; [reflexivity|].
  rewrite H by lia. f_equal. apply IH. intros i Hi. apply H. lia.
Qed.

Lemma zsum_shift_from f lo a k :
  zsum f (lo + a) k = zsum (fun i => f (lo + i)) a k.
Proof.
  revert a. induction k as [|k IH]; intros a; cbn [zsum]; [reflexivity|].
  f_equal. rewrite <- IH. f_equal. lia.
Qed.

Lemma zsum_shift f lo k : zsum f lo k = zsum (fun i => f (lo + i)) 0 k.
Proof. rewrite <- zsum_shift_from. f_equal. lia. Qed.

Lemma dot_product_split (input taps : list Z) n k :
  0 <= k <= n ->
  dot_product input taps n
  = cadd (dot_product input taps k)
      (dot_product (advance k input) (advance k taps) (n - k)).
Proof.
  intros Hk. unfold dot_product, cadd, lv_cmake. cbn [fst snd fadd Z_ops].
  rewrite (zsum_split (re_at input taps) n k),
    (zsum_split (im_at input taps) n k) by lia.
  rewrite (zsum_shift (re_at input taps) k),
    (zsum_shift (im_at input taps) k).
  f_equal; f_equal; apply zsum_ext; intros i Hi; unfold re_at, im_at;
    rewrite !znth_advance by lia;
    replace (2 * k + 2 * i) with (2 * (k + i)) by lia;
    replace (2 * k + (2 * i + 1)) with (2 * (k + i) + 1) by lia;
    reflexivity.
Qed.

(** ** Placement *)

Section AnyPlacement.
Context {F : Type} {FO : FloatOps F}.
Variable P : Placement.
Variables input taps : list F.

(** A call at a placement of the alignment the variant requires runs as
    the call at [aligned]. *)
Lemma dot_prod_kernel_aligned v n s :
  aligned_for v P ->
  kernel (PL := P) v input taps n s
  = kernel (PL := aligned) v input taps n s.
Proof.
  destruct v; cbn [kernel]; intros Hal; try reflexivity.
  - rewrite (a_sse3_unaligned input taps (PL := P)) by exact Hal.
    rewrite (a_sse3_unaligned input taps (PL := aligned))
      by apply (aligned_for_aligned a_sse3).
    reflexivity.
  - rewrite (a_avx_unaligned input taps (PL := P)) by exact Hal.
    rewrite (a_avx_unaligned input taps (PL := aligned))
      by apply (aligned_for_aligned a_avx).
    reflexivity.
  - rewrite (a_avx_fma_unaligned input taps (PL := P)) by exact Hal.
    rewrite (a_avx_fma_unaligned input taps (PL := aligned))
      by apply (aligned_for_aligned a_avx_fma).
    reflexivity.
Qed.

(** The aligned variants fault on an [input] that lacks their alignment as
    soon as the main loop iterates: the first aligned load is at [input]
    itself. *)
Lemma a_sse3_faults_off_alignment n r0 :
  2 <= n < 2 ^ 29 -> input_addr mod 16 <> 0 ->
  run (kernel (PL := P) a_sse3 input taps n) r0 = None.
Proof.
  intros Hn Hal. cbn [kernel].
  unfold run, volk_32fc_x2_dot_prod_32fc_a_sse3, for_loop. cbv zeta.
  rewrite a_sse3_halfPoints.
  assert (1 <= ((n * 8) mod 2 ^ 32) / 16).
  { change (2 ^ 32) with 4294967296 in *. change (2 ^ 29) with 536870912 in *.
    Z.to_euclidean_division_equations; lia. }
  destruct (Z.to_nat (((n * 8) mod 2 ^ 32) / 16 - 0)) as [|k] eqn:Hk; [lia|].
  cbn [for_range]. unfold bind, sse3_body, _mm_load_ps. cbn [addr].
  destruct (Z.eqb_spec ((input_addr + 4 * (2 * 0)) mod 16) 0) as [He|_];
    [|reflexivity].
  exfalso. apply Hal. rewrite <- He. f_equal. lia.
Qed.

Lemma a_avx_faults_off_alignment v n r0 :
  v = a_avx \/ v = a_avx_fma ->
  4 <= n -> input_addr mod 32 <> 0 ->
  run (kernel (PL := P) v input taps n) r0 = None.
Proof.
  intros Hv Hn Hal.
  assert (1 <= n / 4) by (apply Z.div_le_lower_bound; lia).
  destruct Hv as [-> | ->]; cbn [kernel];
    unfold run, volk_32fc_x2_dot_prod_32fc_a_avx,
      volk_32fc_x2_dot_prod_32fc_a_avx_fma, for_loop, u32_div; cbv zeta;
    (destruct (Z.to_nat (n / 4 - 0)) as [|k] eqn:Hk; [lia|]);
    cbn [for_range]; unfold bind, avx_body, avx_fma_body, _mm256_load_ps;
    cbn [addr];
    (destruct (Z.eqb_spec ((input_addr + 4 * (2 * 0)) mod 32) 0) as [He|_];
     [|reflexivity]);
    exfalso; apply Hal; rewrite <- He; f_equal; lia.
Qed.
End AnyPlacement.

(** X15: in exact arithmetic the result on [num_points] samples is the sum
    of the results on the first [k] samples and on the remaining
    [num_points - k], at [input + k] and [taps + k], whichever variant makes
    each of the three calls; an aligned variant can make the call on the
    advanced pointers only when [k] keeps them aligned: [k] even for
    [a_sse3], [k] a multiple of four for [a_avx] and [a_avx_fma]. *)
Theorem dot_prod_of_chunks_in_exact_arithmetic (v v1 v2 : variant)
  (input taps : list Z) (num_points k : Z) (r0 : Z * Z) :
  0 <= k <= num_points -> num_points < 2 ^ 29 ->
  2 * num_points <= zlen input -> 2 * num_points <= zlen taps ->
  (v2 = a_sse3 -> k mod 2 = 0) ->
  (v2 = a_avx \/ v2 = a_avx_fma -> k mod 4 = 0) ->
  exists m m1 m2,
    run (kernel v input taps num_points) r0 = Some m
    /\ run (kernel v1 input taps k) r0 = Some m1
    /\ run (kernel (PL := advanced aligned k) v2 (advance k input)
              (advance k taps) (num_points - k)) r0
       = Some m2
    /\ result m = cadd (result m1) (result m2).
Proof.
  intros Hk Hn Hin Htp Hsse Havx.
  assert (Hal : aligned_for v2 (advanced aligned k)).
  { destruct v2; cbn [aligned_for advanced input_addr taps_addr aligned];
      try exact I.
    - specialize (Hsse eq_refl).
      split; Z.to_euclidean_division_equations; lia.
    - specialize (Havx (or_introl eq_refl)).
      split; Z.to_euclidean_division_equations; lia.
    - specialize (Havx (or_intror eq_refl)).
      split; Z.to_euclidean_division_equations; lia. }
  rewrite (run_ext _ _ _
             (fun s => dot_prod_kernel_aligned (advanced aligned k)
                         (advance k input) (advance k taps) v2
                         (num_points - k) s Hal)).
  assert (H32 : 2 ^ 29 < 2 ^ 32) by reflexivity.
  destruct (variant_exact input taps num_points r0 ltac:(lia) Hin Htp v)
    as (m & Hr & Hres); [lia|].
  destruct (variant_exact input taps k r0 ltac:(lia) ltac:(lia) ltac:(lia) v1)
    as (m1 & Hr1 & Hres1); [lia|].
  destruct (variant_exact (advance k input) (advance k taps) (num_points - k)
              r0 ltac:(lia)
              ltac:(rewrite zlen_advance by lia; lia)
              ltac:(rewrite zlen_advance by lia; lia) v2)
    as (m2 & Hr2 & Hres2); [lia|].
  exists m, m1, m2. repeat (split; [assumption|]).
  rewrite Hres, Hres1, Hres2. now apply dot_product_split.
Qed.

Lemma dot_prod_of_chunks_in_exact_arithmetic_witness :
  exists m m1 m2,
    run (kernel u_avx exact_input exact_taps 11) (77, 78) = Some m
    /\ run (kernel generic exact_input exact_taps 4) (77, 78) = Some m1
    /\ run (kernel (PL := advanced aligned 4) a_avx (advance 4 exact_input)
              (advance 4 exact_taps) (11 - 4)) (77, 78) = Some m2
    /\ result m = cadd (result m1) (result m2).
Proof.
  apply (dot_prod_of_chunks_in_exact_arithmetic u_avx generic a_avx
           exact_input exact_taps 11 4 (77, 78)).
  - lia.
  - lia.
  - vm_compute. discriminate.
  - vm_compute. discriminate.
  - discriminate.
  - reflexivity.
Defined.

(** At [input + 5] and [taps + 5] the aligned AVX variant faults, and the
    unaligned one does not. *)
Example chunk_off_alignment :
  run (kernel (PL := advanced aligned 5) a_avx (advance 5 exact_input)
         (advance 5 exact_taps) (11 - 5)) (77, 78) = None
  /\ option_map result
       (run (kernel (PL := advanced aligned 5) u_avx (advance 5 exact_input)
               (advance 5 exact_taps) (11 - 5)) (77, 78))
     = Some (192, 1109).
Proof. split; vm_compute; reflexivity. Qed.

(** ** The aligned SSE3 variant beyond [2^29] samples *)

Lemma a_sse3_count n :
  0 <= n < 2 ^ 32 -> ((n * 8) mod 2 ^ 32) / 16 = (n mod 2 ^ 29) / 2.
Proof.
  intros Hn. change (2 ^ 32) with 4294967296 in *.
  change (2 ^ 29) with 536870912.
  Z.to_euclidean_division_equations; lia.
Qed.

(** X16: what the aligned SSE3 variant computes for every [num_points], in
    exact arithmetic: the sum of the products of the first
    [2 * ((num_points mod 2^29) / 2)] samples, plus the product of the last
    sample when [num_points] is odd.  Below [2^29] this is the dot product;
    from [2^29] on, the samples in between are left out. *)
Theorem a_sse3_sums_what_its_loop_covers (input taps : list Z)
  (num_points : Z) (r0 : Z * Z) :
  0 <= num_points < 2 ^ 32 ->
  2 * num_points <= zlen input -> 2 * num_points <= zlen taps ->
  exists m,
    run (volk_32fc_x2_dot_prod_32fc_a_sse3 input taps num_points) r0 = Some m
    /\ result m
       = cadd (dot_product input taps (2 * ((num_points mod 2 ^ 29) / 2)))
           (if num_points mod 2 =? 0 then (0, 0)
            else (re_at input taps (num_points - 1),
                  im_at input taps (num_points - 1))).
Proof.
  intros Hn Hin Htp.
  destruct (a_sse3_run input taps num_points r0 Hn Hin Htp
              (sse3_inv input taps))
    as (m & Hr & acc & (Hlen & Hre & Him) & Hres & _).
  - repeat split.
  - intros j acc _. apply sse3_inv_step.
  - exists m. split; [exact Hr|]. rewrite Hres.
    rewrite a_sse3_count in Hre, Him by assumption.
    assert (0 <= (num_points mod 2 ^ 29) / 2)
      by (apply Z.div_pos; [apply Z.mod_pos_bound|]; lia).
    rewrite Z2Nat.id in Hre, Him by assumption.
    unfold sse3_result, dot_product. rewrite <- Hre, <- Him.
    unfold cadd, czero, cplx_of, lv_cmake.
    cbn [fst snd Nat.mul Nat.add fadd fzero Z_ops].
    destruct (num_points mod 2 =? 0).
    + cbn [fst snd]. f_equal; lia.
    + rewrite prod_it_exact. cbn [fst snd]. f_equal; lia.
Qed.

Lemma a_sse3_sums_what_its_loop_covers_witness :
  exists m,
    run (volk_32fc_x2_dot_prod_32fc_a_sse3 exact_input exact_taps 11)
      (77, 78) = Some m
    /\ result m
       = cadd (dot_product exact_input exact_taps (2 * ((11 mod 2 ^ 29) / 2)))
           (if 11 mod 2 =? 0 then (0, 0)
            else (re_at exact_input exact_taps (11 - 1),
                  im_at exact_input exact_taps (11 - 1))).
Proof.
  apply (a_sse3_sums_what_its_loop_covers exact_input exact_taps 11 (77, 78)).
  - lia.
  - vm_compute. discriminate.
  - vm_compute. discriminate.
Defined.

(** ** The floats read *)

(** X17: every variant runs to completion on buffers of at least
    [num_points] samples and reads only floats at offsets below
    [2 * num_points] of [input] and of [taps], however long the buffers
    are. *)
Theorem dot_prod_reads_within_num_points (v : variant)
  (input taps : list float) (num_points : Z) (r0 : lv_32fc_t) :
  0 <= num_points < 2 ^ 32 ->
  2 * num_points <= zlen input -> 2 * num_points <= zlen taps ->
  exists m,
    run (kernel v input taps num_points) r0 = Some m
    /\ forall b p, In (Ld b p) (trace m) -> 0 <= p < 2 * num_points.
Proof. intros Hn Hin Htp. now apply variant_loads. Qed.

Lemma dot_prod_reads_within_num_points_witness :
  exists m,
    run (kernel neon_optfmaunroll loud loud' 10) r_old = Some m
    /\ forall b p, In (Ld b p) (trace m) -> 0 <= p < 2 * 10.
Proof.
  apply (dot_prod_reads_within_num_points neon_optfmaunroll loud loud' 10
           r_old); vm_compute; intuition discriminate.
Defined.
End DotProdProps.

(* ===================================================================== *)
(** * [volk_version.h] *)
(* ===================================================================== *)

Module Version.

(** [volk/volk_version.h]: the three components of the version and the
    number that combines them. *)
Definition VOLK_VERSION_MAJOR : Z := 3.
Definition VOLK_VERSION_MINOR : Z := 1.
Definition VOLK_VERSION_MAINT : Z := 2.
Definition VOLK_VERSION : Z := 30102.

(** The components of a combined version number, as the header documents
    them: [v % 100], [(v / 100) % 100] and [(v / 100) / 100]. *)
Definition version_maint (v : Z) : Z := v mod 100.
Definition version_minor (v : Z) : Z := (v / 100) mod 100.
Definition version_major (v : Z) : Z := (v / 100) / 100.

(** [VOLK_VERSION] is the number whose documented components are the three
    macros [VOLK_VERSION_MAJOR], [VOLK_VERSION_MINOR] and
    [VOLK_VERSION_MAINT]. *)
Example volk_version_is_its_components :
  version_maint VOLK_VERSION = VOLK_VERSION_MAINT
  /\ version_minor VOLK_VERSION = VOLK_VERSION_MINOR
  /\ version_major VOLK_VERSION = VOLK_VERSION_MAJOR.
Proof. repeat split. Qed.
End Version.
